(** * The flecs rule engine (src/addons/rules.c): compiler front end and
      virtual machine, embedded as executable definitions.

    Conventions of the embedding.
    - [ecs_entity_t] / [ecs_id_t] (uint64_t) and every [int32_t] are [Z].
    - A pointer [ecs_rule_var_t*] into [rule->variables] is the index of the
      element, [None] for [NULL]; pointer comparison is index comparison.
    - C strings are [string]; [ecs_os_strcmp(a, b) == 0] is [String.eqb].
    - [rule->variable_count] and [rule->operation_count] always equal the
      lengths of the arrays they count, so they are derived from the lists.
    - Mutation of the rule or of an iterator is explicit state passing. *)

From Stdlib Require Import ZArith String List Bool Lia.
From stdpp Require Import base option list.

Local Open Scope string_scope.
Local Open Scope Z_scope.

(** ** Data model *)

(** [ecs_rule_var_kind_t]; the enumerators have the values 0, 1, 2. *)
Inductive ecs_rule_var_kind_t :=
| EcsRuleVarKindTable
| EcsRuleVarKindEntity
| EcsRuleVarKindUnknown.

Definition kind_value (k : ecs_rule_var_kind_t) : Z :=
  match k with
  | EcsRuleVarKindTable => 0
  | EcsRuleVarKindEntity => 1
  | EcsRuleVarKindUnknown => 2
  end.

Definition kind_eqb (a b : ecs_rule_var_kind_t) : bool :=
  kind_value a =? kind_value b.

(** [ecs_rule_var_t] *)
Record ecs_rule_var_t := mk_var {
  var_kind : ecs_rule_var_kind_t;
  var_name : string;
  var_id : Z;
  var_occurs : Z;
  var_depth : Z;
  var_marked : bool
}.

Definition set_var_kind k v :=
  mk_var k (var_name v) (var_id v) (var_occurs v) (var_depth v) (var_marked v).
Definition set_var_id i v :=
  mk_var (var_kind v) (var_name v) i (var_occurs v) (var_depth v)
         (var_marked v).
Definition set_var_occurs n v :=
  mk_var (var_kind v) (var_name v) (var_id v) n (var_depth v) (var_marked v).
Definition set_var_depth d v :=
  mk_var (var_kind v) (var_name v) (var_id v) (var_occurs v) d (var_marked v).
Definition set_var_marked b v :=
  mk_var (var_kind v) (var_name v) (var_id v) (var_occurs v) (var_depth v) b.

(** [ecs_var_kind_t] of a term identifier. *)
Inductive ecs_var_kind_t := EcsVarDefault | EcsVarIsEntity | EcsVarIsVariable.

(** [ecs_oper_kind_t] *)
Inductive ecs_oper_kind_t := EcsAnd | EcsOr | EcsNot | EcsOptional.

Definition is_not (o : ecs_oper_kind_t) : bool :=
  match o with EcsNot => true | _ => false end.
Definition is_optional (o : ecs_oper_kind_t) : bool :=
  match o with EcsOptional => true | _ => false end.

(** [ecs_term_id_t]: one of predicate, subject, object of a term.  A term
    identifier that is a variable always carries a name once the filter
    has been initialised, so the name is a plain string (empty when the C
    field is NULL). *)
Record ecs_term_id_t := mk_term_id {
  tid_entity : Z;
  tid_name : string;
  tid_var : ecs_var_kind_t;
  tid_set_mask : Z
}.

(** [ecs_term_t], the fields the rule engine reads. *)
Record ecs_term_t := mk_term {
  term_id : Z;
  term_pred_id : ecs_term_id_t;
  term_subj_id : ecs_term_id_t;
  term_obj_id : ecs_term_id_t;
  term_oper : ecs_oper_kind_t;
  term_role : Z
}.

(** [ecs_rule_pair_t].  The unions [pred] and [obj] hold a register index
    or an entity in the same storage; one [Z] per union. *)
Record ecs_rule_pair_t := mk_pair {
  pair_pred_v : Z;
  pair_obj_v : Z;
  reg_mask : Z;
  transitive : bool;
  final : bool;
  inclusive : bool;
  obj_0 : bool
}.

Definition RULE_PAIR_PREDICATE : Z := 1.
Definition RULE_PAIR_OBJECT : Z := 2.
Definition ECS_RULE_MAX_VARIABLE_COUNT : Z := 256.
Definition UINT8_MAX : Z := 255.

Definition pair_zero : ecs_rule_pair_t := mk_pair 0 0 0 false false false false.

(** [ecs_rule_op_kind_t] *)
Inductive ecs_rule_op_kind_t :=
| EcsRuleInput
| EcsRuleSelect
| EcsRuleWith
| EcsRuleSubSet
| EcsRuleSuperSet
| EcsRuleStore
| EcsRuleEach
| EcsRuleSetJmp
| EcsRuleJump
| EcsRuleNot
| EcsRuleYield.

(** [ecs_rule_op_t] *)
Record ecs_rule_op_t := mk_op {
  op_kind : ecs_rule_op_kind_t;
  op_filter : ecs_rule_pair_t;
  op_subject : Z;
  on_pass : Z;
  on_fail : Z;
  op_frame : Z;
  op_term : Z;
  r_in : Z;
  r_out : Z;
  has_in : bool;
  has_out : bool
}.

(** [ecs_rule_t]: the parsed filter terms, the variable array, the
    operation array and the counters. *)
Record ecs_rule_t := mk_rule {
  filter_terms : list ecs_term_t;
  variables : list ecs_rule_var_t;
  operations : list ecs_rule_op_t;
  subject_variable_count : Z;
  frame_count : Z;
  variable_names : list (option string);
  subject_variables : list Z
}.

Definition variable_count (rule : ecs_rule_t) : Z :=
  Z.of_nat (length (variables rule)).
Definition operation_count (rule : ecs_rule_t) : Z :=
  Z.of_nat (length (operations rule)).
Definition term_count (rule : ecs_rule_t) : Z :=
  Z.of_nat (length (filter_terms rule)).

Definition set_variables vs rule :=
  mk_rule (filter_terms rule) vs (operations rule)
          (subject_variable_count rule) (frame_count rule)
          (variable_names rule) (subject_variables rule).
Definition set_operations os rule :=
  mk_rule (filter_terms rule) (variables rule) os
          (subject_variable_count rule) (frame_count rule)
          (variable_names rule) (subject_variables rule).
Definition set_subject_variable_count n rule :=
  mk_rule (filter_terms rule) (variables rule) (operations rule)
          n (frame_count rule)
          (variable_names rule) (subject_variables rule).
Definition set_frame_count n rule :=
  mk_rule (filter_terms rule) (variables rule) (operations rule)
          (subject_variable_count rule) n
          (variable_names rule) (subject_variables rule).
Definition set_name_arrays names subjects rule :=
  mk_rule (filter_terms rule) (variables rule) (operations rule)
          (subject_variable_count rule) (frame_count rule)
          names subjects.

(** Names and numbers the rule engine takes from the flecs headers and from
    the library around it: builtin entities, the pair role tag, the
    [EcsNothing] subject flag, the filter helper [ecs_term_id_is_set] and
    the sort behind [ecs_qsort_t]. *)
Class flecs_api := {
  EcsWildcard : Z;
  EcsThis : Z;
  EcsIsA : Z;
  EcsChildOf : Z;
  EcsTransitive : Z;
  EcsTransitiveSelf : Z;
  EcsFinal : Z;
  ECS_PAIR : Z;
  EcsNothing : Z;
  ecs_term_id_is_set : ecs_term_id_t -> bool;
  ecs_qsort :
    (ecs_rule_var_t -> ecs_rule_var_t -> Z) ->
    list ecs_rule_var_t -> list ecs_rule_var_t
}.

(** The storage layer, as far as the rule engine consumes it (section 4.8
    of the specification).  A table is named by a handle; [ecs_table_t*]
    is [option table_t].  An id record is the array of its table records
    ([flecs_id_record_tables], [flecs_id_record_count]); a NULL record is
    [None].  [ecs_eis_get] returns the table of the entity's record and
    [ECS_RECORD_TO_ROW(record->row)]. *)
Definition table_t := nat.

Record ecs_table_record_t := mk_table_record {
  tr_table : option table_t;
  tr_column : Z
}.

Definition ecs_id_record_t := list ecs_table_record_t.

Record ecs_world_t := mk_world {
  ecs_has_id : Z -> Z -> bool;
  ecs_is_valid : Z -> bool;
  ecs_get_alive : Z -> Z;
  ecs_eis_get : Z -> option (option table_t * Z);
  flecs_get_id_record : Z -> option ecs_id_record_t;
  flecs_get_table_record : table_t -> Z -> option ecs_table_record_t;
  ecs_id_match : Z -> Z -> bool;
  table_type : table_t -> list Z;
  table_entities : table_t -> list Z
}.

(** The id macros of the flecs headers.  An id is a 64-bit word; the top
    byte is the role, a pair keeps the relation in bits 32..55 and the
    object in the low 32 bits. *)
Definition ECS_ROLE_MASK : Z := Z.shiftl 255 56.
Definition ECS_COMPONENT_MASK : Z := Z.ones 56.

Definition ecs_entity_t_lo (value : Z) : Z := Z.land value (Z.ones 32).
Definition ecs_entity_t_hi (value : Z) : Z :=
  Z.land (Z.shiftr value 32) (Z.ones 32).
Definition ecs_entity_t_comb (lo hi : Z) : Z :=
  (Z.shiftl hi 32 + ecs_entity_t_lo lo) mod 2 ^ 64.

Definition ecs_pair {api : flecs_api} (pred obj : Z) : Z :=
  Z.lor ECS_PAIR (ecs_entity_t_comb obj pred).
Definition ECS_PAIR_RELATION (e : Z) : Z :=
  ecs_entity_t_hi (Z.land e ECS_COMPONENT_MASK).
Definition ECS_PAIR_OBJECT (e : Z) : Z := ecs_entity_t_lo e.
Definition ECS_HAS_ROLE_PAIR {api : flecs_api} (e : Z) : bool :=
  Z.land e ECS_ROLE_MASK =? ECS_PAIR.

(** Errors reported through [rule_error]. *)
Inductive rule_error_t :=
| ErrNoTerms
| ErrOnlyNot
| ErrTooManyVariables
| ErrUnconstrained (name : string)
| ErrMissingPredicateVariable (name : string)
| ErrMissingObjectVariable (name : string).

Definition rule_error_message (e : rule_error_t) : string :=
  match e with
  | ErrNoTerms => "rule has no terms"
  | ErrOnlyNot => "rule cannot only have terms with Not operator"
  | ErrTooManyVariables => "too many variables in rule"
  | ErrUnconstrained n =>
      String.append "unconstrained variable '" (String.append n "'")
  | ErrMissingPredicateVariable n =>
      String.append "missing predicate variable '" (String.append n "'")
  | ErrMissingObjectVariable n =>
      String.append "missing object variable '" (String.append n "'")
  end.

(** The rule as [ecs_poly_new] and [ecs_filter_init] leave it. *)
Definition rule_of_terms (terms : list ecs_term_t) : ecs_rule_t :=
  mk_rule terms [] [] 0 0 [] [].

(** ** Variable table *)

Definition get_var_name (name : string) : string :=
  if String.eqb name "This" then "." else name.

(** [ecs_os_sprintf(name_buff, "_%u", cur - 1)]: decimal digits of a
    natural number. *)
Fixpoint digits_of (fuel n : nat) (acc : string) : string :=
  match fuel with
  | O => acc
  | S fuel' =>
      let d := String (Ascii.ascii_of_nat (48 + Nat.modulo n 10)) acc in
      if Nat.ltb n 10 then d else digits_of fuel' (Nat.div n 10) d
  end.

Definition anonymous_name (n : nat) : string :=
  String.append "_" (digits_of (S n) n EmptyString).

(** [create_variable]: appends the variable and returns its index.  [name]
    is [None] for an anonymous register. *)
Definition create_variable (rule : ecs_rule_t) (kind : ecs_rule_var_kind_t)
    (name : option string) : ecs_rule_t * nat :=
  let cur := S (length (variables rule)) in
  let nm := match name with
            | Some n => get_var_name n
            | None => anonymous_name (cur - 1)
            end in
  let var := mk_var kind nm (Z.of_nat (cur - 1)) 0 UINT8_MAX false in
  (set_variables (variables rule ++ [var]) rule, (cur - 1)%nat).

Definition create_anonymous_variable rule kind :=
  create_variable rule kind None.

(** The loop of [find_variable] over [variables[i]], [i] counting up. *)
Fixpoint find_variable_from (vars : list ecs_rule_var_t) (i : nat)
    (kind : ecs_rule_var_kind_t) (name : string) : option nat :=
  match vars with
  | [] => None
  | variable :: rest =>
      if String.eqb name (var_name variable)
         && (kind_eqb kind EcsRuleVarKindUnknown
             || kind_eqb kind (var_kind variable))
      then Some i
      else find_variable_from rest (S i) kind name
  end.

Definition find_variable (rule : ecs_rule_t) (kind : ecs_rule_var_kind_t)
    (name : string) : option nat :=
  find_variable_from (variables rule) 0 kind (get_var_name name).

Definition alter_var (f : ecs_rule_var_t -> ecs_rule_var_t) (i : nat)
    (rule : ecs_rule_t) : ecs_rule_t :=
  set_variables (alter f i (variables rule)) rule.

Definition ensure_variable (rule : ecs_rule_t) (kind : ecs_rule_var_kind_t)
    (name : string) : ecs_rule_t * nat :=
  match find_variable rule kind name with
  | None => create_variable rule kind (Some name)
  | Some i =>
      match variables rule !! i with
      | Some v =>
          if kind_eqb (var_kind v) EcsRuleVarKindUnknown
          then (alter_var (set_var_kind kind) i rule, i)
          else (rule, i)
      | None => (rule, i)
      end
  end.

(** Public lookup [ecs_rule_find_var]. *)
Definition ecs_rule_find_var (rule : ecs_rule_t) (name : string) : Z :=
  match find_variable rule EcsRuleVarKindEntity name with
  | Some i =>
      match variables rule !! i with
      | Some v => var_id v
      | None => -1
      end
  | None => -1
  end.

(** ** Results of fallible steps

    [Failed e]: the step reported [e] through [rule_error] and took its
    [error] exit.  [Abort]: an [ecs_assert] failed or memory outside an
    array was touched.  [Stuck]: the fuel of a recursive definition ran
    out.  Functions that have no [rule_error] path use the empty type for
    the errors. *)
Inductive outcome (E A : Type) :=
| Done (a : A)
| Failed (e : E)
| Abort
| Stuck.
Arguments Done {E A} a.
Arguments Failed {E A} e.
Arguments Abort {E A}.
Arguments Stuck {E A}.

Definition crash (A : Type) : Type := outcome Empty_set A.

Definition obind {E A B} (m : outcome E A) (k : A -> outcome E B)
    : outcome E B :=
  match m with
  | Done a => k a
  | Failed e => Failed e
  | Abort => Abort
  | Stuck => Stuck
  end.

(** A step without error exit, used where errors can be reported. *)
Definition lift {E A} (m : crash A) : outcome E A :=
  match m with
  | Done a => Done a
  | Failed e => match e with end
  | Abort => Abort
  | Stuck => Stuck
  end.

Notation "'do' x <- m ; k" := (obind m (fun x => k))
  (at level 10, x name, m at level 100, k at level 200).
Notation "'do' ( x , y ) <- m ; k" :=
  (obind m (fun xy => let '(x, y) := xy in k))
  (at level 10, x name, y name, m at level 100, k at level 200).

(** A [for (i = 0; i < count; i ++)] loop over an array, with a state
    and an early exit. *)
Fixpoint for_each {E A S} (body : S -> A -> outcome E S) (l : list A)
    (s : S) : outcome E S :=
  match l with
  | [] => Done s
  | a :: rest => do s' <- body s a; for_each body rest s'
  end.

(** ** Terms *)

Section Terms.
Context {api : flecs_api}.

Definition subj_is_set (term : ecs_term_t) : bool :=
  ecs_term_id_is_set (term_subj_id term).

Definition obj_is_set (term : ecs_term_t) : bool :=
  ecs_term_id_is_set (term_obj_id term) || (term_role term =? ECS_PAIR).

Definition term_id_is_variable (tid : ecs_term_id_t) : bool :=
  match tid_var tid with EcsVarIsVariable => true | _ => false end.

Definition term_id_is_entity (tid : ecs_term_id_t) : bool :=
  match tid_var tid with EcsVarIsEntity => true | _ => false end.

(** Only called on identifiers that are variables. *)
Definition term_id_var_name (tid : ecs_term_id_t) : string :=
  if tid_entity tid =? EcsThis then "." else tid_name tid.

Definition term_id_to_var (rule : ecs_rule_t) (tid : ecs_term_id_t)
    : option nat :=
  if term_id_is_variable tid
  then find_variable rule EcsRuleVarKindUnknown (term_id_var_name tid)
  else None.

Definition term_pred rule term := term_id_to_var rule (term_pred_id term).
Definition term_subj rule term := term_id_to_var rule (term_subj_id term).
Definition term_obj rule term :=
  if obj_is_set term then term_id_to_var rule (term_obj_id term) else None.

Definition is_subject (rule : ecs_rule_t) (var : option nat) : bool :=
  match var with
  | None => false
  | Some i =>
      match variables rule !! i with
      | Some v => var_id v <? subject_variable_count rule
      | None => false
      end
  end.

Definition skip_term (term : ecs_term_t) : bool :=
  negb (Z.land (tid_set_mask (term_subj_id term)) EcsNothing =? 0)
  || is_not (term_oper term).
End Terms.

Definition ptr_eqb (a b : option nat) : bool :=
  match a, b with
  | Some i, Some j => Nat.eqb i j
  | None, None => true
  | _, _ => false
  end.

Definition is_null {A} (p : option A) : bool :=
  match p with None => true | Some _ => false end.

Definition marked_at (rule : ecs_rule_t) (i : nat) : bool :=
  from_option var_marked false (variables rule !! i).
Definition depth_at (rule : ecs_rule_t) (i : nat) : Z :=
  from_option var_depth UINT8_MAX (variables rule !! i).
Definition id_at (rule : ecs_rule_t) (i : nat) : Z :=
  from_option var_id (Z.of_nat i) (variables rule !! i).
Definition kind_at (rule : ecs_rule_t) (i : nat) : ecs_rule_var_kind_t :=
  from_option var_kind EcsRuleVarKindUnknown (variables rule !! i).
Definition name_at (rule : ecs_rule_t) (i : nat) : string :=
  from_option var_name EmptyString (variables rule !! i).

(** ** Dependency depth *)

Section VariableDepth.
Context {api : flecs_api}.

(** The recursive call [get_variable_depth(rule, var, root, recur)] of
    the mutually recursive functions, at one unit of fuel less. *)
Variable get_variable_depth_rec :
  ecs_rule_t -> nat -> nat -> Z -> crash (ecs_rule_t * Z).

Definition crawl_visit (rule : ecs_rule_t) (var : nat) (root : nat)
    (recur : Z) (p : option nat) : crash ecs_rule_t :=
  match p with
  | Some i =>
      if negb (Nat.eqb i var) && negb (marked_at rule i)
      then do (rule', _d) <- get_variable_depth_rec rule i root (recur + 1);
           Done rule'
      else Done rule
  | None => Done rule
  end.

Definition crawl_variable (rule : ecs_rule_t) (var : nat) (root : nat)
    (recur : Z) : crash ecs_rule_t :=
  for_each (fun rule term =>
    if skip_term term then Done rule else
    let pred := term_pred rule term in
    let subj := term_subj rule term in
    let obj := term_obj rule term in
    if negb (ptr_eqb (Some var) pred) && negb (ptr_eqb (Some var) subj)
       && negb (ptr_eqb (Some var) obj)
    then Done rule
    else
      do rule1 <- crawl_visit rule var root recur pred;
      do rule2 <- crawl_visit rule1 var root recur subj;
      crawl_visit rule2 var root recur obj)
    (filter_terms rule) rule.

Definition get_depth_from_var (rule : ecs_rule_t) (var : nat) (root : nat)
    (recur : Z) : crash (ecs_rule_t * Z) :=
  if Nat.eqb var root || negb (depth_at rule var =? UINT8_MAX)
  then Done (rule, depth_at rule var + 1)
  else if marked_at rule var then Done (rule, 0)
  else
    do (rule', depth) <- get_variable_depth_rec rule var root (recur + 1);
    if depth =? UINT8_MAX then Done (rule', depth)
    else Done (rule', depth + 1).

Definition get_depth_from_term (rule : ecs_rule_t) (cur : nat)
    (pred obj : option nat) (root : nat) (recur : Z)
    : crash (ecs_rule_t * Z) :=
  let result := UINT8_MAX in
  match pred, obj with
  | None, None => Done (rule, 0)
  | _, _ =>
      let after_pred (k : ecs_rule_t -> Z -> crash (ecs_rule_t * Z)) :=
        match pred with
        | Some p =>
            if negb (Nat.eqb cur p) then
              do (rule1, depth) <- get_depth_from_var rule p root recur;
              if depth =? UINT8_MAX then Done (rule1, UINT8_MAX)
              else k rule1 (if depth <? result then depth else result)
            else k rule result
        | None => k rule result
        end in
      after_pred (fun rule1 result1 =>
        match obj with
        | Some o =>
            if negb (Nat.eqb cur o) then
              do (rule2, depth) <- get_depth_from_var rule1 o root recur;
              if depth =? UINT8_MAX then Done (rule2, UINT8_MAX)
              else Done (rule2, if depth <? result1 then depth else result1)
            else Done (rule1, result1)
        | None => Done (rule1, result1)
        end)
  end.

Definition get_variable_depth_body (rule : ecs_rule_t) (var : nat)
    (root : nat) (recur : Z) : crash (ecs_rule_t * Z) :=
  let rule := alter_var (set_var_marked true) var rule in
  (* first loop: depth from the terms of which var is the subject *)
  do (rule, result) <-
    for_each (fun '(rule, result) term =>
      if skip_term term then Done (rule, result) else
      let pred := term_pred rule term in
      let subj := term_subj rule term in
      let obj := term_obj rule term in
      if negb (ptr_eqb subj (Some var)) then Done (rule, result) else
      let pred := if is_subject rule pred then pred else None in
      let obj := if is_subject rule obj then obj else None in
      do (rule', depth) <- get_depth_from_term rule var pred obj root recur;
      Done (rule', if depth <? result then depth else result))
      (filter_terms rule) (rule, UINT8_MAX);
  let result := if result =? UINT8_MAX then 0 else result in
  let rule := alter_var (set_var_depth result) var rule in
  (* second loop: follow predicate and object links *)
  do rule <-
    for_each (fun rule term =>
      if skip_term term then Done rule else
      let subj := term_subj rule term in
      let pred := term_pred rule term in
      let obj := term_obj rule term in
      if negb (ptr_eqb subj (Some var)) then Done rule else
      do rule1 <- crawl_variable rule var root recur;
      do rule2 <-
        match pred with
        | Some p => if negb (Nat.eqb p var)
                    then crawl_variable rule1 p root recur else Done rule1
        | None => Done rule1
        end;
      match obj with
      | Some o => if negb (Nat.eqb o var)
                  then crawl_variable rule2 o root recur else Done rule2
      | None => Done rule2
      end)
      (filter_terms rule) rule;
  Done (rule, depth_at rule var).
End VariableDepth.

Fixpoint get_variable_depth {api : flecs_api} (fuel : nat)
    (rule : ecs_rule_t) (var root : nat) (recur : Z)
    : crash (ecs_rule_t * Z) :=
  match fuel with
  | O => Stuck
  | S fuel' =>
      get_variable_depth_body (get_variable_depth fuel') rule var root recur
  end.

(** ** Ordering of variables *)

(** [compare_variable]: every path through the two kind tests, the two
    depth tests and the occurrence test returns; the statement that follows
    them in the source, [return (v1->id < v2->id) - (v1->id > v2->id)], is
    never reached. *)
Definition compare_variable (v1 v2 : ecs_rule_var_t) : Z :=
  if kind_value (var_kind v1) <? kind_value (var_kind v2) then -1
  else if kind_value (var_kind v1) >? kind_value (var_kind v2) then 1
  else if var_depth v1 <? var_depth v2 then -1
  else if var_depth v1 >? var_depth v2 then 1
  else if var_occurs v1 <? var_occurs v2 then 1
  else -1.

(** ** Variable scanning *)

Section ScanVariables.
Context {api : flecs_api}.

(** [ensure_all_variables] *)
Definition ensure_all_variables (rule : ecs_rule_t) : ecs_rule_t :=
  fold_left (fun rule term =>
    if skip_term term then rule else
    let rule :=
      if term_id_is_variable (term_pred_id term)
      then fst (ensure_variable rule EcsRuleVarKindEntity
                  (term_id_var_name (term_pred_id term)))
      else rule in
    let rule :=
      if term_id_is_variable (term_subj_id term)
         && negb (tid_entity (term_subj_id term) =? EcsThis)
      then fst (ensure_variable rule EcsRuleVarKindEntity
                  (term_id_var_name (term_subj_id term)))
      else rule in
    if obj_is_set term && term_id_is_variable (term_obj_id term)
    then fst (ensure_variable rule EcsRuleVarKindEntity
                (term_id_var_name (term_obj_id term)))
    else rule)
    (filter_terms rule) rule.

(** Locals of [scan_variables] that live across its first loop. *)
Record scan_roots_t := mk_scan {
  sc_rule : ecs_rule_t;
  sc_subject_count : Z;
  sc_this_var : Z;
  sc_max_occur : Z;
  sc_max_occur_var : Z
}.

(** Body of the loop "Step 1: find all possible roots". *)
Definition scan_subject (st : scan_roots_t) (term : ecs_term_t)
    : outcome rule_error_t scan_roots_t :=
  if term_id_is_variable (term_subj_id term) then
    let subj_name := term_id_var_name (term_subj_id term) in
    do (rule, subj) <-
      match find_variable (sc_rule st) EcsRuleVarKindTable subj_name with
      | Some subj => Done (sc_rule st, subj)
      | None =>
          let '(rule, subj) :=
            create_variable (sc_rule st) EcsRuleVarKindTable
                            (Some subj_name) in
          if sc_subject_count st >=? ECS_RULE_MAX_VARIABLE_COUNT
          then Failed ErrTooManyVariables
          else Done (rule, subj)
      end;
    let occurs := from_option var_occurs 0 (variables rule !! subj) + 1 in
    let rule := alter_var (set_var_occurs occurs) subj rule in
    if occurs >? sc_max_occur st
    then Done (mk_scan rule (sc_subject_count st) (sc_this_var st)
                       occurs (id_at rule subj))
    else Done (mk_scan rule (sc_subject_count st) (sc_this_var st)
                       (sc_max_occur st) (sc_max_occur_var st))
  else Done st.

Definition scan_roots (rule : ecs_rule_t)
    : outcome rule_error_t scan_roots_t :=
  for_each scan_subject (filter_terms rule)
           (mk_scan rule 0 UINT8_MAX 0 UINT8_MAX).

(** "Variables in a term with a literal subject have depth 0". *)
Definition seed_literal_depths (rule : ecs_rule_t) : ecs_rule_t :=
  fold_left (fun rule term =>
    if term_id_is_entity (term_subj_id term) then
      let pred := term_pred rule term in
      let obj := term_obj rule term in
      let rule := match pred with
                  | Some p => alter_var (set_var_depth 0) p rule
                  | None => rule
                  end in
      match obj with
      | Some o => alter_var (set_var_depth 0) o rule
      | None => rule
      end
    else rule)
    (filter_terms rule) rule.

(** "Elect a root": [None] is the [goto done] of a rule without subject
    variables. *)
Definition elect_root (this_var max_occur_var : Z) : option Z :=
  let root_var := this_var in
  if root_var =? UINT8_MAX then
    let root_var := max_occur_var in
    if root_var =? UINT8_MAX then None else Some root_var
  else Some root_var.

(** "Verify that there are no unconstrained variables". *)
Definition check_unconstrained (rule : ecs_rule_t)
    : outcome rule_error_t unit :=
  for_each (fun _ v =>
    if var_depth v =? UINT8_MAX then Failed (ErrUnconstrained (var_name v))
    else Done tt)
    (take (Z.to_nat (subject_variable_count rule)) (variables rule)) tt.

(** "For each Not term, verify that variables are known". *)
Definition check_not_terms (rule : ecs_rule_t)
    : outcome rule_error_t unit :=
  for_each (fun _ term =>
    if negb (is_not (term_oper term)) then Done tt else
    let pred := term_pred rule term in
    let obj := term_obj rule term in
    if is_null pred && term_id_is_variable (term_pred_id term)
    then Failed (ErrMissingPredicateVariable
                   (term_id_var_name (term_pred_id term)))
    else if is_null obj
            && term_id_is_variable (term_obj_id term)
    then Failed (ErrMissingObjectVariable
                   (term_id_var_name (term_obj_id term)))
    else Done tt)
    (filter_terms rule) tt.
End ScanVariables.

(** [scan_variables], up to the point where the variable array is sorted:
    the rule with its depths computed and the index of the elected root
    ([None] when no root election takes place). *)
Definition scan_variables_order {api : flecs_api} (rule : ecs_rule_t)
    : outcome rule_error_t (ecs_rule_t * option nat) :=
  do st <- scan_roots rule;
  let rule := sc_rule st in
  let rule := set_subject_variable_count (variable_count rule) rule in
  let rule := ensure_all_variables rule in
  let rule := seed_literal_depths rule in
  match elect_root (sc_this_var st) (sc_max_occur_var st) with
  | None => Done (rule, None)
  | Some root_var =>
      let root := Z.to_nat root_var in
      do (rule, depth) <-
        lift (get_variable_depth (S (length (variables rule)))
                                 rule root root 0);
      let rule := alter_var (set_var_depth depth) root rule in
      do _u <- check_unconstrained rule;
      do _u <- check_not_terms rule;
      Done (rule, Some root)
  end.

(** "Iterate variables to correct ids after sort". *)
Definition renumber (vars : list ecs_rule_var_t) : list ecs_rule_var_t :=
  imap (fun i v => set_var_id (Z.of_nat i) v) vars.

Definition scan_variables {api : flecs_api} (rule : ecs_rule_t)
    : outcome rule_error_t ecs_rule_t :=
  do (rule, root) <- scan_variables_order rule;
  match root with
  | None => Done rule
  | Some _ =>
      Done (set_variables
              (renumber (ecs_qsort compare_variable (variables rule))) rule)
  end.

(** ** A concrete instance of the library interface

    Used to run the definitions on concrete rules. *)

(** Modelled from the spec: the sorting routine behind [ecs_qsort_t] is not
    part of rules.c; section 4.3 only says that the variables are sorted
    with the comparator, so an insertion sort driven by the comparator
    stands in for it. *)
Fixpoint sort_insert {A} (cmp : A -> A -> Z) (x : A) (l : list A) : list A :=
  match l with
  | [] => [x]
  | y :: rest =>
      if cmp x y <? 0 then x :: y :: rest else y :: sort_insert cmp x rest
  end.

Definition insertion_sort {A} (cmp : A -> A -> Z) (l : list A) : list A :=
  fold_right (sort_insert cmp) [] l.

(** Modelled from the spec: [ecs_term_id_is_set] belongs to the filter
    code; a term position is set when it names an entity or carries a
    name (section 3, "object: literal id, variable, absent"). *)
Definition term_id_is_set_model (tid : ecs_term_id_t) : bool :=
  negb (tid_entity tid =? 0) || negb (String.eqb (tid_name tid) EmptyString).

(** Sample values for the builtin entities (small distinct ids), the pair
    role tag in the top byte of an id, and the [EcsNothing] flag. *)
Definition sample_api : flecs_api := {|
  EcsWildcard := 266;
  EcsThis := 267;
  EcsIsA := 270;
  EcsChildOf := 271;
  EcsTransitive := 268;
  EcsTransitiveSelf := 269;
  EcsFinal := 272;
  ECS_PAIR := Z.shiftl 250 56;
  EcsNothing := 64;
  ecs_term_id_is_set := term_id_is_set_model;
  ecs_qsort := @insertion_sort ecs_rule_var_t
|}.

(** Term identifiers as [ecs_filter_init] leaves them. *)
Definition tid_unset : ecs_term_id_t :=
  mk_term_id 0 EmptyString EcsVarDefault 0.
Definition tid_entity_lit (e : Z) : ecs_term_id_t :=
  mk_term_id e EmptyString EcsVarIsEntity 0.
Definition tid_variable (name : string) : ecs_term_id_t :=
  mk_term_id 0 name EcsVarIsVariable 0.
Definition tid_this {api : flecs_api} : ecs_term_id_t :=
  mk_term_id EcsThis "This" EcsVarIsVariable 0.

(** ** Program emitter *)

(** [bool written[ECS_RULE_MAX_VARIABLE_COUNT]] of [compile_program];
    an index outside the array is [Abort]. *)
Definition written_t := list bool.

Definition written_get (written : written_t) (id : Z) : crash bool :=
  if (0 <=? id) && (id <? ECS_RULE_MAX_VARIABLE_COUNT) then
    match written !! Z.to_nat id with
    | Some b => Done b
    | None => Abort
    end
  else Abort.

Definition written_set (written : written_t) (id : Z) : crash written_t :=
  if (0 <=? id) && (id <? ECS_RULE_MAX_VARIABLE_COUNT)
  then Done (<[Z.to_nat id := true]> written)
  else Abort.

(** Stateful fallible computations: the state is threaded, the result is
    an [outcome]. *)
Definition stm (S A : Type) : Type := S -> crash (A * S).

Definition emit_ret {S A} (a : A) : stm S A := fun st => Done (a, st).
Definition emit_bind {S A B} (m : stm S A) (k : A -> stm S B) : stm S B :=
  fun st => do (a, st') <- m st; k a st'.
Definition emit_abort {S A} : stm S A := fun _ => Abort.

(** The emitter threads the rule under construction and [written]. *)
Definition emit (A : Type) : Type := stm (ecs_rule_t * written_t) A.

Notation "'let*' x := m 'in' k" := (emit_bind m (fun x => k))
  (at level 10, x name, m at level 100, k at level 200).
Notation "m ;;; k" := (emit_bind m (fun _ => k))
  (at level 100, k at level 200, right associativity).

Definition get_rule : emit ecs_rule_t := fun st => Done (fst st, st).
Definition modify_rule (f : ecs_rule_t -> ecs_rule_t) : emit unit :=
  fun st => Done (tt, (f (fst st), snd st)).
Definition is_written (id : Z) : emit bool :=
  fun st => do b <- written_get (snd st) id; Done (b, st).
Definition mark_written (id : Z) : emit unit :=
  fun st => do w <- written_set (snd st) id; Done (tt, (fst st, w)).
(** [ecs_assert(b, ...)] *)
Definition emit_assert {S} (b : bool) : stm S unit :=
  if b then emit_ret tt else emit_abort.

(** Dereference of a pointer that may be NULL, or of an array element
    that may lie outside the array. *)
Definition deref {S A} (p : option A) : stm S A :=
  match p with Some a => emit_ret a | None => emit_abort end.

(** [var->id] for a pointer into the variable array. *)
Definition var_id_of (var : nat) : emit Z :=
  let* rule := get_rule in emit_ret (id_at rule var).

Definition op_zero : ecs_rule_op_t :=
  mk_op EcsRuleInput pair_zero 0 0 0 0 0 0 0 false false.

Definition set_op_kind k o :=
  mk_op k (op_filter o) (op_subject o) (on_pass o) (on_fail o) (op_frame o)
        (op_term o) (r_in o) (r_out o) (has_in o) (has_out o).
Definition set_op_filter f o :=
  mk_op (op_kind o) f (op_subject o) (on_pass o) (on_fail o) (op_frame o)
        (op_term o) (r_in o) (r_out o) (has_in o) (has_out o).
Definition set_op_subject e o :=
  mk_op (op_kind o) (op_filter o) e (on_pass o) (on_fail o) (op_frame o)
        (op_term o) (r_in o) (r_out o) (has_in o) (has_out o).
Definition set_on_pass l o :=
  mk_op (op_kind o) (op_filter o) (op_subject o) l (on_fail o) (op_frame o)
        (op_term o) (r_in o) (r_out o) (has_in o) (has_out o).
Definition set_on_fail l o :=
  mk_op (op_kind o) (op_filter o) (op_subject o) (on_pass o) l (op_frame o)
        (op_term o) (r_in o) (r_out o) (has_in o) (has_out o).
Definition set_op_frame f o :=
  mk_op (op_kind o) (op_filter o) (op_subject o) (on_pass o) (on_fail o) f
        (op_term o) (r_in o) (r_out o) (has_in o) (has_out o).
Definition set_op_term t o :=
  mk_op (op_kind o) (op_filter o) (op_subject o) (on_pass o) (on_fail o)
        (op_frame o) t (r_in o) (r_out o) (has_in o) (has_out o).
Definition set_r_in r o :=
  mk_op (op_kind o) (op_filter o) (op_subject o) (on_pass o) (on_fail o)
        (op_frame o) (op_term o) r (r_out o) (has_in o) (has_out o).
Definition set_r_out r o :=
  mk_op (op_kind o) (op_filter o) (op_subject o) (on_pass o) (on_fail o)
        (op_frame o) (op_term o) (r_in o) r (has_in o) (has_out o).
Definition set_has_in b o :=
  mk_op (op_kind o) (op_filter o) (op_subject o) (on_pass o) (on_fail o)
        (op_frame o) (op_term o) (r_in o) (r_out o) b (has_out o).
Definition set_has_out b o :=
  mk_op (op_kind o) (op_filter o) (op_subject o) (on_pass o) (on_fail o)
        (op_frame o) (op_term o) (r_in o) (r_out o) (has_in o) b.

Definition set_pair_pred v p :=
  mk_pair v (pair_obj_v p) (reg_mask p) (transitive p) (final p)
          (inclusive p) (obj_0 p).
Definition set_pair_obj v p :=
  mk_pair (pair_pred_v p) v (reg_mask p) (transitive p) (final p)
          (inclusive p) (obj_0 p).
Definition set_reg_mask m p :=
  mk_pair (pair_pred_v p) (pair_obj_v p) m (transitive p) (final p)
          (inclusive p) (obj_0 p).
Definition set_transitive b p :=
  mk_pair (pair_pred_v p) (pair_obj_v p) (reg_mask p) b (final p)
          (inclusive p) (obj_0 p).
Definition set_final b p :=
  mk_pair (pair_pred_v p) (pair_obj_v p) (reg_mask p) (transitive p) b
          (inclusive p) (obj_0 p).
Definition set_inclusive b p :=
  mk_pair (pair_pred_v p) (pair_obj_v p) (reg_mask p) (transitive p)
          (final p) b (obj_0 p).
Definition set_obj_0 b p :=
  mk_pair (pair_pred_v p) (pair_obj_v p) (reg_mask p) (transitive p)
          (final p) (inclusive p) b.

Definition has_pred_reg (p : ecs_rule_pair_t) : bool :=
  negb (Z.land (reg_mask p) RULE_PAIR_PREDICATE =? 0).
Definition has_obj_reg (p : ecs_rule_pair_t) : bool :=
  negb (Z.land (reg_mask p) RULE_PAIR_OBJECT =? 0).

(** [op->field = value] for the operation at index [op]. *)
Definition update_op (op : nat) (f : ecs_rule_op_t -> ecs_rule_op_t)
    : emit unit :=
  modify_rule (fun rule => set_operations (alter f op (operations rule)) rule).

Definition get_op (op : nat) : emit ecs_rule_op_t :=
  let* rule := get_rule in deref (operations rule !! op).

Definition create_operation : emit nat :=
  let* rule := get_rule in
  let cur := length (operations rule) in
  modify_rule (set_operations (operations rule ++ [op_zero])) ;;;
  emit_ret cur.

Definition push_frame : emit Z :=
  let* rule := get_rule in
  modify_rule (set_frame_count (frame_count rule + 1)) ;;;
  emit_ret (frame_count rule).

Definition emit_create_variable (kind : ecs_rule_var_kind_t)
    (name : option string) : emit nat :=
  fun st =>
    let '(rule, var) := create_variable (fst st) kind name in
    Done (var, (rule, snd st)).

Definition pair_pred (pair : ecs_rule_pair_t) : option nat :=
  if has_pred_reg pair then Some (Z.to_nat (pair_pred_v pair)) else None.
Definition pair_obj (pair : ecs_rule_pair_t) : option nat :=
  if has_obj_reg pair then Some (Z.to_nat (pair_obj_v pair)) else None.

Definition to_entity (rule : ecs_rule_t) (var : option nat) : option nat :=
  match var with
  | None => None
  | Some v =>
      if kind_eqb (kind_at rule v) EcsRuleVarKindTable
      then find_variable rule EcsRuleVarKindEntity (name_at rule v)
      else Some v
  end.

Section Emitter.
Context {api : flecs_api} (world : ecs_world_t).

(** [is_known]: a NULL variable counts as known. *)
Definition is_known (var : option nat) : emit bool :=
  match var with
  | None => emit_ret true
  | Some v => let* id := var_id_of v in is_written id
  end.

Definition is_pair_known (pair : ecs_rule_pair_t) : emit bool :=
  let* pk := is_known (pair_pred pair) in
  if negb pk then emit_ret false else
  let* ok := is_known (pair_obj pair) in
  if negb ok then emit_ret false else emit_ret true.

(** The Each operation that [most_specific_var] inserts.  The operation
    comes from [create_operation], so its [term] stays 0. *)
Definition insert_each_for (tvar evar : nat) : emit unit :=
  let* op := create_operation in
  let* rule := get_rule in
  update_op op (fun o =>
    set_r_out (id_at rule evar) (set_r_in (id_at rule tvar)
    (set_has_out true (set_has_in true
    (set_op_frame (frame_count rule)
    (set_on_fail (operation_count rule - 2)
    (set_on_pass (operation_count rule)
    (set_op_kind EcsRuleEach o)))))))) ;;;
  mark_written (id_at rule evar) ;;;
  let* _f := push_frame in
  emit_ret tt.

Definition most_specific_var (var : option nat) (create : bool)
    : emit (option nat) :=
  match var with
  | None => emit_ret None
  | Some v =>
      let* rule := get_rule in
      match to_entity rule (Some v) with
      | None => emit_ret (Some v)
      | Some evar =>
          let tvar :=
            if kind_eqb (kind_at rule v) EcsRuleVarKindTable then Some v
            else find_variable rule EcsRuleVarKindTable (name_at rule v) in
          let* tvar_written :=
            match tvar with
            | Some t => is_written (id_at rule t)
            | None => emit_ret false
            end in
          if tvar_written then
            let* evar_written := is_written (id_at rule evar) in
            if evar_written then emit_ret (Some evar)
            else if create then
              match tvar with
              | Some t => insert_each_for t evar ;;; emit_ret (Some evar)
              | None => emit_abort
              end
            else emit_ret tvar
          else
            let* evar_written := is_written (id_at rule evar) in
            if evar_written then emit_ret (Some evar)
            else emit_ret (Some v)
      end
  end.

Definition get_most_specific_var (var : option nat) : emit (option nat) :=
  most_specific_var var false.

Definition ensure_most_specific_var (var : option nat)
    : emit (option nat) :=
  most_specific_var var true.

Definition ensure_entity_written (var : option nat) : emit (option nat) :=
  match var with
  | None => emit_ret None
  | Some _ =>
      let* evar := ensure_most_specific_var var in
      let* e := deref evar in
      let* rule := get_rule in
      emit_assert (kind_eqb (kind_at rule e) EcsRuleVarKindEntity) ;;;
      let* w := is_written (id_at rule e) in
      emit_assert w ;;;
      emit_ret evar
  end.

(** [term_to_pair] *)
Definition term_to_pair (term : ecs_term_t) : emit ecs_rule_pair_t :=
  let* rule := get_rule in
  emit_assert (subj_is_set term) ;;;
  let result := pair_zero in
  let* result :=
    if term_id_is_variable (term_pred_id term) then
      let* var := deref (find_variable rule EcsRuleVarKindEntity
                           (term_id_var_name (term_pred_id term))) in
      emit_assert (kind_eqb (kind_at rule var) EcsRuleVarKindEntity) ;;;
      emit_ret
        (set_final true
           (set_reg_mask (Z.lor (reg_mask result) RULE_PAIR_PREDICATE)
              (set_pair_pred (id_at rule var) result)))
    else
      let pred_id := tid_entity (term_pred_id term) in
      let result := set_pair_pred pred_id result in
      let result :=
        if ecs_has_id world pred_id EcsTransitive
        then (if obj_is_set term then set_transitive true result
              else result)
        else result in
      let result :=
        if ecs_has_id world pred_id EcsFinal
        then set_final true result else result in
      let result :=
        if ecs_has_id world pred_id EcsTransitiveSelf
        then set_inclusive true result else result in
      emit_ret result in
  if negb (obj_is_set term) then emit_ret result else
  if term_id_is_variable (term_obj_id term) then
    let* var := deref (find_variable rule EcsRuleVarKindEntity
                         (term_id_var_name (term_obj_id term))) in
    emit_assert (kind_eqb (kind_at rule var) EcsRuleVarKindEntity) ;;;
    emit_ret
      (set_reg_mask (Z.lor (reg_mask result) RULE_PAIR_OBJECT)
         (set_pair_obj (id_at rule var) result))
  else
    let result := set_pair_obj (tid_entity (term_obj_id term)) result in
    emit_ret (if pair_obj_v result =? 0 then set_obj_0 true result
              else result).

(** Replace a register position of a pair by the most specific known
    variable (the two blocks at the top of [insert_operation]). *)
Definition specialize_reg (reg : Z) : emit Z :=
  let* var := get_most_specific_var (Some (Z.to_nat reg)) in
  let* v := deref var in
  var_id_of v.

Definition insert_operation (term_index : Z) : emit nat :=
  let* pair :=
    if negb (term_index =? -1) then
      let* rule := get_rule in
      let* term := deref (filter_terms rule !! Z.to_nat term_index) in
      let* pair := term_to_pair term in
      let* pair :=
        if has_pred_reg pair then
          let* id := specialize_reg (pair_pred_v pair) in
          emit_ret (set_pair_pred id pair)
        else emit_ret pair in
      if has_obj_reg pair then
        let* id := specialize_reg (pair_obj_v pair) in
        emit_ret (set_pair_obj id pair)
      else emit_ret pair
    else emit_ret pair_zero in
  let* op := create_operation in
  let* rule := get_rule in
  update_op op (fun o =>
    set_op_term term_index (set_op_filter pair
    (set_op_frame (frame_count rule)
    (set_on_fail (operation_count rule - 2)
    (set_on_pass (operation_count rule) o))))) ;;;
  emit_ret op.

Definition insert_input : emit unit :=
  let* op := create_operation in
  update_op op (fun o =>
    set_on_fail (-1) (set_on_pass 1 (set_op_kind EcsRuleInput o))) ;;;
  let* _f := push_frame in
  emit_ret tt.

Definition insert_yield : emit unit :=
  let* op := create_operation in
  let* rule := get_rule in
  let var :=
    match find_variable rule EcsRuleVarKindEntity "." with
    | Some v => Some v
    | None => find_variable rule EcsRuleVarKindTable "."
    end in
  let r := match var with
           | None => UINT8_MAX
           | Some v => id_at rule v
           end in
  update_op op (fun o =>
    set_r_in r (set_on_fail (operation_count rule - 2)
    (set_has_in true (set_op_kind EcsRuleYield o)))) ;;;
  let* f := push_frame in
  update_op op (set_op_frame f).

(** The filter of a Store, SubSet or SuperSet operation: predicate and
    object of [pair], as registers where [pair] has registers. *)
Definition set_filter_from (rule : ecs_rule_t) (pair : ecs_rule_pair_t)
    (f : ecs_rule_pair_t) : ecs_rule_pair_t :=
  let f :=
    match pair_pred pair with
    | None => set_pair_pred (pair_pred_v pair) f
    | Some pred =>
        set_reg_mask (Z.lor (reg_mask f) RULE_PAIR_PREDICATE)
          (set_pair_pred (id_at rule pred) f)
    end in
  match pair_obj pair with
  | None => set_pair_obj (pair_obj_v pair) f
  | Some obj =>
      set_reg_mask (Z.lor (reg_mask f) RULE_PAIR_OBJECT)
        (set_pair_obj (id_at rule obj) f)
  end.

Definition is_superset (k : ecs_rule_op_kind_t) : bool :=
  match k with EcsRuleSuperSet => true | _ => false end.

(** [insert_inclusive_set] *)
Definition insert_inclusive_set (op_kind : ecs_rule_op_kind_t)
    (out : option nat) (pair : ecs_rule_pair_t) (c : Z)
    (incl : bool) : emit unit :=
  let* out := deref out in
  let* rule0 := get_rule in
  emit_assert (negb (is_superset op_kind)
               || kind_eqb (kind_at rule0 out) EcsRuleVarKindEntity) ;;;
  let setjmp_lbl := operation_count rule0 in
  let store_lbl := setjmp_lbl + 1 in
  let set_lbl := if incl then setjmp_lbl + 2 else setjmp_lbl in
  let next_op := if incl then setjmp_lbl + 4 else set_lbl + 1 in
  let prev_op := if incl then setjmp_lbl - 1 else set_lbl - 1 in
  (if incl then
     let* _a := insert_operation (-1) in
     let* _b := insert_operation (-1) in
     let* _c := insert_operation (-1) in
     emit_ret tt
   else emit_ret tt) ;;;
  let* op := insert_operation (-1) in
  let setjmp := (op - 3)%nat in
  let store := (op - 2)%nat in
  let set := if incl then (op - 1)%nat else op in
  let jump := op in
  let* rule := get_rule in
  let out_id := id_at rule out in
  (if incl then
     update_op setjmp (fun o =>
       set_on_fail set_lbl (set_on_pass store_lbl
       (set_op_kind EcsRuleSetJmp o))) ;;;
     update_op store (fun o =>
       let o := set_op_term c (set_r_out out_id
                (set_has_out true (set_has_in true
                (set_on_fail setjmp_lbl (set_on_pass next_op
                (set_op_kind EcsRuleStore o)))))) in
       let o :=
         match pair_pred pair with
         | None => set_op_filter (set_pair_pred (pair_pred_v pair)
                                    (op_filter o)) o
         | Some pred =>
             set_op_filter
               (set_reg_mask
                  (Z.lor (reg_mask (op_filter o)) RULE_PAIR_PREDICATE)
                  (set_pair_pred (id_at rule pred) (op_filter o))) o
         end in
       match pair_obj pair with
       | None =>
           set_op_filter (set_pair_obj (pair_obj_v pair) (op_filter o))
             (set_op_subject (ecs_get_alive world (pair_obj_v pair))
                (set_r_in UINT8_MAX o))
       | Some obj =>
           set_op_filter
             (set_reg_mask
                (Z.lor (reg_mask (op_filter o)) RULE_PAIR_OBJECT)
                (set_pair_obj (id_at rule obj) (op_filter o)))
             (set_r_in (id_at rule obj) o)
       end)
   else emit_ret tt) ;;;
  update_op set (fun o =>
    let o := set_op_term c (set_r_out out_id (set_has_out true
             (set_on_fail prev_op (set_on_pass next_op
             (set_op_kind op_kind o))))) in
    set_op_filter (set_filter_from rule pair (op_filter o)) o) ;;;
  (if incl then
     update_op jump (fun o =>
       set_on_fail (-1) (set_on_pass setjmp_lbl
       (set_op_kind EcsRuleJump o)))
   else emit_ret tt) ;;;
  mark_written out_id.

(** [store_inclusive_set]; also returns [*pair] as the function leaves
    it. *)
Definition store_inclusive_set (op_kind : ecs_rule_op_kind_t)
    (pair : ecs_rule_pair_t) (incl : bool)
    : emit (option nat * ecs_rule_pair_t) :=
  let var_kind := if is_superset op_kind then EcsRuleVarKindEntity
                  else EcsRuleVarKindTable in
  let* av := emit_create_variable var_kind None in
  let* av :=
    if kind_eqb var_kind EcsRuleVarKindTable then
      let* rule := get_rule in
      let* ave := emit_create_variable EcsRuleVarKindEntity
                    (Some (name_at rule av)) in
      let* ave_id := var_id_of ave in
      emit_ret (Z.to_nat (ave_id - 1))
    else emit_ret av in
  let* rule := get_rule in
  let pair :=
    match pair_obj pair with
    | Some obj => set_pair_obj (id_at rule obj) pair
    | None => pair
    end in
  insert_inclusive_set op_kind (Some av) pair (-1) incl ;;;
  let* e := ensure_entity_written (Some av) in
  emit_ret (e, pair).

Definition set_input_to_subj (op : nat) (term : ecs_term_t)
    (var : option nat) : emit unit :=
  update_op op (set_has_in true) ;;;
  match var with
  | None =>
      update_op op (fun o =>
        set_op_subject (tid_entity (term_subj_id term))
          (set_r_in UINT8_MAX o)) ;;;
      emit_assert (ecs_is_valid world (tid_entity (term_subj_id term)))
  | Some v =>
      let* id := var_id_of v in
      update_op op (set_r_in id)
  end.

Definition set_output_to_subj (op : nat) (term : ecs_term_t)
    (var : option nat) : emit unit :=
  update_op op (set_has_out true) ;;;
  match var with
  | None =>
      update_op op (fun o =>
        set_op_subject (tid_entity (term_subj_id term))
          (set_r_out UINT8_MAX o)) ;;;
      emit_assert (ecs_is_valid world (tid_entity (term_subj_id term)))
  | Some v =>
      let* id := var_id_of v in
      update_op op (set_r_out id)
  end.
End Emitter.

Section EmitTerms.
Context {api : flecs_api} (world : ecs_world_t).

Definition is_table_var (rule : ecs_rule_t) (var : option nat) : bool :=
  match var with
  | Some v => kind_eqb (kind_at rule v) EcsRuleVarKindTable
  | None => false
  end.

Definition is_entity_var (rule : ecs_rule_t) (var : option nat) : bool :=
  match var with
  | Some v => kind_eqb (kind_at rule v) EcsRuleVarKindEntity
  | None => false
  end.

(** [var && is_known(var, written)] *)
Definition known_var (var : option nat) : emit bool :=
  match var with
  | None => emit_ret false
  | Some _ => is_known var
  end.

(** [insert_select_or_with]; [pair] is [None] for a NULL pair. *)
Definition insert_select_or_with (c : Z) (term : ecs_term_t)
    (subj : option nat) (pair : option ecs_rule_pair_t) : emit unit :=
  let* rule := get_rule in
  let wildcard_subj := tid_entity (term_subj_id term) =? EcsWildcard in
  let evar := to_entity rule subj in
  let tvar := if is_table_var rule subj then subj else None in
  let var := if is_table_var rule subj && is_null evar then tvar
             else evar in
  let lbl_start := operation_count rule in
  let* filter :=
    match pair with
    | Some p => emit_ret p
    | None => term_to_pair world term
    end in
  let* subst :=
    if is_null var && negb wildcard_subj
       && (negb (transitive filter)
           || negb (pair_pred_v filter =? EcsIsA))
    then
      let isa_pair :=
        set_pair_obj (tid_entity (term_subj_id term))
          (set_pair_pred EcsIsA pair_zero) in
      let* r := store_inclusive_set world EcsRuleSuperSet isa_pair true in
      emit_ret (fst r, fst r, @None nat, true)
    else emit_ret (evar, subj, tvar, false) in
  let '(evar, subj, tvar, eval_subject_supersets) := subst in
  let* op :=
    match pair with
    | None => insert_operation world c
    | Some p =>
        let* op := insert_operation world (-1) in
        update_op op (fun o => set_op_term c (set_op_filter p o)) ;;;
        emit_ret op
    end in
  let* evar_known := known_var evar in
  let* tvar_known :=
    if evar_known then emit_ret false else known_var tvar in
  (if evar_known then
     let* e := deref evar in
     let* id := var_id_of e in
     update_op op (fun o => set_r_in id (set_op_kind EcsRuleWith o)) ;;;
     set_input_to_subj world op term subj
   else if tvar_known then
     let* t := deref tvar in
     let* id := var_id_of t in
     update_op op (fun o => set_r_in id (set_op_kind EcsRuleWith o)) ;;;
     set_input_to_subj world op term subj
   else if is_null tvar && is_null evar && negb wildcard_subj then
     update_op op (set_op_kind EcsRuleWith) ;;;
     set_input_to_subj world op term subj
   else
     emit_assert (wildcard_subj || negb (is_null subj)) ;;;
     update_op op (set_op_kind EcsRuleSelect) ;;;
     if negb wildcard_subj then
       set_output_to_subj world op term subj ;;;
       let* s := deref subj in
       let* id := var_id_of s in
       mark_written id
     else emit_ret tt) ;;;
  let* o := get_op op in
  let* pair_known :=
    if eval_subject_supersets then is_pair_known (op_filter o)
    else emit_ret false in
  let* op :=
    if eval_subject_supersets && pair_known then
      let* op := insert_operation world (-1) in
      let* rule := get_rule in
      update_op op (fun o =>
        set_on_fail (lbl_start - 1) (set_on_pass (operation_count rule)
        (set_op_kind EcsRuleSetJmp o))) ;;;
      emit_ret op
    else emit_ret op in
  let* o := get_op op in
  (if has_pred_reg (op_filter o)
   then mark_written (pair_pred_v (op_filter o)) else emit_ret tt) ;;;
  if has_obj_reg (op_filter o)
  then mark_written (pair_obj_v (op_filter o)) else emit_ret tt.

(** [prepare_predicate]; returns [*pair] as the function leaves it. *)
Definition prepare_predicate (pair : ecs_rule_pair_t)
    : emit ecs_rule_pair_t :=
  if negb (final pair) then
    let isa_pair :=
      set_pair_obj (pair_pred_v pair) (set_pair_pred EcsIsA pair_zero) in
    let* r := store_inclusive_set world EcsRuleSubSet isa_pair true in
    let* pred := deref (fst r) in
    let* id := var_id_of pred in
    emit_ret (set_reg_mask (Z.lor (reg_mask pair) RULE_PAIR_PREDICATE)
                (set_pair_pred id pair))
  else emit_ret pair.

(** [set_pair.reg_mask &= RULE_PAIR_PREDICATE], then the object taken
    from a variable or from a literal. *)
Definition pair_with_object (rule : ecs_rule_t) (filter : ecs_rule_pair_t)
    (var : option nat) (literal : Z) : ecs_rule_pair_t :=
  let set_pair :=
    set_reg_mask (Z.land (reg_mask filter) RULE_PAIR_PREDICATE) filter in
  match var with
  | Some v =>
      set_reg_mask (Z.lor (reg_mask set_pair) RULE_PAIR_OBJECT)
        (set_pair_obj (id_at rule v) set_pair)
  | None => set_pair_obj literal set_pair
  end.

(** [insert_term_2] *)
Definition insert_term_2 (term : ecs_term_t) (filter : ecs_rule_pair_t)
    (c : Z) : emit unit :=
  let* rule := get_rule in
  let* subj := get_most_specific_var (term_subj rule term) in
  let subj_id := match subj with Some s => id_at rule s | None => -1 end in
  let* obj := get_most_specific_var (term_obj rule term) in
  let obj_id := match obj with Some o => id_at rule o | None => -1 end in
  if negb (transitive filter) then
    insert_select_or_with c term subj (Some filter)
  else
    let* subj_known := is_known subj in
    let* obj_known := is_known obj in
    if subj_known then
      if obj_known then
        let* r := store_inclusive_set world EcsRuleSubSet filter true in
        let '(obj_subsets, filter) := r in
        let subj := match subj with
                    | Some _ => Some (Z.to_nat subj_id)
                    | None => None
                    end in
        let* os := deref obj_subsets in
        let* os_id := var_id_of os in
        let pair :=
          set_reg_mask (Z.lor (reg_mask filter) RULE_PAIR_OBJECT)
            (set_pair_obj os_id filter) in
        insert_select_or_with c term subj (Some pair)
      else
        emit_assert (negb (is_null obj)) ;;;
        if is_null subj || is_entity_var rule subj then
          let obj := to_entity rule obj in
          let set_pair :=
            pair_with_object rule filter subj
              (tid_entity (term_subj_id term)) in
          insert_inclusive_set world EcsRuleSuperSet obj set_pair c
            (inclusive filter)
        else
          let* av := emit_create_variable EcsRuleVarKindEntity None in
          let* rule := get_rule in
          let subj := Some (Z.to_nat subj_id) in
          let obj := to_entity rule (Some (Z.to_nat obj_id)) in
          let set_pair :=
            set_reg_mask (Z.lor (reg_mask filter) RULE_PAIR_OBJECT)
              (set_pair_obj (id_at rule av) filter) in
          insert_select_or_with c term subj (Some set_pair) ;;;
          let* _f := push_frame in
          insert_inclusive_set world EcsRuleSuperSet obj set_pair c true
    else
      emit_assert (negb (is_null subj)) ;;;
      if obj_known then
        let set_pair :=
          pair_with_object rule filter obj
            (tid_entity (term_obj_id term)) in
        insert_inclusive_set world EcsRuleSubSet subj set_pair c
          (inclusive filter)
      else if ptr_eqb subj obj then
        insert_select_or_with c term subj (Some filter)
      else
        emit_assert (negb (is_null obj)) ;;;
        let* av := emit_create_variable EcsRuleVarKindEntity None in
        let* rule := get_rule in
        let subj := Some (Z.to_nat subj_id) in
        let obj := to_entity rule (Some (Z.to_nat obj_id)) in
        let* op := insert_operation world (-1) in
        update_op op (set_op_kind EcsRuleSelect) ;;;
        set_output_to_subj world op term subj ;;;
        update_op op (fun o =>
          set_op_filter
            (set_reg_mask (Z.lor (reg_mask filter) RULE_PAIR_OBJECT)
               (set_pair_obj (id_at rule av)
                  (set_pair_pred (pair_pred_v filter) (op_filter o)))) o) ;;;
        mark_written (id_at rule (Z.to_nat subj_id)) ;;;
        mark_written (id_at rule av) ;;;
        let* _f := push_frame in
        let* o := get_op op in
        insert_inclusive_set world EcsRuleSuperSet obj (op_filter o) c true.

Definition insert_term_1 (term : ecs_term_t) (filter : ecs_rule_pair_t)
    (c : Z) : emit unit :=
  let* rule := get_rule in
  let* subj := get_most_specific_var (term_subj rule term) in
  insert_select_or_with c term subj (Some filter).

(** The loop of [insert_term] that looks for the exit instruction of an
    optional term, over the operations [prev .. operation_count - 1]. *)
Definition find_exit_op (ops : list ecs_rule_op_t) (prev : Z) : Z :=
  snd (fold_left (fun '(i, (min_fail, exit_op)) op =>
         if (min_fail =? -1)
            || ((0 <=? on_fail op) && (on_fail op <? min_fail))
         then (i + 1, (on_fail op, i))
         else (i + 1, (min_fail, exit_op)))
       (drop (Z.to_nat prev) ops) (prev, (-1, -1))).2.

(** [insert_term] *)
Definition insert_term (term : ecs_term_t) (c : Z) : emit unit :=
  let obj_set := obj_is_set term in
  let* rule := get_rule in
  let* _p := ensure_most_specific_var (term_pred rule term) in
  (if obj_set then
     let* rule := get_rule in
     let* _o := ensure_most_specific_var (term_obj rule term) in
     emit_ret tt
   else emit_ret tt) ;;;
  let* rule := get_rule in
  let prev := operation_count rule in
  (if is_not (term_oper term) then
     let* not_pre := insert_operation world (-1) in
     update_op not_pre (fun o =>
       set_has_out false (set_has_in false (set_op_kind EcsRuleNot o)))
   else emit_ret tt) ;;;
  let* filter := term_to_pair world term in
  let* filter := prepare_predicate filter in
  (if subj_is_set term && negb obj_set then insert_term_1 term filter c
   else if obj_set then insert_term_2 term filter c
   else emit_ret tt) ;;;
  (if is_not (term_oper term) then
     let* not_post := insert_operation world (-1) in
     update_op not_post (fun o =>
       set_on_fail (prev - 1) (set_on_pass (prev - 1)
       (set_has_out false (set_has_in false
       (set_op_kind EcsRuleNot o))))) ;;;
     let* rule := get_rule in
     update_op (Z.to_nat prev) (set_on_fail (operation_count rule))
   else emit_ret tt) ;;;
  (if is_optional (term_oper term) then
     let* jump := insert_operation world (-1) in
     let* rule := get_rule in
     update_op jump (fun o =>
       set_on_fail (prev - 1) (set_on_pass (operation_count rule)
       (set_has_out false (set_has_in false
       (set_op_kind EcsRuleNot o))))) ;;;
     let* rule := get_rule in
     let exit_op := find_exit_op (operations rule) prev in
     emit_assert (negb (exit_op =? -1)) ;;;
     update_op (Z.to_nat exit_op) (set_on_fail (operation_count rule - 1))
   else emit_ret tt) ;;;
  let* _f := push_frame in
  emit_ret tt.
End EmitTerms.

Section CompileProgram.
Context {api : flecs_api} (world : ecs_world_t).

(** A loop [for (c = 0; c < term_count; c ++)] of [compile_program]
    that inserts the terms selected by [pick]. *)
Definition insert_terms_where (pick : ecs_rule_t -> ecs_term_t -> bool)
    : emit unit :=
  let* rule := get_rule in
  fold_left (fun acc '(c, term) =>
    acc ;;;
    let* rule := get_rule in
    if pick rule term then insert_term world term (Z.of_nat c)
    else emit_ret tt)
    (imap (fun c term => (c, term)) (filter_terms rule)) (emit_ret tt).

(** "Verify all subject variables have been written" and "Make sure that
    all entity variables are written": the two loops over [v]. *)
Definition check_subject_written (v : nat) : emit unit :=
  let* w := is_written (Z.of_nat v) in
  if w then emit_ret tt else
  let* rule := get_rule in
  let* var := deref (find_variable rule EcsRuleVarKindEntity
                       (name_at rule v)) in
  let* ew := is_written (id_at rule var) in
  emit_assert ew.

Definition ensure_entity_each (v : nat) : emit unit :=
  let* w := is_written (Z.of_nat v) in
  if w then emit_ret tt else
  let* rule := get_rule in
  emit_assert (kind_eqb (kind_at rule v) EcsRuleVarKindEntity) ;;;
  let* table_var := deref (find_variable rule EcsRuleVarKindTable
                             (name_at rule v)) in
  let* op := insert_operation world (-1) in
  let* rule := get_rule in
  update_op op (fun o =>
    set_has_out true (set_has_in true
    (set_op_frame (frame_count rule)
    (set_r_out (id_at rule v) (set_r_in (id_at rule table_var)
    (set_op_kind EcsRuleEach o)))))) ;;;
  mark_written (id_at rule v) ;;;
  let* _f := push_frame in
  emit_ret tt.

(** A loop [for (; v < bound; v ++)] whose bound is read again before
    every iteration. *)
Fixpoint for_variables (fuel : nat) (v : nat)
    (bound : ecs_rule_t -> Z) (body : nat -> emit unit) : emit unit :=
  match fuel with
  | O => fun _ => Stuck
  | S fuel' =>
      let* rule := get_rule in
      if Z.of_nat v <? bound rule
      then body v ;;; for_variables fuel' (S v) bound body
      else emit_ret tt
  end.

(** [compile_program] *)
Definition compile_program : emit unit :=
  insert_input ;;;
  (* terms with a literal subject *)
  insert_terms_where (fun rule term =>
    negb (skip_term term) && negb (is_optional (term_oper term))
    && is_null (term_subj rule term)
    && negb (tid_entity (term_subj_id term) =? EcsWildcard)) ;;;
  (* terms by subject variable, in dependency order *)
  let* rule := get_rule in
  for_variables (S (Z.to_nat (subject_variable_count rule))) 0
    subject_variable_count
    (fun v =>
       let* rule := get_rule in
       emit_assert (kind_eqb (kind_at rule v) EcsRuleVarKindTable) ;;;
       insert_terms_where (fun rule term =>
         negb (skip_term term) && negb (is_optional (term_oper term))
         && ptr_eqb (term_subj rule term) (Some v))) ;;;
  (* terms with a wildcard subject *)
  insert_terms_where (fun _ term =>
    tid_entity (term_subj_id term) =? EcsWildcard) ;;;
  (* Not terms, then Optional terms *)
  insert_terms_where (fun _ term => is_not (term_oper term)) ;;;
  insert_terms_where (fun _ term => is_optional (term_oper term)) ;;;
  let* rule := get_rule in
  for_variables (S (Z.to_nat (subject_variable_count rule))) 0
    subject_variable_count check_subject_written ;;;
  let* rule := get_rule in
  for_variables (S (length (variables rule)))
    (Z.to_nat (subject_variable_count rule))
    variable_count ensure_entity_each ;;;
  insert_yield.

(** [create_variable_name_array] *)
Definition create_variable_name_array (rule : ecs_rule_t)
    : list (option string) :=
  map (fun var =>
         if kind_eqb (var_kind var) EcsRuleVarKindEntity
         then Some (var_name var) else None)
      (variables rule).

(** "Create lookup array for subject variables" *)
Definition create_subject_variables (rule : ecs_rule_t) : list Z :=
  map (fun term =>
         if term_id_is_variable (term_subj_id term) then
           match find_variable rule EcsRuleVarKindEntity
                   (term_id_var_name (term_subj_id term)) with
           | Some subj => id_at rule subj
           | None => -1
           end
         else -1)
      (filter_terms rule).

(** [ecs_rule_init], from the point where [ecs_filter_init] has
    succeeded and left [terms] in the filter of the new rule.  [Done]
    carries the rule that is returned; [Failed] is the [error] exit,
    which frees the rule and returns NULL. *)
Definition ecs_rule_init (terms : list ecs_term_t)
    : outcome rule_error_t ecs_rule_t :=
  let result := rule_of_terms terms in
  if term_count result =? 0 then Failed ErrNoTerms else
  if forallb (fun term => is_not (term_oper term)) terms
  then Failed ErrOnlyNot else
  do result <- scan_variables result;
  do (_u, st) <-
    lift (compile_program (result, replicate 256 false));
  let result := fst st in
  Done (set_name_arrays (create_variable_name_array result)
          (create_subject_variables result) result).
End CompileProgram.

(** ** A model of the storage layer

    Used to run compiled rules on concrete worlds. *)

(** Modelled from the spec: the storage layer is outside rules.c.
    Section 3: a table is an ordered list of ids (its type) and the vector
    of entities stored in it; an id record maps an id pattern to the
    non-empty tables that carry it, each with the column where the pattern
    first occurs; a wildcard matches any concrete id in its position.
    Section 4.8: entity lookup, id record lookup, table type and entities,
    and trait tests are the only operations consumed. *)
Record table_model := mk_table {
  tm_type : list Z;
  tm_entities : list Z
}.

Section WorldModel.
Context {api : flecs_api}.

(** Modelled from the spec: matching of an id against a pattern that
    may hold wildcards in the relation or object position. *)
Definition id_match_model (id pattern : Z) : bool :=
  if id =? pattern then true
  else if ECS_HAS_ROLE_PAIR pattern then
    if negb (ECS_HAS_ROLE_PAIR id) then false
    else
      let id_rel := ECS_PAIR_RELATION id in
      let id_obj := ECS_PAIR_OBJECT id in
      let pattern_rel := ECS_PAIR_RELATION pattern in
      let pattern_obj := ECS_PAIR_OBJECT pattern in
      if pattern_rel =? EcsWildcard then
        (pattern_obj =? EcsWildcard) || (pattern_obj =? id_obj)
      else if pattern_obj =? EcsWildcard then pattern_rel =? id_rel
      else false
  else
    if negb (Z.land id ECS_ROLE_MASK =? Z.land pattern ECS_ROLE_MASK)
    then false
    else Z.land ECS_COMPONENT_MASK pattern =? EcsWildcard.

Fixpoint index_where {A} (p : A -> bool) (l : list A) (i : nat)
    : option nat :=
  match l with
  | [] => None
  | a :: rest => if p a then Some i else index_where p rest (S i)
  end.

Definition first_column (type : list Z) (pattern : Z) : option Z :=
  match index_where (fun id => id_match_model id pattern) type 0 with
  | Some i => Some (Z.of_nat i)
  | None => None
  end.

Definition model_table (tables : list table_model) (t : table_t)
    : table_model :=
  from_option (fun x => x) (mk_table [] []) (tables !! t).

(** Modelled from the spec: entity to (table, row). *)
Definition model_eis_get (tables : list table_model) (alive : list Z)
    (e : Z) : option (option table_t * Z) :=
  match index_where
          (fun tm => existsb (Z.eqb e) (tm_entities tm)) tables 0 with
  | Some t =>
      match index_where (Z.eqb e) (tm_entities (model_table tables t)) 0
      with
      | Some row => Some (Some t, Z.of_nat row)
      | None => None
      end
  | None => if existsb (Z.eqb e) alive then Some (None, 0) else None
  end.

(** Modelled from the spec: the id record of a pattern. *)
Definition model_id_record (tables : list table_model) (pattern : Z)
    : option ecs_id_record_t :=
  let records :=
    omap (fun '(t, tm) =>
            match tm_entities tm, first_column (tm_type tm) pattern with
            | _ :: _, Some c => Some (mk_table_record (Some t) c)
            | _, _ => None
            end)
         (imap (fun t tm => (t, tm)) tables) in
  match records with
  | [] => None
  | _ => Some records
  end.

(** Modelled from the spec: a world made of [tables]; [alive] lists the
    valid entities. *)
Definition model_world (tables : list table_model) (alive : list Z)
    : ecs_world_t := {|
  ecs_has_id := fun e id =>
    match model_eis_get tables alive e with
    | Some (Some t, _) =>
        existsb (Z.eqb id) (tm_type (model_table tables t))
    | _ => false
    end;
  ecs_is_valid := fun e => negb (e =? 0) && existsb (Z.eqb e) alive;
  ecs_get_alive := fun e =>
    from_option (fun x => x) 0
      (find (fun a => ecs_entity_t_lo a =? ecs_entity_t_lo e) alive);
  ecs_eis_get := model_eis_get tables alive;
  flecs_get_id_record := model_id_record tables;
  flecs_get_table_record := fun t pattern =>
    match first_column (tm_type (model_table tables t)) pattern with
    | Some c => Some (mk_table_record (Some t) c)
    | None => None
    end;
  ecs_id_match := id_match_model;
  table_type := fun t => tm_type (model_table tables t);
  table_entities := fun t => tm_entities (model_table tables t)
|}.
End WorldModel.

(** ** Register frames and iterator state *)

(** [ecs_rule_reg_t] *)
Record ecs_rule_reg_t := mk_reg {
  reg_table : option table_t;
  reg_offset : Z;
  reg_count : Z;
  reg_entity : Z
}.

(** [ecs_rule_filter_t] *)
Record ecs_rule_filter_t := mk_filter {
  mask : Z;
  wildcard : bool;
  pred_wildcard : bool;
  obj_wildcard : bool;
  same_var : bool;
  hi_var : Z;
  lo_var : Z
}.

(** [ecs_rule_with_ctx_t] *)
Record ecs_rule_with_ctx_t := mk_with_ctx {
  idr : option ecs_id_record_t;
  table_index : Z
}.

(** [ecs_rule_subset_frame_t] *)
Record ecs_rule_subset_frame_t := mk_subset_frame {
  sf_with_ctx : ecs_rule_with_ctx_t;
  sf_table : option table_t;
  sf_row : Z;
  sf_column : Z
}.

(** [ecs_rule_superset_frame_t] *)
Record ecs_rule_superset_frame_t := mk_superset_frame {
  pf_table : option table_t;
  pf_column : Z
}.

(** [ecs_rule_op_ctx_t].  The C type is a union; an operation only ever
    uses the member of its own kind, so the members are kept side by
    side.  [stack] always points to [storage], an array of 16 frames. *)
Record ecs_rule_op_ctx_t := mk_op_ctx {
  ctx_with : ecs_rule_with_ctx_t;
  ctx_subset_stack : list ecs_rule_subset_frame_t;
  ctx_subset_sp : Z;
  ctx_superset_stack : list ecs_rule_superset_frame_t;
  ctx_superset_sp : Z;
  ctx_each_row : Z;
  ctx_setjmp_label : Z
}.

Definition with_ctx_zero := mk_with_ctx None 0.
Definition subset_frame_zero := mk_subset_frame with_ctx_zero None 0 0.
Definition superset_frame_zero := mk_superset_frame None 0.

(** An element of the [ecs_os_calloc_n]'ed context array. *)
Definition op_ctx_zero : ecs_rule_op_ctx_t :=
  mk_op_ctx with_ctx_zero (replicate 16 subset_frame_zero) 0
            (replicate 16 superset_frame_zero) 0 0 0.

Definition set_ctx_with w c :=
  mk_op_ctx w (ctx_subset_stack c) (ctx_subset_sp c) (ctx_superset_stack c)
            (ctx_superset_sp c) (ctx_each_row c) (ctx_setjmp_label c).
Definition set_ctx_subset stack sp c :=
  mk_op_ctx (ctx_with c) stack sp (ctx_superset_stack c)
            (ctx_superset_sp c) (ctx_each_row c) (ctx_setjmp_label c).
Definition set_ctx_superset stack sp c :=
  mk_op_ctx (ctx_with c) (ctx_subset_stack c) (ctx_subset_sp c) stack sp
            (ctx_each_row c) (ctx_setjmp_label c).
Definition set_ctx_each_row row c :=
  mk_op_ctx (ctx_with c) (ctx_subset_stack c) (ctx_subset_sp c)
            (ctx_superset_stack c) (ctx_superset_sp c) row
            (ctx_setjmp_label c).
Definition set_ctx_setjmp_label l c :=
  mk_op_ctx (ctx_with c) (ctx_subset_stack c) (ctx_subset_sp c)
            (ctx_superset_stack c) (ctx_superset_sp c) (ctx_each_row c) l.

(** The iterator: the private [ecs_rule_iter_t] ([registers], [columns],
    [op_ctx], [variables], [op], [redo]) and the fields of the public
    [ecs_iter_t] that the rule engine writes.  [registers] and [columns]
    are flat arrays, one frame after the other.  [it_columns] is the
    public [columns] pointer, as the frame it points to. *)
Record ecs_iter_t := mk_iter {
  registers : list ecs_rule_reg_t;
  columns : list Z;
  op_ctx : list ecs_rule_op_ctx_t;
  it_variables : list Z;
  it_op : Z;
  it_redo : bool;
  it_ids : list Z;
  it_subjects : option (list Z);
  it_columns : Z;
  it_table : option table_t;
  it_offset : Z;
  it_count : Z
}.

Definition set_registers v it :=
  mk_iter v (columns it) (op_ctx it) (it_variables it) (it_op it)
    (it_redo it) (it_ids it) (it_subjects it) (it_columns it) (it_table it)
    (it_offset it) (it_count it).
Definition set_columns v it :=
  mk_iter (registers it) v (op_ctx it) (it_variables it) (it_op it)
    (it_redo it) (it_ids it) (it_subjects it) (it_columns it) (it_table it)
    (it_offset it) (it_count it).
Definition set_op_ctx v it :=
  mk_iter (registers it) (columns it) v (it_variables it) (it_op it)
    (it_redo it) (it_ids it) (it_subjects it) (it_columns it) (it_table it)
    (it_offset it) (it_count it).
Definition set_it_variables v it :=
  mk_iter (registers it) (columns it) (op_ctx it) v (it_op it)
    (it_redo it) (it_ids it) (it_subjects it) (it_columns it) (it_table it)
    (it_offset it) (it_count it).
Definition set_it_op v it :=
  mk_iter (registers it) (columns it) (op_ctx it) (it_variables it) v
    (it_redo it) (it_ids it) (it_subjects it) (it_columns it) (it_table it)
    (it_offset it) (it_count it).
Definition set_it_redo v it :=
  mk_iter (registers it) (columns it) (op_ctx it) (it_variables it)
    (it_op it) v (it_ids it) (it_subjects it) (it_columns it) (it_table it)
    (it_offset it) (it_count it).
Definition set_it_ids v it :=
  mk_iter (registers it) (columns it) (op_ctx it) (it_variables it)
    (it_op it) (it_redo it) v (it_subjects it) (it_columns it) (it_table it)
    (it_offset it) (it_count it).
Definition set_it_subjects v it :=
  mk_iter (registers it) (columns it) (op_ctx it) (it_variables it)
    (it_op it) (it_redo it) (it_ids it) v (it_columns it) (it_table it)
    (it_offset it) (it_count it).
Definition set_it_columns v it :=
  mk_iter (registers it) (columns it) (op_ctx it) (it_variables it)
    (it_op it) (it_redo it) (it_ids it) (it_subjects it) v (it_table it)
    (it_offset it) (it_count it).
Definition set_it_data table offset count it :=
  mk_iter (registers it) (columns it) (op_ctx it) (it_variables it)
    (it_op it) (it_redo it) (it_ids it) (it_subjects it) (it_columns it)
    table offset count.

(** Array access with an [int32_t] index. *)
Definition zlookup {A} (l : list A) (i : Z) : option A :=
  if i <? 0 then None else l !! Z.to_nat i.

Definition zinsert {A} (i : Z) (a : A) (l : list A) : option (list A) :=
  if (0 <=? i) && (i <? Z.of_nat (length l))
  then Some (<[Z.to_nat i := a]> l) else None.

(** Interpreter computations thread the iterator. *)
Definition vm (A : Type) : Type := stm ecs_iter_t A.

Definition get_it : vm ecs_iter_t := fun it => Done (it, it).
Definition modify_it (f : ecs_iter_t -> ecs_iter_t) : vm unit :=
  fun it => Done (tt, f it).

(** The contents of memory obtained from [ecs_os_malloc_n], which the
    allocator does not initialise. *)
Record malloc_t := mk_malloc {
  junk_reg : nat -> ecs_rule_reg_t;
  junk_col : nat -> Z;
  junk_var : nat -> Z
}.

Section Registers.
Context {api : flecs_api} (world : ecs_world_t) (rule : ecs_rule_t).

(** [regs[r]] where [regs = get_register_frame(it, frame)]. *)
Definition reg_index (frame r : Z) : Z := frame * variable_count rule + r.

Definition get_reg (frame r : Z) : vm ecs_rule_reg_t :=
  let* it := get_it in deref (zlookup (registers it) (reg_index frame r)).

Definition set_reg (frame r : Z) (v : ecs_rule_reg_t) : vm unit :=
  let* it := get_it in
  let* regs := deref (zinsert (reg_index frame r) v (registers it)) in
  modify_it (set_registers regs).

(** [columns[t]] where [columns = rule_get_columns_frame(it, frame)]. *)
Definition col_index (frame t : Z) : Z := frame * term_count rule + t.

Definition get_col (frame t : Z) : vm Z :=
  let* it := get_it in deref (zlookup (columns it) (col_index frame t)).

Definition set_col (frame t : Z) (v : Z) : vm unit :=
  let* it := get_it in
  let* cols := deref (zinsert (col_index frame t) v (columns it)) in
  modify_it (set_columns cols).

Definition get_ctx (op_index : Z) : vm ecs_rule_op_ctx_t :=
  let* it := get_it in deref (zlookup (op_ctx it) op_index).

Definition set_ctx (op_index : Z) (c : ecs_rule_op_ctx_t) : vm unit :=
  let* it := get_it in
  let* ctxs := deref (zinsert op_index c (op_ctx it)) in
  modify_it (set_op_ctx ctxs).

(** [it->ids[t] = v] *)
Definition set_id (t : Z) (v : Z) : vm unit :=
  let* it := get_it in
  let* ids := deref (zinsert t v (it_ids it)) in
  modify_it (set_it_ids ids).

(** [it->subjects[t] = v] *)
Definition set_subject (t : Z) (v : Z) : vm unit :=
  let* it := get_it in
  let* subjects := deref (it_subjects it) in
  let* subjects := deref (zinsert t v subjects) in
  modify_it (set_it_subjects (Some subjects)).

Definition rule_var_kind (r : Z) : vm ecs_rule_var_kind_t :=
  let* v := deref (zlookup (variables rule) r) in emit_ret (var_kind v).

Definition table_from_entity (e : Z) : option table_t :=
  match ecs_eis_get world e with
  | Some record => fst record
  | None => None
  end.

(** [entity_reg_set]: when [ecs_check(ecs_is_valid(...))] fails, control
    goes to the [error] label and the register is left as it was. *)
Definition entity_reg_set (frame r : Z) (entity : Z) : vm unit :=
  let* k := rule_var_kind r in
  emit_assert (kind_eqb k EcsRuleVarKindEntity) ;;;
  if ecs_is_valid world entity then
    let* reg := get_reg frame r in
    set_reg frame r (mk_reg (reg_table reg) (reg_offset reg)
                            (reg_count reg) entity)
  else emit_ret tt.

(** [entity_reg_get]: 0 is read as the wildcard; the [error] label
    returns 0. *)
Definition entity_reg_get (frame r : Z) : vm Z :=
  let* reg := get_reg frame r in
  let e := reg_entity reg in
  if e =? 0 then emit_ret EcsWildcard
  else if ecs_is_valid world e then emit_ret e
  else emit_ret 0.

Definition table_reg_set (frame r : Z) (table : option table_t) : vm unit :=
  let* k := rule_var_kind r in
  emit_assert (kind_eqb k EcsRuleVarKindTable) ;;;
  set_reg frame r (mk_reg table 0 0 0).

Definition table_reg_get (frame r : Z) : vm (option table_t) :=
  let* k := rule_var_kind r in
  emit_assert (kind_eqb k EcsRuleVarKindTable) ;;;
  let* reg := get_reg frame r in
  emit_ret (reg_table reg).

(** [reg_get_entity] *)
Definition reg_get_entity (op : ecs_rule_op_t) (frame r : Z) : vm Z :=
  if r =? UINT8_MAX then
    emit_assert (negb (op_subject op =? 0)) ;;;
    if ecs_is_valid world (op_subject op) then emit_ret (op_subject op)
    else emit_ret 0
  else
    let* k := rule_var_kind r in
    match k with
    | EcsRuleVarKindTable =>
        let* reg := get_reg frame r in
        let offset := reg_offset reg in
        emit_assert (reg_count reg =? 1) ;;;
        let* t := table_reg_get frame r in
        let* table := deref t in
        let entities := table_entities world table in
        emit_assert (offset <? Z.of_nat (length entities)) ;;;
        let* e := deref (zlookup entities offset) in
        if ecs_is_valid world e then emit_ret e else emit_ret 0
    | EcsRuleVarKindEntity => entity_reg_get frame r
    | EcsRuleVarKindUnknown => emit_abort
    end.

(** [reg_get_table] *)
Definition reg_get_table (op : ecs_rule_op_t) (frame r : Z)
    : vm (option table_t) :=
  if r =? UINT8_MAX then
    emit_assert (negb (op_subject op =? 0)) ;;;
    if ecs_is_valid world (op_subject op)
    then emit_ret (table_from_entity (op_subject op))
    else emit_ret None
  else
    let* k := rule_var_kind r in
    match k with
    | EcsRuleVarKindTable => table_reg_get frame r
    | EcsRuleVarKindEntity =>
        let* e := entity_reg_get frame r in
        emit_ret (table_from_entity e)
    | EcsRuleVarKindUnknown => emit_ret None
    end.

(** [reg_set_entity] *)
Definition reg_set_entity (frame r : Z) (entity : Z) : vm unit :=
  let* k := rule_var_kind r in
  if kind_eqb k EcsRuleVarKindTable then
    if ecs_is_valid world entity then
      match ecs_eis_get world entity with
      | Some (Some table, row) => set_reg frame r (mk_reg (Some table) row 1 0)
      | _ => set_reg frame r (mk_reg None 0 0 entity)
      end
    else emit_ret tt
  else entity_reg_set frame r entity.

Definition filter_zero : ecs_rule_filter_t :=
  mk_filter 0 false false false false 0 0.

(** [pair_to_filter]: variables are read from the frame before the one
    of the operation. *)
Definition pair_to_filter (op : ecs_rule_op_t) (pair : ecs_rule_pair_t)
    : vm ecs_rule_filter_t :=
  let pred := pair_pred_v pair in
  let obj := pair_obj_v pair in
  let frame := op_frame op - 1 in
  (* object *)
  let* obj_part :=
    if has_obj_reg pair then
      let* o := entity_reg_get frame (pair_obj_v pair) in
      let o := ecs_entity_t_lo o in
      if o =? EcsWildcard
      then emit_ret (o, true, pair_obj_v pair)
      else emit_ret (o, false, -1)
    else emit_ret (obj, false, -1) in
  let '(obj, obj_wild, lo_var0) := obj_part in
  (* predicate *)
  let* pred_part :=
    if has_pred_reg pair then
      let* p := entity_reg_get frame (pair_pred_v pair) in
      let p := ecs_entity_t_lo p in
      if p =? EcsWildcard then
        let same := if obj_wild
                    then pair_pred_v pair =? pair_obj_v pair else false in
        if negb (obj =? 0)
        then emit_ret (p, true, same, pair_pred_v pair, lo_var0)
        else emit_ret (p, true, same, -1, pair_pred_v pair)
      else emit_ret (p, false, false, -1, lo_var0)
    else emit_ret (pred, false, false, -1, lo_var0) in
  let '(pred, pred_wild, same, hi, lo) := pred_part in
  let m := if (obj =? 0) && negb (obj_0 pair) then pred
           else ecs_pair pred obj in
  emit_ret (mk_filter m (obj_wild || pred_wild) pred_wild obj_wild
                      same hi lo).

(** [ecs_vector_get(type, ecs_entity_t, column)] with the assertion that
    the element exists. *)
Definition rule_get_column (type : list Z) (column : Z) : vm Z :=
  deref (zlookup type column).

(** [reify_variables] *)
Definition reify_variables (op : ecs_rule_op_t)
    (filter : ecs_rule_filter_t) (type : list Z) (column : Z) : vm unit :=
  let* elem := rule_get_column type column in
  let obj_var := lo_var filter in
  let pred_var := hi_var filter in
  (if negb (obj_var =? -1) then
     entity_reg_set (op_frame op) obj_var
       (ecs_get_alive world (ECS_PAIR_OBJECT elem))
   else emit_ret tt) ;;;
  if negb (pred_var =? -1) then
    entity_reg_set (op_frame op) pred_var
      (ecs_get_alive world (ECS_PAIR_RELATION elem))
  else emit_ret tt.
End Registers.

Section ColumnSearch.
Context {api : flecs_api} (world : ecs_world_t).

(** The scan of [find_next_same_var] over [ids[i]], [i] counting up
    from [column + 1]. *)
Fixpoint same_var_scan (ids : list Z) (i : Z) : Z :=
  match ids with
  | [] => -1
  | id :: rest =>
      if negb (ECS_HAS_ROLE_PAIR id) then -1
      else if ECS_PAIR_RELATION id =? ECS_PAIR_OBJECT id then i
      else same_var_scan rest (i + 1)
  end.

Definition find_next_same_var {S} (type : list Z) (column : Z)
    (pattern : Z) : stm S Z :=
  emit_assert (pattern =? ecs_pair EcsWildcard EcsWildcard) ;;;
  if column + 1 <? 0 then emit_abort
  else emit_ret (same_var_scan (drop (Z.to_nat (column + 1)) type)
                               (column + 1)).

(** [find_next_column] *)
Definition find_next_column {S} (table : option table_t) (column : Z)
    (filter : ecs_rule_filter_t) : stm S Z :=
  let pattern := mask filter in
  let* table := deref table in
  let type := table_type world table in
  let* found :=
    if column =? -1 then
      match flecs_get_table_record world table pattern with
      | None => emit_ret None
      | Some tr => emit_ret (Some (tr_column tr))
      end
    else
      let column := column + 1 in
      if Z.of_nat (length type) <=? column then emit_ret None
      else
        let* id := deref (zlookup type column) in
        if negb (ecs_id_match world id pattern) then emit_ret None
        else emit_ret (Some column) in
  match found with
  | None => emit_ret (-1)
  | Some column =>
      if same_var filter
      then find_next_same_var type column (mask filter)
      else emit_ret column
  end.

(** The loop of [find_next_table] over [tables[i]]. *)
Fixpoint next_table_scan {S} (filter : ecs_rule_filter_t)
    (tables : list ecs_table_record_t) (i : Z)
    : stm S (option table_t * Z * Z) :=
  match tables with
  | [] => emit_ret (None, -1, i)
  | tr :: rest =>
      let* column :=
        if same_var filter then
          let* table := deref (tr_table tr) in
          find_next_same_var (table_type world table) (tr_column tr - 1)
                             (mask filter)
        else emit_ret (tr_column tr) in
      if column =? -1 then next_table_scan filter rest (i + 1)
      else emit_ret (tr_table tr, column, i + 1)
  end.

(** [find_next_table]: the table record found and the context with its
    [table_index] advanced. *)
Definition find_next_table {S} (filter : ecs_rule_filter_t)
    (ctx : ecs_rule_with_ctx_t)
    : stm S (ecs_table_record_t * ecs_rule_with_ctx_t) :=
  let tables := from_option (fun x => x) [] (idr ctx) in
  if table_index ctx <? 0 then emit_abort else
  let* r := next_table_scan filter
              (drop (Z.to_nat (table_index ctx)) tables)
              (table_index ctx) in
  let '(table, column, i) := r in
  let table := if column =? -1 then None else table in
  emit_ret (mk_table_record table column, mk_with_ctx (idr ctx) i).

(** [find_tables] *)
Definition find_tables (id : Z) : option ecs_id_record_t :=
  match flecs_get_id_record world id with
  | Some (tr :: rest) => Some (tr :: rest)
  | _ => None
  end.
End ColumnSearch.

(** ** Instruction interpreter *)

Section Eval.
Context {api : flecs_api} (world : ecs_world_t) (rule : ecs_rule_t).

(** [ecs_type_t] is a vector pointer, NULL for the empty type. *)
Definition set_column (op : ecs_rule_op_t) (type : list Z) (column : Z)
    : vm unit :=
  if op_term op =? -1 then emit_ret tt else
  emit_assert (0 <=? op_term op) ;;;
  match type with
  | [] => set_id (op_term op) 0
  | _ =>
      let* id := rule_get_column type column in
      set_id (op_term op) id
  end.

Definition set_source (op : ecs_rule_op_t) (r : Z) : vm unit :=
  if op_term op =? -1 then emit_ret tt else
  emit_assert (0 <=? op_term op) ;;;
  let is_entity :=
    match zlookup (variables rule) r with
    | Some v => kind_eqb (var_kind v) EcsRuleVarKindEntity
    | None => false
    end in
  if negb (r =? UINT8_MAX) then
    let* _k := rule_var_kind rule r in
    if is_entity then
      let* e := reg_get_entity world rule op (op_frame op) r in
      set_subject (op_term op) e
    else set_subject (op_term op) 0
  else set_subject (op_term op) 0.

Definition eval_input (op : ecs_rule_op_t) (op_index : Z) (redo : bool)
    : vm bool :=
  emit_ret (negb redo).

Definition ecs_table_count (table : table_t) : Z :=
  Z.of_nat (length (table_entities world table)).

(** The [do ... while (sp >= 0)] loop of [eval_superset]; [n] is
    [sp + 1]. *)
Fixpoint superset_unwind (op : ecs_rule_op_t) (op_index : Z)
    (super_filter : ecs_rule_filter_t)
    (stack : list ecs_rule_superset_frame_t) (n : nat) : vm bool :=
  match n with
  | O => emit_ret false
  | S sp =>
      let* frame := deref (stack !! sp) in
      let* column :=
        find_next_column world (pf_table frame) (pf_column frame)
                         super_filter in
      if negb (column =? -1) then
        let stack := <[sp := mk_superset_frame (pf_table frame) column]>
                       stack in
        let* ctx := get_ctx op_index in
        set_ctx op_index (set_ctx_superset stack (Z.of_nat sp) ctx) ;;;
        let* table := deref (pf_table frame) in
        let* col_entity := rule_get_column (table_type world table) column in
        let col_obj := ecs_entity_t_lo col_entity in
        entity_reg_set world rule (op_frame op) (r_out op) col_obj ;;;
        set_column op (table_type world table) column ;;;
        emit_ret true
      else superset_unwind op op_index super_filter stack sp
  end.

(** [eval_superset] *)
Definition eval_superset (op : ecs_rule_op_t) (op_index : Z) (redo : bool)
    : vm bool :=
  let r := r_out op in
  emit_assert (negb (r =? UINT8_MAX)) ;;;
  let* k := rule_var_kind rule r in
  emit_assert (kind_eqb k EcsRuleVarKindEntity) ;;;
  let* filter := pair_to_filter world rule op (op_filter op) in
  let super_filter :=
    mk_filter (ecs_pair (ECS_PAIR_RELATION (mask filter)) EcsWildcard)
              false false false false 0 0 in
  let* ctx := get_ctx op_index in
  if negb redo then
    set_ctx op_index
      (set_ctx_superset (ctx_superset_stack ctx) 0 ctx) ;;;
    let obj := ECS_PAIR_OBJECT (mask filter) in
    emit_assert (negb (obj =? EcsWildcard)) ;;;
    let table := table_from_entity world obj in
    let* column := find_next_column world table (-1) super_filter in
    if column =? -1 then emit_ret false else
    let* t := deref table in
    let* col_entity := rule_get_column (table_type world t) column in
    let col_obj := ecs_entity_t_lo col_entity in
    entity_reg_set world rule (op_frame op) r col_obj ;;;
    set_column op (table_type world t) column ;;;
    let* ctx := get_ctx op_index in
    set_ctx op_index
      (set_ctx_superset
         (<[0%nat := mk_superset_frame table column]>
            (ctx_superset_stack ctx)) (ctx_superset_sp ctx) ctx) ;;;
    emit_ret true
  else
    let sp := ctx_superset_sp ctx in
    let stack := ctx_superset_stack ctx in
    let* frame := deref (zlookup stack sp) in
    let* table := deref (pf_table frame) in
    let* col_entity :=
      rule_get_column (table_type world table) (pf_column frame) in
    let col_obj := ecs_entity_t_lo col_entity in
    let next_table := table_from_entity world col_obj in
    let* pushed :=
      match next_table with
      | Some _ =>
          let* stack :=
            deref (zinsert (sp + 1) (mk_superset_frame next_table (-1))
                           stack) in
          emit_ret (sp + 1, stack)
      | None => emit_ret (sp, stack)
      end in
    let '(sp, stack) := pushed in
    set_ctx op_index (set_ctx_superset stack (ctx_superset_sp ctx) ctx) ;;;
    superset_unwind op op_index super_filter stack (Z.to_nat (sp + 1)).

(** [eval_setjmp] *)
Definition eval_setjmp (op : ecs_rule_op_t) (op_index : Z) (redo : bool)
    : vm bool :=
  let* ctx := get_ctx op_index in
  if negb redo then
    set_ctx op_index (set_ctx_setjmp_label (on_pass op) ctx) ;;;
    emit_ret true
  else
    set_ctx op_index (set_ctx_setjmp_label (on_fail op) ctx) ;;;
    emit_ret false.

Definition eval_jump (op : ecs_rule_op_t) (op_index : Z) (redo : bool)
    : vm bool :=
  emit_ret (negb redo).

Definition eval_not (op : ecs_rule_op_t) (op_index : Z) (redo : bool)
    : vm bool :=
  emit_ret (negb redo).

Definition eval_yield (op : ecs_rule_op_t) (op_index : Z) (redo : bool)
    : vm bool :=
  emit_ret false.

(** [eval_store] *)
Definition eval_store (op : ecs_rule_op_t) (op_index : Z) (redo : bool)
    : vm bool :=
  if redo then emit_ret false else
  let* e := reg_get_entity world rule op (op_frame op) (r_in op) in
  reg_set_entity world rule (op_frame op) (r_out op) e ;;;
  (if 0 <=? op_term op then
     let* filter := pair_to_filter world rule op (op_filter op) in
     set_id (op_term op) (mask filter)
   else emit_ret tt) ;;;
  emit_ret true.

(** The loop of [eval_each] that skips the builtin entities. *)
Fixpoint each_skip (fuel : nat) (entities : list Z) (row count : Z)
    (e : Z) : vm (option Z) :=
  if (e =? EcsWildcard) || (e =? EcsThis) then
    match fuel with
    | O => fun _ => Stuck
    | S fuel' =>
        let row := row + 1 in
        if row =? count then emit_ret None
        else
          let* e := deref (zlookup entities row) in
          each_skip fuel' entities row count e
    end
  else emit_ret (Some e).

(** [eval_each] *)
Definition eval_each (op : ecs_rule_op_t) (op_index : Z) (redo : bool)
    : vm bool :=
  let frame := op_frame op in
  let* kin := rule_var_kind rule (r_in op) in
  emit_assert (kind_eqb kin EcsRuleVarKindTable) ;;;
  let* kout := rule_var_kind rule (r_out op) in
  emit_assert (kind_eqb kout EcsRuleVarKindEntity) ;;;
  let* table := table_reg_get rule frame (r_in op) in
  let* found :=
    match table with
    | Some t =>
        let* reg := get_reg rule frame (r_in op) in
        let offset := reg_offset reg in
        let* count :=
          if reg_count reg =? 0 then
            emit_assert (negb (ecs_table_count t =? 0)) ;;;
            emit_ret (ecs_table_count t)
          else emit_ret (reg_count reg + offset) in
        let entities := table_entities world t in
        let* ctx := get_ctx op_index in
        let row := if negb redo then offset else ctx_each_row ctx + 1 in
        set_ctx op_index (set_ctx_each_row row ctx) ;;;
        if count <=? row then emit_ret None
        else
          let* e := deref (zlookup entities row) in
          each_skip (length entities) entities row count e
    | None =>
        if negb redo then
          let* e := entity_reg_get world rule frame (r_in op) in
          emit_ret (Some e)
        else emit_ret None
    end in
  match found with
  | None => emit_ret false
  | Some e =>
      entity_reg_set world rule frame (r_out op) e ;;;
      emit_ret true
  end.
End Eval.

Section EvalSelect.
Context {api : flecs_api} (world : ecs_world_t) (rule : ecs_rule_t).

(** [eval_select] *)
Definition eval_select (op : ecs_rule_op_t) (op_index : Z) (redo : bool)
    : vm bool :=
  let frame := op_frame op in
  let r := r_out op in
  emit_assert (negb (r =? UINT8_MAX)) ;;;
  let pair := op_filter op in
  let* filter := pair_to_filter world rule op pair in
  let pattern := mask filter in
  (if negb redo && negb (op_term op =? -1) then
     set_id (op_term op) pattern ;;;
     set_col rule frame (op_term op) (-1)
   else emit_ret tt) ;;;
  let* ctx := get_ctx op_index in
  let found := if redo then idr (ctx_with ctx)
               else find_tables world pattern in
  (if redo then emit_ret tt
   else set_ctx op_index
          (set_ctx_with (mk_with_ctx found (table_index (ctx_with ctx)))
                        ctx)) ;;;
  match found with
  | None => emit_ret false
  | Some _ =>
      let next_table : vm (option (option table_t * Z)) :=
        let* ctx := get_ctx op_index in
        let* r2 := find_next_table world filter (ctx_with ctx) in
        let '(table_record, with_ctx) := r2 in
        set_ctx op_index (set_ctx_with with_ctx ctx) ;;;
        match tr_table table_record with
        | None => emit_ret None
        | Some t =>
            set_col rule frame (op_term op) (tr_column table_record) ;;;
            table_reg_set rule frame r (Some t) ;;;
            emit_ret (Some (Some t, tr_column table_record))
        end in
      let* matched :=
        if negb redo then
          let* ctx := get_ctx op_index in
          set_ctx op_index
            (set_ctx_with (mk_with_ctx (idr (ctx_with ctx)) 0) ctx) ;;;
          next_table
        else
          let* in_table :=
            if wildcard filter then
              let* table := table_reg_get rule frame r in
              emit_assert (negb (is_null table)) ;;;
              let* column := get_col rule frame (op_term op) in
              let* column := find_next_column world table column filter in
              set_col rule frame (op_term op) column ;;;
              emit_ret (table, column)
            else emit_ret (None, -1) in
          if snd in_table =? -1 then next_table
          else emit_ret (Some in_table) in
      match matched with
      | None => emit_ret false
      | Some (table, column) =>
          let* t := deref table in
          emit_assert (negb (column =? -1)) ;;;
          (if wildcard filter
           then reify_variables world rule op filter
                  (table_type world t) column
           else emit_ret tt) ;;;
          (if negb (obj_0 pair)
           then set_column op (table_type world t) column
           else emit_ret tt) ;;;
          emit_ret true
      end
  end.

(** The test of [eval_with] for a transitive, inclusive pair whose
    subject and object are the same entity: [Some m] when the operation
    returns true at once, with [m] stored in [it->ids[op->term]]. *)
Definition with_reflexive (op : ecs_rule_op_t)
    (filter : ecs_rule_filter_t) : vm (option Z) :=
  let pair := op_filter op in
  let r := r_in op in
  if transitive pair && inclusive pair then
    let* subj :=
      if r =? UINT8_MAX then emit_ret (op_subject op)
      else
        let* k := rule_var_kind rule r in
        if kind_eqb k EcsRuleVarKindEntity then
          let* subj := entity_reg_get world rule (op_frame op) r in
          emit_assert (negb (subj =? 0)) ;;;
          emit_ret subj
        else emit_ret 0 in
    if negb (subj =? 0) && negb (obj_wildcard filter)
       && (subj =? ecs_entity_t_lo (mask filter))
    then emit_ret (Some (mask filter))
    else emit_ret None
  else emit_ret None.

(** [eval_with] *)
Definition eval_with (op : ecs_rule_op_t) (op_index : Z) (redo : bool)
    : vm bool :=
  let frame := op_frame op in
  let r := r_in op in
  let pair := op_filter op in
  let* filter := pair_to_filter world rule op pair in
  if redo && negb (wildcard filter) then emit_ret false else
  (if negb redo && negb (op_term op =? -1)
   then set_col rule frame (op_term op) (-1)
   else emit_ret tt) ;;;
  let* reflexive := if redo then emit_ret None
                    else with_reflexive op filter in
  match reflexive with
  | Some m => set_id (op_term op) m ;;; emit_ret true
  | None =>
      let* ctx := get_ctx op_index in
      let found := if redo then idr (ctx_with ctx)
                   else find_tables world (mask filter) in
      (if redo then emit_ret tt
       else set_ctx op_index
              (set_ctx_with
                 (mk_with_ctx found (table_index (ctx_with ctx))) ctx)) ;;;
      match found with
      | None => emit_ret false
      | Some _ =>
          let* table := reg_get_table world rule op frame r in
          match table with
          | None => emit_ret false
          | Some t =>
              let* column :=
                if negb redo
                then find_next_column world table (-1) filter
                else if negb (wildcard filter) then emit_ret (-1)
                else
                  let* c := get_col rule frame (op_term op) in
                  find_next_column world table c filter in
              if column =? -1 then emit_ret false else
              set_col rule frame (op_term op) column ;;;
              (if wildcard filter
               then reify_variables world rule op filter
                      (table_type world t) column
               else emit_ret tt) ;;;
              (if negb (obj_0 pair)
               then set_column op (table_type world t) column
               else emit_ret tt) ;;;
              set_source world rule op r ;;;
              emit_ret true
          end
      end
  end.
End EvalSelect.

Section EvalSubset.
Context {api : flecs_api} (world : ecs_world_t) (rule : ecs_rule_t).

Definition set_subset_frame (op_index : Z) (sp : Z)
    (f : ecs_rule_subset_frame_t) : vm unit :=
  let* ctx := get_ctx op_index in
  let* stack := deref (zinsert sp f (ctx_subset_stack ctx)) in
  set_ctx op_index (set_ctx_subset stack (ctx_subset_sp ctx) ctx).

Definition get_subset_frame (op_index : Z) (sp : Z)
    : vm ecs_rule_subset_frame_t :=
  let* ctx := get_ctx op_index in
  deref (zlookup (ctx_subset_stack ctx) sp).

Definition set_subset_sp (op_index : Z) (sp : Z) : vm unit :=
  let* ctx := get_ctx op_index in
  set_ctx op_index (set_ctx_subset (ctx_subset_stack ctx) sp ctx).

(** The loop [while ((sp >= 0) && (row >= ecs_table_count(table)))] of
    [eval_subset].  [inl b]: the function returned [b] from inside the
    loop; [inr (sp, table, row)]: the loop ended. *)
Fixpoint subset_next_frame (fuel : nat) (op : ecs_rule_op_t)
    (op_index : Z) (filter : ecs_rule_filter_t) (sp : Z)
    (table : option table_t) (row : Z)
    : vm (bool + (Z * table_t * Z)) :=
  match fuel with
  | O => fun _ => Stuck
  | S fuel' =>
      let* t := deref table in
      if (0 <=? sp) && (ecs_table_count world t <=? row) then
        let* frame := get_subset_frame op_index sp in
        let* found := find_next_table world filter (sf_with_ctx frame) in
        let '(table_record, with_ctx) := found in
        match tr_table table_record with
        | Some nt =>
            set_subset_frame op_index sp
              (mk_subset_frame with_ctx (Some nt) 0
                               (tr_column table_record)) ;;;
            set_column op (table_type world nt)
                       (tr_column table_record) ;;;
            table_reg_set rule (op_frame op) (r_out op) (Some nt) ;;;
            emit_ret (inl true)
        | None =>
            set_subset_frame op_index sp
              (mk_subset_frame with_ctx (sf_table frame) (sf_row frame)
                               (sf_column frame)) ;;;
            let sp := sp - 1 in
            set_subset_sp op_index sp ;;;
            if sp <? 0 then emit_ret (inl false) else
            let* frame := get_subset_frame op_index sp in
            let row := sf_row frame + 1 in
            set_subset_frame op_index sp
              (mk_subset_frame (sf_with_ctx frame) (sf_table frame) row
                               (sf_column frame)) ;;;
            subset_next_frame fuel' op op_index filter sp
                              (sf_table frame) row
        end
      else emit_ret (inr (sp, t, row))
  end.

(** The inner [do ... while (!table && row < row_count)] loop: the
    entities of the current table are tried, one row after the other,
    as the object of the pair.  Returns the table found (if any) with
    its column, and [pair] and [filter] as the loop leaves them. *)
Fixpoint subset_try_rows (fuel : nat) (op : ecs_rule_op_t)
    (op_index : Z) (pair : ecs_rule_pair_t) (sp row row_count : Z)
    (entities : list Z)
    : vm (option (table_t * Z) * ecs_rule_pair_t * ecs_rule_filter_t) :=
  match fuel with
  | O => fun _ => Stuck
  | S fuel' =>
      let* e := deref (zlookup entities row) in
      let pair :=
        set_pair_obj e
          (set_reg_mask (Z.land (reg_mask pair) (Z.lnot RULE_PAIR_OBJECT))
                        pair) in
      let* filter := pair_to_filter world rule op pair in
      let* found :=
        match find_tables world (mask filter) with
        | Some records =>
            let* new_frame := get_subset_frame op_index (sp + 1) in
            let* r := find_next_table world filter
                        (mk_with_ctx (Some records) 0) in
            let '(table_record, with_ctx) := r in
            match tr_table table_record with
            | Some t =>
                set_subset_frame op_index (sp + 1)
                  (mk_subset_frame with_ctx (Some t) 0
                                   (tr_column table_record)) ;;;
                let* ctx := get_ctx op_index in
                set_subset_sp op_index (ctx_subset_sp ctx + 1) ;;;
                emit_ret (Some (t, tr_column table_record))
            | None =>
                set_subset_frame op_index (sp + 1)
                  (mk_subset_frame with_ctx (sf_table new_frame)
                     (sf_row new_frame) (sf_column new_frame)) ;;;
                emit_ret None
            end
        | None => emit_ret None
        end in
      match found with
      | Some _ => emit_ret (found, pair, filter)
      | None =>
          let* frame := get_subset_frame op_index sp in
          let row := sf_row frame + 1 in
          set_subset_frame op_index sp
            (mk_subset_frame (sf_with_ctx frame) (sf_table frame) row
                             (sf_column frame)) ;;;
          if row <? row_count
          then subset_try_rows fuel' op op_index pair sp row row_count
                               entities
          else emit_ret (None, pair, filter)
      end
  end.

(** The outer [do ... while (!table)] loop of [eval_subset]. *)
Fixpoint subset_redo (fuel : nat) (op : ecs_rule_op_t) (op_index : Z)
    (pair : ecs_rule_pair_t) (filter : ecs_rule_filter_t) : vm bool :=
  match fuel with
  | O => fun _ => Stuck
  | S fuel' =>
      let* ctx := get_ctx op_index in
      let sp := ctx_subset_sp ctx in
      let* frame := get_subset_frame op_index sp in
      let* next := subset_next_frame fuel' op op_index filter sp
                     (sf_table frame) (sf_row frame) in
      match next with
      | inl b => emit_ret b
      | inr (sp, table, row) =>
          let row_count := ecs_table_count world table in
          emit_assert (row <? row_count) ;;;
          let* tried := subset_try_rows fuel' op op_index pair sp row
                          row_count (table_entities world table) in
          let '(found, pair_after, filter_after) := tried in
          match found with
          | Some (t, column) =>
              table_reg_set rule (op_frame op) (r_out op) (Some t) ;;;
              set_column op (table_type world t) column ;;;
              emit_ret true
          | None => subset_redo fuel' op op_index pair_after filter_after
          end
      end
  end.

(** [eval_subset] *)
Definition eval_subset (fuel : nat) (op : ecs_rule_op_t) (op_index : Z)
    (redo : bool) : vm bool :=
  let r := r_out op in
  emit_assert (negb (r =? UINT8_MAX)) ;;;
  let pair := op_filter op in
  let* filter := pair_to_filter world rule op pair in
  if negb redo then
    set_subset_sp op_index 0 ;;;
    let* frame := get_subset_frame op_index 0 in
    let found := find_tables world (mask filter) in
    set_subset_frame op_index 0
      (mk_subset_frame (mk_with_ctx found (table_index (sf_with_ctx frame)))
         (sf_table frame) (sf_row frame) (sf_column frame)) ;;;
    match found with
    | None => emit_ret false
    | Some _ =>
        let* next := find_next_table world filter (mk_with_ctx found 0) in
        let '(table_record, with_ctx) := next in
        let* frame := get_subset_frame op_index 0 in
        set_subset_frame op_index 0
          (mk_subset_frame with_ctx (sf_table frame) (sf_row frame)
                           (sf_column frame)) ;;;
        match tr_table table_record with
        | None => emit_ret false
        | Some t =>
            set_subset_frame op_index 0
              (mk_subset_frame with_ctx (Some t) 0
                               (tr_column table_record)) ;;;
            table_reg_set rule (op_frame op) r (Some t) ;;;
            set_column op (table_type world t)
                       (tr_column table_record) ;;;
            emit_ret true
        end
    end
  else subset_redo fuel op op_index pair filter.
End EvalSubset.

Section Interpreter.
Context {api : flecs_api} (world : ecs_world_t) (rule : ecs_rule_t).

(** [eval_op]; [fuel] bounds the loops of [eval_subset]. *)
Definition eval_op (fuel : nat) (op : ecs_rule_op_t) (op_index : Z)
    (redo : bool) : vm bool :=
  match op_kind op with
  | EcsRuleInput => eval_input op op_index redo
  | EcsRuleSelect => eval_select world rule op op_index redo
  | EcsRuleWith => eval_with world rule op op_index redo
  | EcsRuleSubSet => eval_subset world rule fuel op op_index redo
  | EcsRuleSuperSet => eval_superset world rule op op_index redo
  | EcsRuleEach => eval_each world rule op op_index redo
  | EcsRuleStore => eval_store world rule op op_index redo
  | EcsRuleSetJmp => eval_setjmp op op_index redo
  | EcsRuleJump => eval_jump op op_index redo
  | EcsRuleNot => eval_not op op_index redo
  | EcsRuleYield => eval_yield op op_index redo
  end.

(** [memcpy] of [n] elements inside one array. *)
Definition copy_within {A} (l : list A) (src dst n : Z) : option (list A) :=
  if (0 <=? src) && (0 <=? dst) && (0 <=? n)
     && (src + n <=? Z.of_nat (length l))
     && (dst + n <=? Z.of_nat (length l))
  then Some (list_inserts (Z.to_nat dst)
               (take (Z.to_nat n) (drop (Z.to_nat src) l)) l)
  else None.

(** [push_registers] *)
Definition push_registers (cur next : Z) : vm unit :=
  if variable_count rule =? 0 then emit_ret tt else
  let* it := get_it in
  let* regs := deref (copy_within (registers it)
                        (cur * variable_count rule)
                        (next * variable_count rule)
                        (variable_count rule)) in
  modify_it (set_registers regs).

(** [push_columns] *)
Definition push_columns (cur next : Z) : vm unit :=
  if term_count rule =? 0 then emit_ret tt else
  let* it := get_it in
  let* cols := deref (copy_within (columns it)
                        (cur * term_count rule)
                        (next * term_count rule)
                        (term_count rule)) in
  modify_it (set_columns cols).

(** [is_control_flow] *)
Definition is_control_flow (op : ecs_rule_op_t) : bool :=
  match op_kind op with
  | EcsRuleSetJmp => true
  | EcsRuleJump => true
  | _ => false
  end.

(** The test that guards the copy of the previous frame in
    [ecs_rule_next]. *)
Definition pushes_frame (op : ecs_rule_op_t) (redo : bool)
    (last_frame : Z) : bool :=
  negb redo && negb (is_control_flow op) && negb (op_frame op =? 0)
  && negb (op_frame op =? last_frame).

(** "push a new frame on the stack for the next operation" *)
Definition push_frame_for (op : ecs_rule_op_t) (redo : bool)
    (last_frame : Z) : vm unit :=
  if pushes_frame op redo last_frame then
    let cur := op_frame op in
    let prev := cur - 1 in
    push_registers prev cur ;;;
    push_columns prev cur
  else emit_ret tt.

(** The loops of [populate_iterator] over the variables and the terms. *)
Definition populate_variables (frame : Z) : vm unit :=
  fold_left (fun acc '(i, var) =>
    acc ;;;
    let* v :=
      if kind_eqb (var_kind var) EcsRuleVarKindEntity then
        let* reg := get_reg rule frame (Z.of_nat i) in
        emit_ret (reg_entity reg)
      else emit_ret 0 in
    let* it := get_it in
    let* vars := deref (zinsert (Z.of_nat i) v (it_variables it)) in
    modify_it (set_it_variables vars))
    (imap (fun i var => (i, var)) (variables rule)) (emit_ret tt).

Definition populate_subjects (frame : Z) : vm unit :=
  fold_left (fun acc '(i, v) =>
    acc ;;;
    if negb (v =? -1) then
      let* var := deref (zlookup (variables rule) v) in
      if kind_eqb (var_kind var) EcsRuleVarKindEntity then
        let* reg := get_reg rule frame (var_id var) in
        set_subject (Z.of_nat i) (reg_entity reg)
      else emit_ret tt
    else emit_ret tt)
    (imap (fun i v => (i, v))
          (take (length (filter_terms rule)) (subject_variables rule)))
    (emit_ret tt).

Definition populate_columns (frame : Z) : vm unit :=
  fold_left (fun acc '(i, term) =>
    acc ;;;
    let* it := get_it in
    let* subjects := deref (it_subjects it) in
    let* subj := deref (subjects !! i) in
    let* c0 := get_col rule frame (Z.of_nat i) in
    let c := c0 + 1 in
    set_col rule frame (Z.of_nat i) c ;;;
    if subj =? 0 then
      if negb (tid_entity (term_subj_id term) =? EcsThis)
      then set_col rule frame (Z.of_nat i) 0
      else emit_ret tt
    else if negb (c =? 0) then set_col rule frame (Z.of_nat i) (-1)
    else emit_ret tt)
    (imap (fun i term => (i, term)) (filter_terms rule)) (emit_ret tt).

(** Modelled from the spec: [flecs_iter_populate_data] belongs to the
    iterator code outside rules.c.  It records the table, offset and
    count it is given (section 4.7: "expose (table, offset, count)"); a
    count of 0 with a table stands for all rows of the table. *)
Definition flecs_iter_populate_data (table : option table_t)
    (offset count : Z) : vm unit :=
  let count :=
    match table with
    | Some t => if count =? 0 then ecs_table_count world t else count
    | None => count
    end in
  modify_it (set_it_data table offset count).

(** [populate_iterator] *)
Definition populate_iterator (op : ecs_rule_op_t) : vm unit :=
  let r := r_in op in
  let frame := op_frame op in
  let* data :=
    if negb (r =? UINT8_MAX) then
      let* k := rule_var_kind rule r in
      let* reg := get_reg rule frame r in
      if kind_eqb k EcsRuleVarKindTable then
        emit_ret (reg_table reg, reg_offset reg, reg_count reg)
      else
        emit_assert (kind_eqb k EcsRuleVarKindEntity) ;;;
        let* record := deref (ecs_eis_get world (reg_entity reg)) in
        emit_ret (fst record, snd record, 1)
    else emit_ret (None, 0, 0) in
  let '(table, offset, count) := data in
  populate_variables frame ;;;
  populate_subjects frame ;;;
  modify_it (set_it_columns frame) ;;;
  populate_columns frame ;;;
  flecs_iter_populate_data table offset count.

(** What one pass through the body of the [do ... while] loop of
    [ecs_rule_next] leaves behind. *)
Inductive step_t :=
| Yielded
| Continue (redo : bool) (last_frame : Z).

(** The body of the loop of [ecs_rule_next]. *)
Definition rule_step (fuel : nat) (redo : bool) (last_frame : Z)
    : vm step_t :=
  let* it := get_it in
  let op_index := it_op it in
  let* op := deref (zlookup (operations rule) op_index) in
  push_frame_for op redo last_frame ;;;
  let* result := eval_op fuel op op_index redo in
  modify_it (set_it_op (if result then on_pass op else on_fail op)) ;;;
  match op_kind op with
  | EcsRuleYield =>
      populate_iterator op ;;;
      modify_it (set_it_redo true) ;;;
      emit_ret Yielded
  | _ =>
      (match op_kind op with
       | EcsRuleJump =>
           let* ctx := get_ctx (on_pass op) in
           modify_it (set_it_op (ctx_setjmp_label ctx))
       | _ => emit_ret tt
       end) ;;;
      let* it := get_it in
      let redo := it_op it <=? op_index in
      let last_frame := if negb (is_control_flow op) then op_frame op
                        else last_frame in
      emit_ret (Continue redo last_frame)
  end.

(** [ecs_rule_iter_free] *)
Definition ecs_rule_iter_free (it : ecs_iter_t) : ecs_iter_t :=
  set_it_variables [] (set_op_ctx [] (set_columns [] (set_registers [] it))).

(** The [do ... while (iter->op != -1)] loop of [ecs_rule_next]. *)
Fixpoint rule_loop (fuel : nat) (steps : nat) (redo : bool)
    (last_frame : Z) : vm bool :=
  match steps with
  | O => fun _ => Stuck
  | S steps' =>
      let* s := rule_step fuel redo last_frame in
      match s with
      | Yielded => emit_ret true
      | Continue redo last_frame =>
          let* it := get_it in
          if negb (it_op it =? -1)
          then rule_loop fuel steps' redo last_frame
          else modify_it ecs_rule_iter_free ;;; emit_ret false
      end
  end.

(** What [flecs_iter_init] and the block under [init_subjects] do on the
    first call of [ecs_rule_next]: the [ids] and [subjects] arrays, one
    element per term and zeroed, are attached to the iterator, then the
    literal subjects and the ids of the terms that no operation fills in
    are stored. *)
Definition init_subjects (it : ecs_iter_t) : ecs_iter_t :=
  match it_subjects it with
  | Some _ => it
  | None =>
      let subjects :=
        map (fun t =>
               if term_id_is_entity (term_subj_id t)
                  && negb (tid_entity (term_subj_id t) =? EcsThis)
               then tid_entity (term_subj_id t) else 0)
            (filter_terms rule) in
      let ids :=
        map (fun t =>
               if negb (Z.land (tid_set_mask (term_subj_id t)) EcsNothing
                        =? 0)
                  || is_not (term_oper t) || is_optional (term_oper t)
                  || (term_id t =? ecs_pair EcsChildOf 0)
               then term_id t else 0)
            (filter_terms rule) in
      set_it_subjects (Some subjects) (set_it_ids ids it)
  end.

(** [ecs_rule_next]: [fuel] bounds the number of operations evaluated
    before the next yield.  When [iter->op] is -1 on entry the
    [ecs_check] fails and the function returns false. *)
Definition ecs_rule_next (fuel : nat) : vm bool :=
  let* it := get_it in
  if it_op it =? -1 then emit_ret false else
  modify_it init_subjects ;;;
  rule_loop fuel fuel (it_redo it) (-1).

(** [ecs_rule_iter]; [heap] is what the freshly allocated arrays hold. *)
Definition ecs_rule_iter (heap : malloc_t) : crash ecs_iter_t :=
  let nreg := Z.to_nat (operation_count rule * variable_count rule) in
  let ncol := Z.to_nat (operation_count rule * term_count rule) in
  let it :=
    mk_iter (map (junk_reg heap) (seq 0 nreg))
            (map (junk_col heap) (seq 0 ncol))
            (replicate (length (operations rule)) op_ctx_zero)
            (if operation_count rule =? 0 then []
             else map (junk_var heap) (seq 0 (length (variables rule))))
            0 false [] None 0 None 0 0 in
  let init : vm unit :=
    (if operation_count rule =? 0 then emit_ret tt
     else
       fold_left (fun acc i => acc ;;; set_col rule 0 (Z.of_nat i) (-1))
                 (seq 0 (length (filter_terms rule))) (emit_ret tt)) ;;;
    fold_left (fun acc '(i, var) =>
      acc ;;;
      if kind_eqb (var_kind var) EcsRuleVarKindEntity
      then entity_reg_set world rule 0 (Z.of_nat i) EcsWildcard
      else table_reg_set rule 0 (Z.of_nat i) None)
      (imap (fun i var => (i, var)) (variables rule)) (emit_ret tt) in
  do (_u, it) <- init it;
  Done it.
End Interpreter.

(** ** Full iterations *)

(** What the application reads from the iterator after [ecs_rule_next]
    returned true: the table slice, and per term the id, the subject and
    the column, and the values of the variables. *)
Record yield_t := mk_yield {
  y_table : option table_t;
  y_offset : Z;
  y_count : Z;
  y_ids : list Z;
  y_subjects : list Z;
  y_columns : list Z;
  y_variables : list Z
}.

Definition yield_of (rule : ecs_rule_t) (it : ecs_iter_t) : yield_t :=
  mk_yield (it_table it) (it_offset it) (it_count it) (it_ids it)
    (from_option (fun x => x) [] (it_subjects it))
    (take (length (filter_terms rule))
          (drop (Z.to_nat (it_columns it * term_count rule)) (columns it)))
    (it_variables it).

(** [ecs_rule_next] until it returns false, at most [n] times. *)
Fixpoint iterate {api : flecs_api} (world : ecs_world_t) (rule : ecs_rule_t)
    (fuel : nat) (n : nat) (it : ecs_iter_t) : crash (list yield_t) :=
  match n with
  | O => Stuck
  | S n' =>
      do (more, it') <- ecs_rule_next world rule fuel it;
      if more : bool then
        do rest <- iterate world rule fuel n' it';
        Done (yield_of rule it' :: rest)
      else Done []
  end.

(** [ecs_rule_init], [ecs_rule_iter] and a full iteration. *)
Definition run_rule {api : flecs_api} (world : ecs_world_t)
    (terms : list ecs_term_t) (heap : malloc_t) (fuel : nat)
    : outcome rule_error_t (list yield_t) :=
  do rule <- ecs_rule_init world terms;
  do it <- lift (ecs_rule_iter world rule heap);
  lift (iterate world rule fuel fuel it).

(** The entities of a yield: the rows [offset .. offset + count) of its
    table. *)
Definition yield_entities (world : ecs_world_t) (y : yield_t) : list Z :=
  match y_table y with
  | Some t => take (Z.to_nat (y_count y))
                   (drop (Z.to_nat (y_offset y)) (table_entities world t))
  | None => []
  end.

(** ** Sample rules and worlds *)

Module Sample.
#[local] Existing Instance sample_api.

(** Entities.  [LocatedIn] is transitive, inclusive and final; [Foo]
    and [Bar] are final tags; [Rel] is a final relation. *)
Definition LocatedIn : Z := 1000.
Definition Foo : Z := 1001.
Definition Bar : Z := 1002.
Definition Rel : Z := 1003.
Definition a : Z := 2001.
Definition b : Z := 2002.
Definition c : Z := 2003.

Definition builtins : list Z :=
  [EcsWildcard; EcsThis; EcsTransitive; EcsTransitiveSelf; EcsIsA;
   EcsChildOf; EcsFinal].

(** The facts [Foo(a)], [LocatedIn(a, b)], [Foo(b)], [LocatedIn(c, a)]. *)
Definition tables : list table_model :=
  [ mk_table [EcsTransitive; EcsTransitiveSelf; EcsFinal] [LocatedIn];
    mk_table [EcsFinal] [Foo; Bar; Rel];
    mk_table [Foo; ecs_pair LocatedIn b] [a];
    mk_table [Foo] [b];
    mk_table [ecs_pair LocatedIn a] [c] ].

Definition world : ecs_world_t :=
  model_world tables (builtins ++ [LocatedIn; Foo; Bar; Rel; a; b; c]).

(** Terms, written as in a rule expression. *)
Definition tag (pred : Z) (subj : ecs_term_id_t) (oper : ecs_oper_kind_t)
    : ecs_term_t :=
  mk_term pred (tid_entity_lit pred) subj tid_unset oper 0.

Definition rel (pred : Z) (subj obj : ecs_term_id_t)
    (oper : ecs_oper_kind_t) : ecs_term_t :=
  mk_term (ecs_pair pred
             (if term_id_is_variable obj then EcsWildcard
              else tid_entity obj))
          (tid_entity_lit pred) subj obj oper ECS_PAIR.

(** [Rel(., X), Foo(X), Bar(X)] *)
Definition rule_this_and_x : list ecs_term_t :=
  [ rel Rel tid_this (tid_variable "X") EcsAnd;
    tag Foo (tid_variable "X") EcsAnd;
    tag Bar (tid_variable "X") EcsAnd ].

(** [Foo(a), !Bar(a, X)] *)
Definition rule_not_object : list ecs_term_t :=
  [ tag Foo (tid_entity_lit a) EcsAnd;
    rel Bar (tid_entity_lit a) (tid_variable "X") EcsNot ].

(** [Foo(a), !Bar(X)] *)
Definition rule_not_subject : list ecs_term_t :=
  [ tag Foo (tid_entity_lit a) EcsAnd;
    tag Bar (tid_variable "X") EcsNot ].

(** [!Foo] *)
Definition rule_only_not : list ecs_term_t := [ tag Foo tid_this EcsNot ].

(** [Rel(., X0), Rel(., X1), ...]: [n] terms, [n + 1] variables. *)
Definition numbered_name (n : nat) : string :=
  String.append "X" (digits_of (S n) n EmptyString).

Definition rule_many_variables (n : nat) : list ecs_term_t :=
  map (fun i => rel Rel tid_this (tid_variable (numbered_name i)) EcsAnd)
      (seq 0 n).

(** [LocatedIn(., Y)] *)
Definition rule_located_any : list ecs_term_t :=
  [ rel LocatedIn tid_this (tid_variable "Y") EcsAnd ].

(** [Foo(.), LocatedIn(., b)] *)
Definition rule_foo_located_b : list ecs_term_t :=
  [ tag Foo tid_this EcsAnd;
    rel LocatedIn tid_this (tid_entity_lit b) EcsAnd ].

(** [LocatedIn(b, b)] *)
Definition rule_located_b_b : list ecs_term_t :=
  [ rel LocatedIn (tid_entity_lit b) (tid_entity_lit b) EcsAnd ].

(** Two allocators that leave different bytes in fresh memory. *)
Definition heap_zero : malloc_t :=
  mk_malloc (fun _ => mk_reg None 0 0 0) (fun _ => 0) (fun _ => 0).
Definition heap_junk : malloc_t :=
  mk_malloc (fun i => mk_reg (Some 2%nat) (Z.of_nat i) 1 a)
            (fun i => Z.of_nat i) (fun _ => a).

(** The compiled rule of a term list, and its iterator before the first
    call of [ecs_rule_next]. *)
Definition compiled (terms : list ecs_term_t) : ecs_rule_t :=
  match ecs_rule_init world terms with
  | Done rule => rule
  | _ => rule_of_terms terms
  end.

Definition iterator (rule : ecs_rule_t) (heap : malloc_t) : ecs_iter_t :=
  match ecs_rule_iter world rule heap with
  | Done it => it
  | _ => mk_iter [] [] [] [] (-1) false [] None 0 None 0 0
  end.

Definition operation (rule : ecs_rule_t) (i : nat) : ecs_rule_op_t :=
  nth i (operations rule) op_zero.

(** The interpreter loop, stopped after [n] operations. *)
Fixpoint advance (rule : ecs_rule_t) (n : nat) (redo : bool)
    (last_frame : Z) (it : ecs_iter_t) : option (bool * Z * ecs_iter_t) :=
  match n with
  | O => Some (redo, last_frame, it)
  | S n' =>
      match rule_step world rule 100 redo last_frame it with
      | Done (Continue redo' last_frame', it') =>
          advance rule n' redo' last_frame' it'
      | _ => None
      end
  end.

(** The iterator that the operation dispatched after [n] others is
    evaluated on, in the first call of [ecs_rule_next]. *)
Definition dispatched (rule : ecs_rule_t) (n : nat) : ecs_iter_t :=
  let it0 := init_subjects rule (iterator rule heap_junk) in
  match advance rule n false (-1) it0 with
  | Some (redo, last_frame, it) =>
      match zlookup (operations rule) (it_op it) with
      | Some op =>
          match push_frame_for rule op redo last_frame it with
          | Done (_, it') => it'
          | _ => it
          end
      | None => it
      end
  | None => it0
  end.

(** The filter that [pair_to_filter] resolves for an operation. *)
Definition resolved (rule : ecs_rule_t) (op : ecs_rule_op_t)
    (it : ecs_iter_t) : ecs_rule_filter_t :=
  match pair_to_filter world rule op (op_filter op) it with
  | Done (filter, _) => filter
  | _ => filter_zero
  end.

(** The yields of a full iteration: the entities matched for [.] and
    the value of variable [var]. *)
Definition bindings (terms : list ecs_term_t) (var : nat)
    : option (list (list Z * Z)) :=
  match run_rule world terms heap_zero 100 with
  | Done ys =>
      Some (map (fun y => (yield_entities world y,
                           nth var (y_variables y) 0)) ys)
  | _ => None
  end.

(** A world in which the builtin entities [EcsWildcard] and [EcsThis]
    are stored in a table, as the entities of an application are, with the fact
    [Rel(a, This)]. *)
Definition tables_this : list table_model :=
  [ mk_table [EcsTransitive; EcsTransitiveSelf; EcsFinal] [LocatedIn];
    mk_table [EcsFinal] [Rel];
    mk_table [Bar] [EcsWildcard; EcsThis];
    mk_table [ecs_pair Rel EcsThis] [a] ].

Definition world_this : ecs_world_t :=
  model_world tables_this (builtins ++ [LocatedIn; Bar; Rel; a]).

(** [Rel(., X), !LocatedIn(., X)] *)
Definition rule_rel_not_located : list ecs_term_t :=
  [ rel Rel tid_this (tid_variable "X") EcsAnd;
    rel LocatedIn tid_this (tid_variable "X") EcsNot ].
End Sample.

(** The operations that the loop of [ecs_rule_next] dispatches, in
    order, from a position in the program on: at most [n], up to a
    yield or the end of the program. *)
Fixpoint dispatched_ops {api : flecs_api} (world : ecs_world_t)
    (rule : ecs_rule_t) (n : nat) (redo : bool) (last_frame : Z)
    (it : ecs_iter_t) : list Z :=
  match n with
  | O => []
  | S n' =>
      it_op it ::
      match rule_step world rule 100 redo last_frame it with
      | Done (Continue redo' last_frame', it') =>
          if it_op it' =? -1 then []
          else dispatched_ops world rule n' redo' last_frame' it'
      | _ => []
      end
  end.

(** The comparator that the specification describes: kind ascending,
    depth ascending, occurrences descending, id descending. *)
Definition compare_four_keys (v1 v2 : ecs_rule_var_t) : Z :=
  if kind_value (var_kind v1) <? kind_value (var_kind v2) then -1
  else if kind_value (var_kind v1) >? kind_value (var_kind v2) then 1
  else if var_depth v1 <? var_depth v2 then -1
  else if var_depth v1 >? var_depth v2 then 1
  else if var_occurs v1 <? var_occurs v2 then 1
  else if var_occurs v1 >? var_occurs v2 then -1
  else (if var_id v1 <? var_id v2 then 1 else 0)
       - (if var_id v1 >? var_id v2 then 1 else 0).

(** The entity that [eval_with] takes as the subject of a transitive,
    inclusive pair: the literal of the operation, or the content of its
    input register when that register is of kind Entity. *)
Definition with_input (world : ecs_world_t) (rule : ecs_rule_t)
    (op : ecs_rule_op_t) (it : ecs_iter_t) (subj : Z) : Prop :=
  (r_in op = UINT8_MAX /\ op_subject op = subj)
  \/ (r_in op <> UINT8_MAX
      /\ (exists v, zlookup (variables rule) (r_in op) = Some v
                    /\ var_kind v = EcsRuleVarKindEntity)
      /\ exists reg,
           zlookup (registers it) (reg_index rule (op_frame op) (r_in op))
           = Some reg
           /\ reg_entity reg = subj
           /\ ecs_is_valid world subj = true).

(** The value a register has before any operation wrote it. *)
Definition unbound_reg {api : flecs_api} (reg : ecs_rule_reg_t) : Prop :=
  reg_entity reg = 0 \/ reg_entity reg = EcsWildcard.

(** The register of variable [i] in the first frame, as [ecs_rule_iter]
    leaves it. *)
Definition initial_reg {api : flecs_api} (v : ecs_rule_var_t)
    (reg : ecs_rule_reg_t) : Prop :=
  match var_kind v with
  | EcsRuleVarKindEntity => reg_entity reg = EcsWildcard
  | _ => reg = mk_reg None 0 0 0
  end.

(** ** Public functions on variables *)

(** [ecs_rule_var_count] *)
Definition ecs_rule_var_count (rule : ecs_rule_t) : Z := variable_count rule.

(** [ecs_rule_var_name]: [rule->variables[var_id].name]. *)
Definition ecs_rule_var_name (rule : ecs_rule_t) (var_id : Z)
    : crash string :=
  match zlookup (variables rule) var_id with
  | Some v => Done (var_name v)
  | None => Abort
  end.

(** [ecs_rule_var_is_entity] *)
Definition ecs_rule_var_is_entity (rule : ecs_rule_t) (var_id : Z)
    : crash bool :=
  match zlookup (variables rule) var_id with
  | Some v => Done (kind_eqb (var_kind v) EcsRuleVarKindEntity)
  | None => Abort
  end.

Section PublicVariables.
Context {api : flecs_api} (world : ecs_world_t) (rule : ecs_rule_t).

(** [ecs_rule_get_var]: the register of the last frame. *)
Definition ecs_rule_get_var (var_id : Z) : vm Z :=
  let* k := rule_var_kind rule var_id in
  if kind_eqb k EcsRuleVarKindEntity
  then entity_reg_get world rule (frame_count rule - 1) var_id
  else emit_ret 0.

(** [ecs_rule_set_var]; [is_valid] is [it->is_valid], which the
    iterator functions outside rules.c maintain.  The iterator is a rule
    iterator, so that [it->next == ecs_rule_next] holds.  A failed
    [ecs_check] leaves through the [error] label. *)
Definition ecs_rule_set_var (is_valid : bool) (var_id value : Z)
    : vm unit :=
  if var_id =? -1 then emit_ret tt else
  if value =? 0 then emit_ret tt else
  if is_valid then emit_ret tt else
  if negb (var_id <? variable_count rule) then emit_ret tt else
  entity_reg_set world rule 0 var_id value.
End PublicVariables.

(** ** Notions used by the properties of the compiler and of the
    interpreter *)

(** The test that the loop of [find_variable] makes on a variable. *)
Definition var_matches (kind : ecs_rule_var_kind_t) (name : string)
    (v : ecs_rule_var_t) : bool :=
  String.eqb name (var_name v)
  && (kind_eqb kind EcsRuleVarKindUnknown || kind_eqb kind (var_kind v)).

(** A computation that leaves the state as it found it. *)
Definition reads_only {S A} (m : stm S A) : Prop :=
  forall s a s', m s = Done (a, s') -> s' = s.

(** A computation that does not run out of fuel. *)
Definition never_stuck {S A} (m : stm S A) : Prop :=
  forall s, m s <> Stuck.

(** "The variable id is the location in the variable array": every
    variable sits at the position its id names, and its kind is Table
    or Entity. *)
Definition well_numbered (vars : list ecs_rule_var_t) : Prop :=
  forall i v, vars !! i = Some v ->
    var_id v = Z.of_nat i /\ var_kind v <> EcsRuleVarKindUnknown.

(** What is asked of the sort behind [ecs_qsort]: it returns elements of
    the array it was given. *)
Definition qsort_keeps_elements {api : flecs_api} : Prop :=
  forall cmp (l : list ecs_rule_var_t) x, x ∈ ecs_qsort cmp l -> x ∈ l.

(** The rules that the scan works on: the filter is the one given and
    the variable array is well numbered. *)
Definition scanned (terms : list ecs_term_t) (rule : ecs_rule_t) : Prop :=
  filter_terms rule = terms /\ well_numbered (variables rule).

(** Properties of the rule under construction that every step of the
    emitter keeps: a field written in an operation, an operation
    appended, a frame pushed, a Table or Entity variable created. *)
Record emitter_invariant (P : ecs_rule_t -> Prop) : Prop := {
  inv_update_op :
    forall rule i f,
      P rule -> P (set_operations (alter f i (operations rule)) rule);
  inv_create_operation :
    forall rule,
      P rule -> P (set_operations (operations rule ++ [op_zero]) rule);
  inv_push_frame :
    forall rule, P rule -> P (set_frame_count (frame_count rule + 1) rule);
  inv_create_variable :
    forall rule kind name,
      kind <> EcsRuleVarKindUnknown ->
      P rule -> P (fst (create_variable rule kind name))
}.

Definition keeps (P : ecs_rule_t -> Prop) {A} (m : emit A) : Prop :=
  forall st a st', P (fst st) -> m st = Done (a, st') -> P (fst st').

(** The register that Yield reads: the entity form of [.], else its
    table form, else none. *)
Definition yield_input (rule : ecs_rule_t) : Z :=
  match find_variable rule EcsRuleVarKindEntity "." with
  | Some v => id_at rule v
  | None =>
      match find_variable rule EcsRuleVarKindTable "." with
      | Some v => id_at rule v
      | None => UINT8_MAX
      end
  end.

(** A computation that keeps a property of the state. *)
Definition preserves {S A} (P : S -> Prop) (m : stm S A) : Prop :=
  forall s a s', P s -> m s = Done (a, s') -> P s'.

(** What [populate_iterator] leaves as it is, once the variables are
    copied: the registers, the operation contexts, the position in the
    program and the ids. *)
Definition yield_keeps (it0 it : ecs_iter_t) : Prop :=
  registers it = registers it0 /\ it_variables it = it_variables it0
  /\ op_ctx it = op_ctx it0 /\ it_op it = it_op it0
  /\ it_redo it = it_redo it0 /\ it_ids it = it_ids it0.

(** The value that [populate_iterator] stores in [it->variables] for
    variable [i]: the entity of its register in the frame of the yield
    for an Entity variable, 0 for any other. *)
Definition exposed (rule : ecs_rule_t) (frame : Z) (it : ecs_iter_t)
    (i : nat) (v : ecs_rule_var_t) (x : Z) : Prop :=
  if kind_eqb (var_kind v) EcsRuleVarKindEntity
  then exists reg,
         zlookup (registers it) (reg_index rule frame (Z.of_nat i))
         = Some reg /\ x = reg_entity reg
  else x = 0.

(** The indices of the registers of a frame in the flat register
    array. *)
Definition in_frame (rule : ecs_rule_t) (frame i : Z) : Prop :=
  frame * variable_count rule <= i < (frame + 1) * variable_count rule.

(** Two arrays of one length that agree everywhere but at index [i]. *)
Definition same_except {A} (l l' : list A) (i : Z) : Prop :=
  length l' = length l /\ forall j, j <> i -> zlookup l' j = zlookup l j.

(** What the evaluation of operation [op], the one at [op_index], may
    write in the iterator: the registers of the frame of the operation,
    the column, the id and the subject of its term, and its own
    context. *)
Record footprint (rule : ecs_rule_t) (op : ecs_rule_op_t) (op_index : Z)
    (it it' : ecs_iter_t) : Prop := mk_footprint {
  fp_registers :
    length (registers it') = length (registers it)
    /\ forall i, ~ in_frame rule (op_frame op) i ->
         zlookup (registers it') i = zlookup (registers it) i;
  fp_columns :
    same_except (columns it) (columns it')
                (col_index rule (op_frame op) (op_term op));
  fp_op_ctx : same_except (op_ctx it) (op_ctx it') op_index;
  fp_ids : same_except (it_ids it) (it_ids it') (op_term op);
  fp_subjects :
    match it_subjects it, it_subjects it' with
    | Some s, Some s' => same_except s s' (op_term op)
    | None, None => True
    | _, _ => False
    end;
  fp_rest :
    it_variables it' = it_variables it /\ it_op it' = it_op it
    /\ it_redo it' = it_redo it /\ it_columns it' = it_columns it
    /\ it_table it' = it_table it /\ it_offset it' = it_offset it
    /\ it_count it' = it_count it
}.

(** A computation that stays within the footprint of an operation. *)
Definition within_footprint (rule : ecs_rule_t) (op : ecs_rule_op_t)
    (op_index : Z) {A} (m : vm A) : Prop :=
  forall s a s', m s = Done (a, s') -> footprint rule op op_index s s'.

(** * Properties *)

Lemma kind_eqb_eq a b : kind_eqb a b = true <-> a = b.
Proof. destruct a, b; cbv; split; congruence. Qed.

Lemma lift_not_failed {E A} (m : crash A) (e : E) : lift m <> Failed e.
Proof. destruct m as [a|[]| |]; discriminate. Qed.

Lemma lift_done {E A} (m : crash A) (a : A) :
  @lift E A m = Done a <-> m = Done a.
Proof. destruct m as [x|[]| |]; simpl; split; congruence. Qed.

(** Errors of a loop are errors of its body, under an invariant of the
    state. *)
Lemma for_each_failed {E A S} (I : S -> Prop) (Q : E -> Prop)
    (body : S -> A -> outcome E S) :
  (forall s a s', I s -> body s a = Done s' -> I s') ->
  (forall s a e, I s -> body s a = Failed e -> Q e) ->
  forall l s e, I s -> for_each body l s = Failed e -> Q e.
Proof.
  intros Hpres Hfail l.
  induction l as [|a l IH]; intros s e Hs H; simpl in H.
  - discriminate.
  - destruct (body s a) as [s'| e' | |] eqn:Hb; simpl in H; try discriminate.
    + eapply IH; [eapply Hpres; eauto | exact H].
    + inversion H; subst. eapply Hfail; eauto.
Qed.

Lemma for_each_invariant {E A S} (I : S -> Prop)
    (body : S -> A -> outcome E S) :
  (forall s a s', I s -> body s a = Done s' -> I s') ->
  forall l s r, I s -> for_each body l s = Done r -> I r.
Proof.
  intros Hpres l.
  induction l as [|a l IH]; intros s r Hs H; simpl in H.
  - inversion H; subst; exact Hs.
  - destruct (body s a) as [s'| e' | |] eqn:Hb; simpl in H; try discriminate.
    eapply IH; [eapply Hpres; eauto | exact H].
Qed.

(** ** Variable lookup *)

Section FindVariable.

(** The variables that [ecs_rule_find_var] may return for [name]. *)
Definition is_entity_named (name : string) (v : ecs_rule_var_t) : bool :=
  String.eqb (get_var_name name) (var_name v)
  && kind_eqb (var_kind v) EcsRuleVarKindEntity.

Lemma find_variable_from_entity (name : string) :
  forall vars i,
    match find_variable_from vars i EcsRuleVarKindEntity name with
    | Some j =>
        (i <= j)%nat /\
        exists v, vars !! (j - i)%nat = Some v /\
                  List.find (fun v => String.eqb name (var_name v)
                                      && kind_eqb (var_kind v)
                                           EcsRuleVarKindEntity) vars
                  = Some v
    | None =>
        List.find (fun v => String.eqb name (var_name v)
                            && kind_eqb (var_kind v) EcsRuleVarKindEntity)
                  vars = None
    end.
Proof.
  induction vars as [|v vars IH]; intros i;
    cbn [find_variable_from List.find].
  - reflexivity.
  - assert (Hk : kind_eqb EcsRuleVarKindEntity EcsRuleVarKindUnknown
                 || kind_eqb EcsRuleVarKindEntity (var_kind v)
                 = kind_eqb (var_kind v) EcsRuleVarKindEntity)
      by (destruct (var_kind v); reflexivity).
    rewrite Hk.
    destruct (String.eqb name (var_name v)
              && kind_eqb (var_kind v) EcsRuleVarKindEntity) eqn:Hm.
    + split; [lia|]. exists v. rewrite Nat.sub_diag. split; reflexivity.
    + specialize (IH (S i)).
      destruct (find_variable_from vars (S i) EcsRuleVarKindEntity name)
        as [j|]; [|exact IH].
      destruct IH as [Hle [u [Hu Hf]]].
      split; [lia|]. exists u. split; [|exact Hf].
      replace (j - i)%nat with (S (j - S i)) by lia. exact Hu.
Qed.

End FindVariable.

(** C10. [ecs_rule_find_var] resolves Entity-kind variables only: it
    returns the id of the first Entity-kind variable whose name is the
    looked-up name (with [This] read as [.]), and -1 when there is none;
    in particular a name that only has a Table-kind variable is answered
    with -1. *)
Theorem ecs_rule_find_var_entity_only (rule : ecs_rule_t) (name : string) :
  ecs_rule_find_var rule name =
    match List.find (is_entity_named name) (variables rule) with
    | Some v => var_id v
    | None => -1
    end
  /\ ((forall v, In v (variables rule) ->
                 var_name v = get_var_name name ->
                 var_kind v <> EcsRuleVarKindEntity) ->
      ecs_rule_find_var rule name = -1).
Proof.
  assert (Hmain : ecs_rule_find_var rule name =
    match List.find (is_entity_named name) (variables rule) with
    | Some v => var_id v
    | None => -1
    end).
  { unfold ecs_rule_find_var, find_variable, is_entity_named.
    pose proof (find_variable_from_entity (get_var_name name)
                  (variables rule) 0) as H.
    destruct (find_variable_from (variables rule) 0 EcsRuleVarKindEntity
                (get_var_name name)) as [j|].
    - destruct H as [_ [v [Hv Hf]]].
      rewrite Nat.sub_0_r in Hv. rewrite Hv, Hf. reflexivity.
    - rewrite H. reflexivity. }
  split; [exact Hmain|].
  intros Hnone. rewrite Hmain.
  destruct (List.find (is_entity_named name) (variables rule)) as [v|] eqn:Hf;
    [|reflexivity].
  apply List.find_some in Hf. destruct Hf as [Hin Hp].
  unfold is_entity_named in Hp. apply andb_true_iff in Hp.
  destruct Hp as [Hn Hk].
  apply String.eqb_eq in Hn. apply kind_eqb_eq in Hk.
  exfalso. eapply Hnone; eauto.
Qed.

(** A rule whose variable [X] only exists as a table: the lookup of [X]
    fails, although the table variable is there. *)
Lemma ecs_rule_find_var_entity_only_witness :
  let rule :=
    set_variables
      [mk_var EcsRuleVarKindTable "X" 0 1 0 false;
       mk_var EcsRuleVarKindEntity "Y" 1 0 0 false] (rule_of_terms []) in
  ecs_rule_find_var rule "X" = -1 /\ ecs_rule_find_var rule "Y" = 1.
Proof.
  intros rule. split.
  - apply (ecs_rule_find_var_entity_only rule "X").
    intros v Hin Hname.
    destruct Hin as [<-|[<-|[]]]; simpl in *; [discriminate | discriminate].
  - reflexivity.
Defined.

(** ** Variable scanning *)

Section ScanProperties.
Context {api : flecs_api}.

(** The counter [subject_count] and the candidate [this_var] are never
    assigned in the loop that collects the subjects. *)
Definition scan_locals_untouched (st : scan_roots_t) : Prop :=
  sc_subject_count st = 0 /\ sc_this_var st = UINT8_MAX.

Lemma scan_subject_done st term st' :
  scan_locals_untouched st ->
  scan_subject st term = Done st' ->
  scan_locals_untouched st'.
Proof.
  intros [Hc Ht]. unfold scan_subject.
  destruct (term_id_is_variable (term_subj_id term));
    [|intros H; inversion H; subst; split; assumption].
  destruct (find_variable (sc_rule st) EcsRuleVarKindTable
              (term_id_var_name (term_subj_id term))) as [subj|].
  - simpl.
    match goal with |- context [if ?c then _ else _] => destruct c end;
      intros H; inversion H; subst; split; assumption.
  - destruct (create_variable (sc_rule st) EcsRuleVarKindTable
                (Some (term_id_var_name (term_subj_id term))))
      as [rule subj].
    destruct (sc_subject_count st >=? ECS_RULE_MAX_VARIABLE_COUNT);
      simpl; [discriminate|].
    match goal with |- context [if ?c then _ else _] => destruct c end;
      intros H; inversion H; subst; split; assumption.
Qed.

Lemma scan_subject_never_fails st term e :
  scan_locals_untouched st ->
  scan_subject st term <> Failed e.
Proof.
  intros [Hc Ht]. unfold scan_subject.
  destruct (term_id_is_variable (term_subj_id term)); [|discriminate].
  destruct (find_variable (sc_rule st) EcsRuleVarKindTable
              (term_id_var_name (term_subj_id term))) as [subj|].
  - simpl.
    match goal with |- context [if ?c then _ else _] => destruct c end;
      discriminate.
  - destruct (create_variable (sc_rule st) EcsRuleVarKindTable
                (Some (term_id_var_name (term_subj_id term))))
      as [rule subj].
    rewrite Hc. simpl.
    match goal with |- context [if ?c then _ else _] => destruct c end;
      discriminate.
Qed.

Lemma scan_roots_never_fails rule e : scan_roots rule <> Failed e.
Proof.
  unfold scan_roots. intros H.
  eapply (for_each_failed scan_locals_untouched (fun _ => False)) in H;
    [exact H | | | split; reflexivity].
  - intros s a s' Hs Hd. eapply scan_subject_done; eauto.
  - intros s a e' Hs Hf. eapply scan_subject_never_fails; eauto.
Qed.

Lemma scan_roots_locals rule st :
  scan_roots rule = Done st -> scan_locals_untouched st.
Proof.
  unfold scan_roots. intros H.
  eapply (for_each_invariant scan_locals_untouched) in H;
    [exact H | | split; reflexivity].
  intros s a s' Hs Hd. eapply scan_subject_done; eauto.
Qed.

(** The root is the most frequent subject variable, whatever the names
    of the subjects. *)
Lemma scan_roots_elects_max_occur rule st :
  scan_roots rule = Done st ->
  elect_root (sc_this_var st) (sc_max_occur_var st) =
    if sc_max_occur_var st =? UINT8_MAX then None
    else Some (sc_max_occur_var st).
Proof.
  intros H. apply scan_roots_locals in H. destruct H as [_ Ht].
  rewrite Ht. reflexivity.
Qed.

Definition is_scan_error (e : rule_error_t) : Prop :=
  match e with
  | ErrUnconstrained _ => True
  | ErrMissingPredicateVariable _ => True
  | ErrMissingObjectVariable _ => True
  | _ => False
  end.

Lemma check_unconstrained_errors rule e :
  check_unconstrained rule = Failed e -> is_scan_error e.
Proof.
  unfold check_unconstrained. intros H.
  eapply (for_each_failed (fun _ => True) is_scan_error) in H;
    [exact H | auto | | exact I].
  intros s a e' _. destruct (var_depth a =? UINT8_MAX); [|discriminate].
  intros Hf; inversion Hf; exact I.
Qed.

Lemma check_not_terms_errors rule e :
  check_not_terms rule = Failed e -> is_scan_error e.
Proof.
  unfold check_not_terms. intros H.
  eapply (for_each_failed (fun _ => True) is_scan_error) in H;
    [exact H | auto | | exact I].
  intros s a e' _.
  destruct (negb (is_not (term_oper a))); [discriminate|].
  destruct (is_null (term_pred rule a)
            && term_id_is_variable (term_pred_id a));
    [intros Hf; inversion Hf; exact I|].
  destruct (is_null (term_obj rule a)
            && term_id_is_variable (term_obj_id a));
    [intros Hf; inversion Hf; exact I | discriminate].
Qed.

Lemma scan_variables_order_errors rule e :
  scan_variables_order rule = Failed e -> is_scan_error e.
Proof.
  unfold scan_variables_order.
  destruct (scan_roots rule) as [st|e'| |] eqn:Hs; simpl;
    try discriminate.
  - destruct (elect_root (sc_this_var st) (sc_max_occur_var st));
      [|discriminate].
    match goal with
    | |- context [lift ?m] =>
        destruct m as [[r d]|[]| |]; simpl; try discriminate
    end.
    match goal with
    | |- context [check_unconstrained ?r] =>
        destruct (check_unconstrained r) as [u|e1| |] eqn:Hu; simpl;
          try discriminate
    end.
    + match goal with
      | |- context [check_not_terms ?r] =>
          destruct (check_not_terms r) as [u'|e2| |] eqn:Hn; simpl;
            try discriminate
      end.
      intros H; inversion H; subst.
      eapply check_not_terms_errors; eauto.
    + intros H; inversion H; subst.
      eapply check_unconstrained_errors; eauto.
  - exfalso. eapply scan_roots_never_fails; eauto.
Qed.

Lemma scan_variables_errors rule e :
  scan_variables rule = Failed e -> is_scan_error e.
Proof.
  unfold scan_variables.
  destruct (scan_variables_order rule) as [[r root]|e'| |] eqn:Ho; simpl;
    try discriminate.
  - destruct root; discriminate.
  - intros H; inversion H; subst.
    eapply scan_variables_order_errors; eauto.
Qed.

Lemma ecs_rule_init_errors world terms e :
  ecs_rule_init world terms = Failed e ->
  (e = ErrNoTerms /\ terms = [])
  \/ (e = ErrOnlyNot /\ terms <> []
      /\ forallb (fun term => is_not (term_oper term)) terms = true)
  \/ (is_scan_error e /\ terms <> []
      /\ forallb (fun term => is_not (term_oper term)) terms = false).
Proof.
  unfold ecs_rule_init.
  destruct terms as [|t terms].
  - intros H; inversion H; left; split; reflexivity.
  - assert (Hc : (term_count (rule_of_terms (t :: terms)) =? 0) = false).
    { apply Z.eqb_neq. unfold term_count. simpl length. lia. }
    rewrite Hc.
    destruct (forallb (fun term => is_not (term_oper term)) (t :: terms))
      eqn:Hall.
    + intros H; inversion H. right; left.
      split; [reflexivity|]. split; [discriminate | reflexivity].
    + destruct (scan_variables (rule_of_terms (t :: terms)))
        as [r|e'| |] eqn:Hs; simpl; try discriminate.
      * match goal with
        | |- context [lift ?m] =>
            destruct m as [[u st]|[]| |]; simpl; discriminate
        end.
      * intros H; inversion H; subst. right; right.
        split; [eapply scan_variables_errors; eauto|].
        split; [discriminate | reflexivity].
Qed.
End ScanProperties.

(** C2. Root election does not give [.] precedence.  In the rule
    [Rel(., X), Foo(X), Bar(X)] the variable [.] occurs as a subject, yet
    the elected root is [X] (index 1), which gets depth 0, and [.] gets
    depth 1: [this_var] is never assigned, so the most frequent subject
    variable always wins. *)
Theorem root_election_ignores_this :
  exists rule,
    scan_variables_order (api := sample_api)
      (rule_of_terms Sample.rule_this_and_x) = Done (rule, Some 1%nat)
    /\ map (fun v => (var_name v, var_kind v, var_occurs v, var_depth v))
           (variables rule)
       = [ (".", EcsRuleVarKindTable, 1, 1);
           ("X", EcsRuleVarKindTable, 2, 0);
           ("X", EcsRuleVarKindEntity, 0, 255) ].
Proof.
  eexists. split; vm_compute; reflexivity.
Qed.

(** The error "too many variables in rule" is unreachable: the counter it
    tests stays 0. *)
Lemma ecs_rule_init_never_too_many {api : flecs_api} world terms :
  ecs_rule_init world terms <> Failed ErrTooManyVariables.
Proof.
  intros H. apply ecs_rule_init_errors in H.
  destruct H as [[H _]|[[H _]|[H _]]]; try discriminate. exact H.
Qed.

(** C3. A term list with more than 256 distinct variables is not rejected
    with "too many variables in rule".  For the 257 terms
    [Rel(., X0), ..., Rel(., X256)] variable scanning succeeds and leaves
    258 variables in the rule, and [ecs_rule_init] does not report the
    error. *)
Theorem too_many_variables_not_reported :
  (exists rule,
     scan_variables (api := sample_api)
       (rule_of_terms (Sample.rule_many_variables 257)) = Done rule
     /\ variable_count rule = 258)
  /\ ecs_rule_init (api := sample_api) Sample.world
       (Sample.rule_many_variables 257) <> Failed ErrTooManyVariables.
Proof.
  split.
  - eexists. split; vm_compute; reflexivity.
  - apply ecs_rule_init_never_too_many.
Qed.

(** Ties on kind, depth and occurrences are never broken by the id. *)
Lemma compare_variable_tie (v1 v2 : ecs_rule_var_t) :
  var_kind v1 = var_kind v2 ->
  var_depth v1 = var_depth v2 ->
  var_occurs v1 = var_occurs v2 ->
  compare_variable v1 v2 = -1.
Proof.
  intros Hk Hd Ho. unfold compare_variable.
  rewrite Hk, Hd, Ho.
  rewrite !Z.ltb_irrefl.
  assert (Hgt : forall x, (x >? x) = false)
    by (intros x; rewrite Z.gtb_ltb; apply Z.ltb_irrefl).
  rewrite !Hgt. reflexivity.
Qed.

(** C4. The comparator does not order by id.  Two table variables of
    equal depth and occurrence count with ids 0 and 1 compare as -1 in
    both orders, whereas the four-key order (id descending) puts the
    variable with id 1 first: it gives 1 and -1. *)
Theorem compare_variable_ignores_id :
  let v1 := mk_var EcsRuleVarKindTable "X" 0 1 0 false in
  let v2 := mk_var EcsRuleVarKindTable "Y" 1 1 0 false in
  compare_variable v1 v2 = -1 /\ compare_variable v2 v1 = -1
  /\ compare_four_keys v1 v2 = 1 /\ compare_four_keys v2 v1 = -1.
Proof.
  repeat split; reflexivity.
Qed.

(** C6. The check of the variables of Not terms is skipped for a rule
    without subject variables.  In [Foo(a), !Bar(a, X)] the variable [X]
    appears in no other term, yet variable scanning succeeds without an
    error and without registering [X], and program emission then
    dereferences the missing variable.  In [Foo(a), !Bar(X)] the rule is
    compiled, with the variable [X] introduced by the Not term alone. *)
Theorem not_term_variable_check_skipped :
  scan_variables (api := sample_api) (rule_of_terms Sample.rule_not_object)
    = Done (rule_of_terms Sample.rule_not_object)
  /\ ecs_rule_init (api := sample_api) Sample.world Sample.rule_not_object
     = Abort
  /\ exists rule,
       ecs_rule_init (api := sample_api) Sample.world
         Sample.rule_not_subject = Done rule
       /\ map (fun v => (var_name v, var_kind v)) (variables rule)
          = [ ("X", EcsRuleVarKindTable); ("_1", EcsRuleVarKindEntity) ].
Proof.
  split; [vm_compute; reflexivity|].
  split; [vm_compute; reflexivity|].
  eexists. split; vm_compute; reflexivity.
Qed.

Lemma forallb_is_not (terms : list ecs_term_t) :
  forallb (fun term => is_not (term_oper term)) terms = true
  <-> Forall (fun term => term_oper term = EcsNot) terms.
Proof.
  rewrite forallb_forall, List.Forall_forall.
  split; intros H t Ht; specialize (H t Ht);
    destruct (term_oper t); simpl in *; congruence.
Qed.

(** C7. [ecs_rule_init] reports "rule has no terms" exactly for a filter
    without terms and "rule cannot only have terms with Not operator"
    exactly for a non-empty filter whose terms all carry Not; in both
    shapes no rule is returned. *)
Theorem ecs_rule_init_degenerate {api : flecs_api} (world : ecs_world_t)
    (terms : list ecs_term_t) :
  (terms = [] <-> ecs_rule_init world terms = Failed ErrNoTerms)
  /\ ((terms <> [] /\ Forall (fun term => term_oper term = EcsNot) terms)
      <-> ecs_rule_init world terms = Failed ErrOnlyNot)
  /\ ((terms = [] \/ Forall (fun term => term_oper term = EcsNot) terms) ->
      forall rule, ecs_rule_init world terms <> Done rule).
Proof.
  assert (Hempty : ecs_rule_init world [] = Failed ErrNoTerms)
    by reflexivity.
  assert (Hnot : terms <> [] ->
                 Forall (fun term => term_oper term = EcsNot) terms ->
                 ecs_rule_init world terms = Failed ErrOnlyNot).
  { intros Hne Hall. apply forallb_is_not in Hall.
    unfold ecs_rule_init.
    destruct terms as [|t terms]; [congruence|].
    assert (Hc : (term_count (rule_of_terms (t :: terms)) =? 0) = false).
    { apply Z.eqb_neq. unfold term_count. simpl length. lia. }
    rewrite Hc, Hall. reflexivity. }
  split; [|split].
  - split.
    + intros ->. exact Hempty.
    + intros H. apply ecs_rule_init_errors in H.
      destruct H as [[_ H]|[[H _]|[H _]]];
        [exact H | discriminate | destruct H].
  - split.
    + intros [Hne Hall]. apply Hnot; assumption.
    + intros H. apply ecs_rule_init_errors in H.
      destruct H as [[H _]|[[_ [Hne Hall]]|[H _]]];
        [discriminate | | destruct H].
      split; [exact Hne | apply forallb_is_not; exact Hall].
  - intros [->|Hall] rule H.
    + rewrite Hempty in H. discriminate.
    + destruct terms as [|t terms].
      * rewrite Hempty in H. discriminate.
      * rewrite Hnot in H; [discriminate | discriminate | exact Hall].
Qed.

(** The empty rule and the rule [!Foo]. *)
Lemma ecs_rule_init_degenerate_witness :
  ecs_rule_init (api := sample_api) Sample.world [] = Failed ErrNoTerms
  /\ ecs_rule_init (api := sample_api) Sample.world Sample.rule_only_not
     = Failed ErrOnlyNot.
Proof.
  split.
  - apply (proj1 (ecs_rule_init_degenerate (api := sample_api)
                    Sample.world [])).
    reflexivity.
  - apply (proj1 (proj2 (ecs_rule_init_degenerate (api := sample_api)
                           Sample.world Sample.rule_only_not))).
    split; [discriminate|].
    repeat constructor.
Defined.

(** ** Register frames *)

Lemma zlookup_nat {A} (l : list A) (i : Z) :
  0 <= i -> zlookup l i = l !! Z.to_nat i.
Proof.
  intros H. unfold zlookup.
  destruct (i <? 0) eqn:E; [apply Z.ltb_lt in E; lia | reflexivity].
Qed.

Lemma copy_within_spec {A} (l l' : list A) (src dst n : Z) :
  copy_within l src dst n = Some l' ->
  length l' = length l
  /\ (forall k, 0 <= k < n -> zlookup l' (dst + k) = zlookup l (src + k))
  /\ (forall i, i < dst \/ dst + n <= i -> zlookup l' i = zlookup l i).
Proof.
  unfold copy_within.
  destruct ((0 <=? src) && (0 <=? dst) && (0 <=? n)
            && (src + n <=? Z.of_nat (length l))
            && (dst + n <=? Z.of_nat (length l))) eqn:Hc; [|discriminate].
  repeat (apply andb_true_iff in Hc; destruct Hc as [Hc ?]).
  repeat match goal with
         | H : (_ <=? _) = true |- _ => apply Z.leb_le in H
         end.
  intros H'; inversion H'; subst l'; clear H'.
  assert (Hlen : length (take (Z.to_nat n) (drop (Z.to_nat src) l))
                 = Z.to_nat n).
  { rewrite length_take, length_drop. lia. }
  split; [apply length_inserts|]. split.
  - intros k Hk.
    rewrite !zlookup_nat by lia.
    rewrite list_lookup_inserts by (rewrite ?Hlen; lia).
    rewrite lookup_take_lt by lia.
    rewrite lookup_drop. f_equal. lia.
  - intros i Hi. unfold zlookup.
    destruct (i <? 0) eqn:E; [reflexivity|].
    apply Z.ltb_ge in E.
    destruct Hi as [Hi|Hi].
    + apply list_lookup_inserts_lt. lia.
    + apply list_lookup_inserts_ge. rewrite Hlen. lia.
Qed.


Lemma push_registers_spec rule cur next it it' :
  push_registers rule cur next it = Done (tt, it') ->
  columns it' = columns it
  /\ length (registers it') = length (registers it)
  /\ (forall r, 0 <= r < variable_count rule ->
        zlookup (registers it') (reg_index rule next r)
        = zlookup (registers it) (reg_index rule cur r))
  /\ (forall i, i < next * variable_count rule
                \/ (next + 1) * variable_count rule <= i ->
        zlookup (registers it') i = zlookup (registers it) i).
Proof.
  unfold push_registers.
  destruct (variable_count rule =? 0) eqn:Hv.
  - intros H; inversion H; subst. apply Z.eqb_eq in Hv.
    split; [reflexivity|]. split; [reflexivity|].
    split; [intros; lia | reflexivity].
  - unfold emit_bind, get_it, deref, modify_it, emit_ret, emit_abort.
    simpl.
    destruct (copy_within (registers it) (cur * variable_count rule)
                (next * variable_count rule) (variable_count rule))
      as [regs|] eqn:Hc; simpl; [|discriminate].
    intros H; inversion H; subst; clear H. simpl.
    apply copy_within_spec in Hc. destruct Hc as [Hl [Hin Hout]].
    split; [reflexivity|]. split; [exact Hl|]. split.
    + intros r Hr. unfold reg_index. apply Hin. exact Hr.
    + intros i Hi. apply Hout. lia.
Qed.







(** ** Unbound registers *)

Lemma zinsert_some {A} (l : list A) (i : Z) (a : A) :
  0 <= i < Z.of_nat (length l) ->
  zinsert i a l = Some (<[Z.to_nat i := a]> l).
Proof.
  intros [H1 H2]. unfold zinsert.
  apply Z.leb_le in H1. apply Z.ltb_lt in H2. rewrite H1, H2. reflexivity.
Qed.

(** A sequence of stateful steps, one per element of a list. *)
Lemma fold_steps_invariant {S A} (g : stm S unit -> A -> stm S unit)
    (f : A -> stm S unit) (I : nat -> S -> Prop) (l : list A)
    (m : stm S unit) (s0 s1 : S) :
  (forall acc a, g acc a = emit_bind acc (fun _ => f a)) ->
  (forall k a s, l !! k = Some a -> I k s ->
                 exists s', f a s = Done (tt, s') /\ I (Datatypes.S k) s') ->
  m s0 = Done (tt, s1) -> I 0%nat s1 ->
  exists s', fold_left g l m s0 = Done (tt, s') /\ I (length l) s'.
Proof.
  intros Hg. revert s0 s1.
  induction l as [|a l IH] using rev_ind; intros s0 s1 Hf Hm H0.
  - exists s1. split; [exact Hm | exact H0].
  - rewrite fold_left_app. simpl. rewrite Hg.
    destruct (IH s0 s1) as [s' [Hs' Hi]]; [|exact Hm|exact H0|].
    { intros k x s Hk. apply Hf.
      rewrite lookup_app_l; [exact Hk|].
      apply lookup_lt_Some in Hk. exact Hk. }
    destruct (Hf (length l) a s') as [s'' [Hs'' Hi'']]; [|exact Hi|].
    { rewrite lookup_app_r by lia. rewrite Nat.sub_diag. reflexivity. }
    exists s''. split.
    + unfold emit_bind at 1. rewrite Hs'. simpl. exact Hs''.
    + rewrite length_app. simpl. rewrite Nat.add_1_r. exact Hi''.
Qed.

Section Unbound.
Context {api : flecs_api} (world : ecs_world_t) (rule : ecs_rule_t).

Lemma entity_reg_get_unbound (frame r : Z) (it : ecs_iter_t)
    (reg : ecs_rule_reg_t) :
  ecs_is_valid world EcsWildcard = true ->
  zlookup (registers it) (reg_index rule frame r) = Some reg ->
  unbound_reg reg ->
  entity_reg_get world rule frame r it = Done (EcsWildcard, it).
Proof.
  intros Hv Hl Hu.
  unfold entity_reg_get, get_reg, emit_bind, get_it, deref, emit_ret.
  simpl. rewrite Hl. simpl.
  destruct Hu as [-> | ->]; [reflexivity|].
  destruct (EcsWildcard =? 0); [reflexivity|].
  rewrite Hv. reflexivity.
Qed.

Lemma initial_reg_unbound v reg : initial_reg v reg -> unbound_reg reg.
Proof.
  unfold initial_reg, unbound_reg.
  destruct (var_kind v); intros H; [subst; left; reflexivity | right; exact H
                                   | subst; left; reflexivity].
Qed.

Lemma init_register_step (i : nat) (v : ecs_rule_var_t) (it : ecs_iter_t) :
  ecs_is_valid world EcsWildcard = true ->
  variables rule !! i = Some v ->
  var_kind v <> EcsRuleVarKindUnknown ->
  (i < length (registers it))%nat ->
  exists it',
    (if kind_eqb (var_kind v) EcsRuleVarKindEntity
     then entity_reg_set world rule 0 (Z.of_nat i) EcsWildcard
     else table_reg_set rule 0 (Z.of_nat i) None) it = Done (tt, it')
    /\ length (registers it') = length (registers it)
    /\ (exists reg, registers it' !! i = Some reg /\ initial_reg v reg)
    /\ (forall j, j <> i -> registers it' !! j = registers it !! j).
Proof.
  intros Hv Hi Hk Hlen.
  assert (Hidx : reg_index rule 0 (Z.of_nat i) = Z.of_nat i)
    by (unfold reg_index; lia).
  assert (Hkind : rule_var_kind rule (Z.of_nat i) it = Done (var_kind v, it)).
  { unfold rule_var_kind, emit_bind, deref, emit_ret.
    rewrite zlookup_nat by lia. rewrite Nat2Z.id, Hi. reflexivity. }
  destruct (registers it !! i) as [reg|] eqn:Hreg;
    [|apply lookup_ge_None in Hreg; lia].
  destruct (var_kind v) eqn:Ek; [| |congruence].
  - (* table *)
    simpl.
    unfold table_reg_set, emit_bind. rewrite Hkind. simpl.
    unfold set_reg, emit_bind, get_it, deref, modify_it, emit_ret.
    simpl. rewrite Hidx.
    rewrite zinsert_some by lia. simpl. rewrite Nat2Z.id.
    eexists. split; [reflexivity|]. simpl.
    split; [apply length_insert|]. split.
    + exists (mk_reg None 0 0 0). split.
      * apply list_lookup_insert_eq. exact Hlen.
      * unfold initial_reg. rewrite Ek. reflexivity.
    + intros j Hj. apply list_lookup_insert_ne. congruence.
  - (* entity *)
    simpl.
    unfold entity_reg_set, emit_bind. rewrite Hkind. simpl.
    rewrite Hv.
    unfold get_reg, set_reg, emit_bind, get_it, deref, modify_it, emit_ret.
    simpl. rewrite Hidx.
    rewrite zlookup_nat by lia. rewrite Nat2Z.id, Hreg. simpl.
    rewrite zinsert_some by lia. simpl. rewrite Nat2Z.id.
    eexists. split; [reflexivity|]. simpl.
    split; [apply length_insert|]. split.
    + eexists. split.
      * apply list_lookup_insert_eq. exact Hlen.
      * unfold initial_reg. rewrite Ek. reflexivity.
    + intros j Hj. apply list_lookup_insert_ne. congruence.
Qed.
End Unbound.

Section UnboundIter.
Context {api : flecs_api} (world : ecs_world_t) (rule : ecs_rule_t).

Lemma init_column_step (i : nat) (it : ecs_iter_t) :
  (i < length (columns it))%nat ->
  exists it',
    set_col rule 0 (Z.of_nat i) (-1) it = Done (tt, it')
    /\ length (columns it') = length (columns it)
    /\ registers it' = registers it.
Proof.
  intros Hlen.
  unfold set_col, emit_bind, get_it, deref, modify_it, emit_ret.
  simpl.
  assert (Hidx : col_index rule 0 (Z.of_nat i) = Z.of_nat i)
    by (unfold col_index; lia).
  rewrite Hidx, zinsert_some by lia. simpl.
  eexists. split; [reflexivity|]. simpl.
  split; [apply length_insert | reflexivity].
Qed.

Lemma ecs_rule_iter_initial (heap : malloc_t) :
  ecs_is_valid world EcsWildcard = true ->
  0 < operation_count rule ->
  Forall (fun v => var_kind v <> EcsRuleVarKindUnknown) (variables rule) ->
  exists it,
    ecs_rule_iter world rule heap = Done it
    /\ forall i v, variables rule !! i = Some v ->
         exists reg, registers it !! i = Some reg /\ initial_reg v reg.
Proof.
  intros Hvalid Hops Hkinds.
  unfold ecs_rule_iter.
  destruct (operation_count rule =? 0) eqn:E;
    [apply Z.eqb_eq in E; lia|].
  set (nreg := Z.to_nat (operation_count rule * variable_count rule)).
  set (ncol := Z.to_nat (operation_count rule * term_count rule)).
  set (it0 := mk_iter _ _ _ _ _ _ _ _ _ _ _ _).
  assert (Hnreg : (length (variables rule) <= nreg)%nat).
  { unfold nreg, variable_count. nia. }
  assert (Hncol : (length (filter_terms rule) <= ncol)%nat).
  { unfold ncol, term_count. nia. }
  destruct (fold_steps_invariant
              (fun acc i => acc ;;; set_col rule 0 (Z.of_nat i) (-1))
              (fun i => set_col rule 0 (Z.of_nat i) (-1))
              (fun _ it => length (columns it) = ncol
                           /\ registers it = registers it0)
              (seq 0 (length (filter_terms rule)))
              (emit_ret tt) it0 it0) as [it1 [Hcols [_ Hregs]]].
  { reflexivity. }
  { intros k i it Hk [Hl Hr].
    apply lookup_seq in Hk. destruct Hk as [-> Hk]. simpl.
    destruct (init_column_step k it) as [it' [H1 [H2 H3]]]; [lia|].
    exists it'. split; [exact H1|].
    split; [rewrite H2; exact Hl | rewrite H3; exact Hr]. }
  { reflexivity. }
  { split; [|reflexivity]. unfold it0. simpl.
    rewrite length_map, length_seq. reflexivity. }
  destruct (fold_steps_invariant
              (fun acc '(i, var) =>
                 acc ;;;
                 if kind_eqb (var_kind var) EcsRuleVarKindEntity
                 then entity_reg_set world rule 0 (Z.of_nat i) EcsWildcard
                 else table_reg_set rule 0 (Z.of_nat i) None)
              (fun p : nat * ecs_rule_var_t =>
                 if kind_eqb (var_kind p.2) EcsRuleVarKindEntity
                 then entity_reg_set world rule 0 (Z.of_nat p.1) EcsWildcard
                 else table_reg_set rule 0 (Z.of_nat p.1) None)
              (fun k it =>
                 length (registers it) = nreg
                 /\ forall i v, (i < k)%nat -> variables rule !! i = Some v ->
                      exists reg, registers it !! i = Some reg
                                  /\ initial_reg v reg)
              (imap (fun i var => (i, var)) (variables rule))
              (emit_ret tt) it1 it1) as [it2 [Hinit [_ Hall]]].
  { intros acc [i v]. reflexivity. }
  { intros k [i v] it Hk [Hl Hprev].
    rewrite list_lookup_imap in Hk.
    destruct (variables rule !! k) as [v'|] eqn:Hv; [|discriminate].
    simpl in Hk. inversion Hk; subst i v'; clear Hk. simpl.
    assert (Hkind : var_kind v <> EcsRuleVarKindUnknown).
    { exact (Forall_lookup_1 _ _ _ _ Hkinds Hv). }
    assert (Hlt : (k < length (registers it))%nat).
    { apply lookup_lt_Some in Hv. lia. }
    destruct (init_register_step world rule k v it Hvalid Hv Hkind Hlt)
      as [it' [Hrun [Hlen [Hreg Hother]]]].
    exists it'. split; [exact Hrun|]. split; [congruence|].
    intros i w Hi Hw.
    destruct (Nat.eq_dec i k) as [->|Hne].
    - rewrite Hv in Hw. inversion Hw; subst w. exact Hreg.
    - rewrite Hother by exact Hne. apply Hprev; [lia | exact Hw]. }
  { reflexivity. }
  { split; [|intros; lia]. rewrite Hregs. unfold it0. simpl.
    rewrite length_map, length_seq. reflexivity. }
  exists it2. split.
  - unfold emit_bind at 1.
    rewrite Hcols. simpl.
    rewrite Hinit. reflexivity.
  - intros i v Hv. apply Hall; [|exact Hv].
    rewrite length_imap. apply lookup_lt_Some in Hv. exact Hv.
Qed.
End UnboundIter.

(** X17.  In a world where the wildcard is a valid entity, for a rule
    with at least one operation and whose variables are all of kind
    Table or Entity, [ecs_rule_iter] returns an iterator in which, in
    frame 0, the register of every Entity variable holds [EcsWildcard]
    and the register of every Table variable holds the NULL table with
    offset, count and entity 0, whatever the allocator left in the
    arrays; [entity_reg_get] on each of them returns [EcsWildcard].  In
    any frame, [entity_reg_get] returns [EcsWildcard] for a register
    whose entity is 0 or [EcsWildcard], and [push_registers] carries
    such a register over to the next frame. *)
Theorem unbound_registers_read_wildcard {api : flecs_api}
    (world : ecs_world_t) (rule : ecs_rule_t) (heap : malloc_t) :
  ecs_is_valid world EcsWildcard = true ->
  0 < operation_count rule ->
  Forall (fun v => var_kind v <> EcsRuleVarKindUnknown) (variables rule) ->
  (exists it,
     ecs_rule_iter world rule heap = Done it
     /\ forall i v, variables rule !! i = Some v ->
          (exists reg,
             zlookup (registers it) (reg_index rule 0 (Z.of_nat i))
             = Some reg
             /\ initial_reg v reg)
          /\ entity_reg_get world rule 0 (Z.of_nat i) it
             = Done (EcsWildcard, it))
  /\ (forall it frame r reg,
        zlookup (registers it) (reg_index rule frame r) = Some reg ->
        unbound_reg reg ->
        entity_reg_get world rule frame r it = Done (EcsWildcard, it))
  /\ (forall it it' cur r reg,
        push_registers rule (cur - 1) cur it = Done (tt, it') ->
        0 <= r < variable_count rule ->
        zlookup (registers it) (reg_index rule (cur - 1) r) = Some reg ->
        unbound_reg reg ->
        entity_reg_get world rule cur r it' = Done (EcsWildcard, it')).
Proof.
  intros Hvalid Hops Hkinds.
  split; [|split].
  - destruct (ecs_rule_iter_initial world rule heap Hvalid Hops Hkinds)
      as [it [Hit Hregs]].
    exists it. split; [exact Hit|].
    intros i v Hv.
    destruct (Hregs i v Hv) as [reg [Hreg Hinit]].
    assert (Hz : zlookup (registers it) (reg_index rule 0 (Z.of_nat i))
                 = Some reg).
    { unfold reg_index. rewrite zlookup_nat by lia.
      replace (Z.to_nat (0 * variable_count rule + Z.of_nat i)) with i
        by lia.
      exact Hreg. }
    split.
    + exists reg. split; [exact Hz | exact Hinit].
    + eapply entity_reg_get_unbound; [exact Hvalid | exact Hz |].
      eapply initial_reg_unbound. exact Hinit.
  - intros it frame r reg Hreg Hu.
    eapply entity_reg_get_unbound; eassumption.
  - intros it it' cur r reg Hpush Hr Hreg Hu.
    apply push_registers_spec in Hpush.
    destruct Hpush as [_ [_ [Hcopy _]]].
    eapply entity_reg_get_unbound; [exact Hvalid | | exact Hu].
    rewrite (Hcopy r Hr). exact Hreg.
Qed.

(** [LocatedIn(., Y)] over memory that was not zeroed: [Y] reads as the
    wildcard before the first call of [ecs_rule_next]. *)
Lemma unbound_registers_read_wildcard_witness :
  let rule := Sample.compiled Sample.rule_located_any in
  exists it,
    ecs_rule_iter (api := sample_api) Sample.world rule Sample.heap_junk
    = Done it
    /\ entity_reg_get (api := sample_api) Sample.world rule 0 1 it
       = Done (266, it).
Proof.
  intros rule.
  destruct (unbound_registers_read_wildcard (api := sample_api)
              Sample.world rule Sample.heap_junk) as [[it [Hit Hall]] _].
  - reflexivity.
  - reflexivity.
  - vm_compute. repeat (constructor; [discriminate|]). constructor.
  - exists it. split; [exact Hit|].
    destruct (Hall 1%nat
                (nth 1 (variables rule)
                   (mk_var EcsRuleVarKindUnknown EmptyString 0 0 0 false)))
      as [_ Hget]; [reflexivity | exact Hget].
Defined.

(** ** The reflexive case of [With] *)

Section WithReflexive.
Context {api : flecs_api} (world : ecs_world_t) (rule : ecs_rule_t).

Lemma entity_reg_get_value (frame r : Z) (it : ecs_iter_t)
    (reg : ecs_rule_reg_t) :
  zlookup (registers it) (reg_index rule frame r) = Some reg ->
  reg_entity reg <> 0 ->
  ecs_is_valid world (reg_entity reg) = true ->
  entity_reg_get world rule frame r it = Done (reg_entity reg, it).
Proof.
  intros Hreg He Hvalid.
  unfold entity_reg_get, get_reg, emit_bind, get_it, deref, emit_ret.
  simpl. rewrite Hreg. simpl.
  apply Z.eqb_neq in He. rewrite He, Hvalid. reflexivity.
Qed.

Lemma rule_var_kind_value (r : Z) (it : ecs_iter_t) (v : ecs_rule_var_t) :
  zlookup (variables rule) r = Some v ->
  rule_var_kind rule r it = Done (var_kind v, it).
Proof.
  intros Hv. unfold rule_var_kind, emit_bind, deref, emit_ret.
  rewrite Hv. reflexivity.
Qed.

Lemma with_reflexive_some (op : ecs_rule_op_t) (filter : ecs_rule_filter_t)
    (it : ecs_iter_t) (subj : Z) :
  transitive (op_filter op) = true -> inclusive (op_filter op) = true ->
  obj_wildcard filter = false ->
  with_input world rule op it subj ->
  subj <> 0 -> subj = ecs_entity_t_lo (mask filter) ->
  with_reflexive world rule op filter it = Done (Some (mask filter), it).
Proof.
  intros Ht Hi Hw Hin Hs Heq.
  unfold with_reflexive. rewrite Ht, Hi. simpl.
  assert (Htest : negb (subj =? 0) && negb (obj_wildcard filter)
                  && (subj =? ecs_entity_t_lo (mask filter)) = true).
  { rewrite Hw. apply Z.eqb_neq in Hs. rewrite Hs.
    apply Z.eqb_eq in Heq. rewrite Heq. reflexivity. }
  destruct Hin as [[Hr Hsubj] | [Hr [[v [Hv Hk]] [reg [Hreg [He Hvalid]]]]]].
  - rewrite Hr. simpl. unfold emit_bind, emit_ret.
    rewrite Hsubj. cbn [obind]. rewrite Htest. reflexivity.
  - apply Z.eqb_neq in Hr. rewrite Hr.
    subst subj.
    unfold emit_bind, emit_ret, emit_assert.
    rewrite (rule_var_kind_value _ _ _ Hv). cbn [obind].
    rewrite Hk.
    change (kind_eqb EcsRuleVarKindEntity EcsRuleVarKindEntity) with true.
    cbv beta iota.
    rewrite (entity_reg_get_value _ _ _ _ Hreg Hs Hvalid). cbn [obind].
    assert (Hs0 : (reg_entity reg =? 0) = false)
      by (apply Z.eqb_neq; exact Hs).
    rewrite Hs0. cbn [negb]. unfold emit_ret. cbn [obind].
    rewrite Htest. reflexivity.
Qed.

Lemma with_reflexive_table (op : ecs_rule_op_t) (filter : ecs_rule_filter_t)
    (it : ecs_iter_t) (v : ecs_rule_var_t) :
  r_in op <> UINT8_MAX ->
  zlookup (variables rule) (r_in op) = Some v ->
  var_kind v = EcsRuleVarKindTable ->
  with_reflexive world rule op filter it = Done (None, it).
Proof.
  intros Hr Hv Hk. unfold with_reflexive.
  destruct (transitive (op_filter op) && inclusive (op_filter op));
    [|reflexivity].
  apply Z.eqb_neq in Hr. rewrite Hr.
  unfold emit_bind, emit_ret.
  rewrite (rule_var_kind_value _ _ _ Hv). cbn [obind].
  rewrite Hk.
  change (kind_eqb EcsRuleVarKindTable EcsRuleVarKindEntity) with false.
  cbv beta iota. cbn [obind].
  change (negb (0 =? 0)) with false. reflexivity.
Qed.

Lemma with_reflexive_only (op : ecs_rule_op_t) (filter : ecs_rule_filter_t)
    (it it' : ecs_iter_t) (m : Z) :
  with_reflexive world rule op filter it = Done (Some m, it') ->
  transitive (op_filter op) = true /\ inclusive (op_filter op) = true
  /\ obj_wildcard filter = false /\ m = mask filter
  /\ ecs_entity_t_lo m <> 0.
Proof.
  unfold with_reflexive.
  destruct (transitive (op_filter op)) eqn:Ht;
    destruct (inclusive (op_filter op)) eqn:Hi; simpl; try discriminate.
  unfold emit_bind at 1.
  match goal with
  | |- obind ?m _ = _ -> _ => destruct m as [[subj it1]|[]| |]
  end; simpl; try discriminate.
  destruct (negb (subj =? 0) && negb (obj_wildcard filter)
            && (subj =? ecs_entity_t_lo (mask filter))) eqn:Htest;
    [|discriminate].
  intros H. inversion H; subst; clear H.
  apply andb_true_iff in Htest. destruct Htest as [Htest Heq].
  apply andb_true_iff in Htest. destruct Htest as [Hs Hw].
  apply negb_true_iff in Hs, Hw. apply Z.eqb_neq in Hs.
  apply Z.eqb_eq in Heq.
  repeat split; try assumption. congruence.
Qed.

Lemma set_col_done (frame t v : Z) (it : ecs_iter_t) :
  0 <= col_index rule frame t < Z.of_nat (length (columns it)) ->
  set_col rule frame t v it
  = Done (tt, set_columns
                (<[Z.to_nat (col_index rule frame t) := v]> (columns it)) it).
Proof.
  intros H. unfold set_col, emit_bind, get_it, deref, modify_it, emit_ret.
  cbn [obind]. rewrite zinsert_some by exact H. reflexivity.
Qed.

Lemma set_id_done (t v : Z) (it : ecs_iter_t) :
  0 <= t < Z.of_nat (length (it_ids it)) ->
  set_id t v it
  = Done (tt, set_it_ids (<[Z.to_nat t := v]> (it_ids it)) it).
Proof.
  intros H. unfold set_id, emit_bind, get_it, deref, modify_it, emit_ret.
  cbn [obind]. rewrite zinsert_some by exact H. reflexivity.
Qed.

Lemma eval_with_reflexive (op : ecs_rule_op_t) (op_index : Z)
    (filter : ecs_rule_filter_t) (it : ecs_iter_t) (subj : Z) :
  pair_to_filter world rule op (op_filter op) it = Done (filter, it) ->
  transitive (op_filter op) = true -> inclusive (op_filter op) = true ->
  obj_wildcard filter = false ->
  with_input world rule op it subj ->
  subj <> 0 -> subj = ecs_entity_t_lo (mask filter) ->
  0 <= op_term op < Z.of_nat (length (it_ids it)) ->
  0 <= col_index rule (op_frame op) (op_term op)
    < Z.of_nat (length (columns it)) ->
  exists it',
    eval_with world rule op op_index false it = Done (true, it')
    /\ zlookup (it_ids it') (op_term op) = Some (mask filter)
    /\ registers it' = registers it.
Proof.
  intros Hf Ht Hi Hw Hin Hs Heq Hterm Hcol.
  unfold eval_with.
  unfold emit_bind at 1. rewrite Hf. cbn [obind andb].
  assert (Hne : (op_term op =? -1) = false) by (apply Z.eqb_neq; lia).
  rewrite Hne. cbn [negb andb].
  unfold emit_bind at 1. rewrite (set_col_done _ _ _ _ Hcol). cbn [obind].
  set (it1 := set_columns _ it).
  assert (Hin1 : with_input world rule op it1 subj).
  { destruct Hin as [Hin|[Hr [Hv Hreg]]]; [left; exact Hin|right].
    split; [exact Hr|]. split; [exact Hv|]. exact Hreg. }
  unfold emit_bind at 1.
  rewrite (with_reflexive_some op filter it1 subj Ht Hi Hw Hin1 Hs Heq).
  cbn [obind].
  unfold emit_bind, emit_ret.
  assert (Hterm1 : 0 <= op_term op < Z.of_nat (length (it_ids it1)))
    by exact Hterm.
  rewrite (set_id_done _ _ _ Hterm1). cbn [obind].
  eexists. split; [reflexivity|]. split; [|reflexivity].
  cbn [it_ids set_it_ids].
  rewrite zlookup_nat by lia.
  apply list_lookup_insert_eq. lia.
Qed.
End WithReflexive.

(** C1.  [With], evaluated not as a redo on a transitive, inclusive pair
    whose object is resolved, passes at once and records the pair id for
    its term when its subject is a non-zero entity equal to the object,
    the subject being the literal of the operation or the content of an
    input register of kind Entity.  For an input register of kind Table
    the test is not made, and it never succeeds with a wildcard object
    or a zero subject. *)
Theorem with_passes_on_same_subject_object {api : flecs_api}
    (world : ecs_world_t) (rule : ecs_rule_t) (op : ecs_rule_op_t)
    (op_index : Z) (filter : ecs_rule_filter_t) (it : ecs_iter_t) :
  (forall subj,
     pair_to_filter world rule op (op_filter op) it = Done (filter, it) ->
     transitive (op_filter op) = true -> inclusive (op_filter op) = true ->
     obj_wildcard filter = false ->
     with_input world rule op it subj ->
     subj <> 0 -> subj = ecs_entity_t_lo (mask filter) ->
     0 <= op_term op < Z.of_nat (length (it_ids it)) ->
     0 <= col_index rule (op_frame op) (op_term op)
       < Z.of_nat (length (columns it)) ->
     exists it',
       eval_with world rule op op_index false it = Done (true, it')
       /\ zlookup (it_ids it') (op_term op) = Some (mask filter)
       /\ registers it' = registers it)
  /\ (forall v,
        r_in op <> UINT8_MAX ->
        zlookup (variables rule) (r_in op) = Some v ->
        var_kind v = EcsRuleVarKindTable ->
        with_reflexive world rule op filter it = Done (None, it))
  /\ (forall m it',
        with_reflexive world rule op filter it = Done (Some m, it') ->
        transitive (op_filter op) = true /\ inclusive (op_filter op) = true
        /\ obj_wildcard filter = false /\ m = mask filter
        /\ ecs_entity_t_lo m <> 0).
Proof.
  split; [|split].
  - intros subj. apply eval_with_reflexive.
  - intros v. apply with_reflexive_table.
  - intros m it'. apply with_reflexive_only.
Qed.

(** The [With] of [LocatedIn(b, b)]: subject and object registers both
    hold [b]. *)
Lemma with_passes_on_same_subject_object_witness :
  let rule := Sample.compiled Sample.rule_located_b_b in
  let op := Sample.operation rule 10 in
  let it := Sample.dispatched rule 6 in
  op_kind op = EcsRuleWith
  /\ zlookup (operations rule) (it_op it) = Some op
  /\ exists it',
       eval_with (api := sample_api) Sample.world rule op 10 false it
       = Done (true, it')
       /\ zlookup (it_ids it') (op_term op)
          = Some (ecs_pair (api := sample_api) Sample.LocatedIn Sample.b).
Proof.
  intros rule op it.
  split; [reflexivity|]. split; [vm_compute; reflexivity|].
  destruct (with_passes_on_same_subject_object (api := sample_api)
              Sample.world rule op 10 (Sample.resolved rule op it) it)
    as [Hpass _].
  destruct (Hpass Sample.b) as [it' [Heval [Hid _]]].
  - vm_compute. reflexivity.
  - reflexivity.
  - reflexivity.
  - vm_compute. reflexivity.
  - right. split; [vm_compute; discriminate|]. split.
    + eexists. split; vm_compute; reflexivity.
    + eexists. split; [vm_compute; reflexivity|].
      split; vm_compute; reflexivity.
  - discriminate.
  - vm_compute. reflexivity.
  - vm_compute. split; [discriminate | reflexivity].
  - vm_compute. split; [discriminate | reflexivity].
  - exists it'. split; [exact Heval|]. rewrite Hid. vm_compute. reflexivity.
Defined.

(** [LocatedIn] is transitive and inclusive, with the facts
    [LocatedIn(a, b)] and [LocatedIn(c, a)].  [Foo(.), LocatedIn(., b)]:
    [Foo(b)] holds and the rule [LocatedIn(b, b)] yields, but [b] is
    not yielded: [.] is a Table register when [With] is evaluated.
    [LocatedIn(., Y)] yields [(a, b)], [(c, a)] and [(c, b)] and no
    binding with [.] and [Y] equal. *)
Lemma reflexive_binding_counterexample :
  ecs_has_id Sample.world Sample.b Sample.Foo = true
  /\ option_map (@length _) (Sample.bindings Sample.rule_located_b_b 0)
     = Some 1%nat
  /\ option_map (map fst) (Sample.bindings Sample.rule_foo_located_b 0)
     = Some [[Sample.a]]
  /\ Sample.bindings Sample.rule_located_any 1
     = Some [([Sample.a], Sample.b); ([Sample.c], Sample.a);
             ([Sample.c], Sample.b)].
Proof. repeat split; vm_compute; reflexivity. Qed.

(** ** The variable table *)

Lemma var_matches_iff kind name v :
  var_matches kind name v = true <->
  var_name v = name
  /\ (kind = EcsRuleVarKindUnknown \/ var_kind v = kind).
Proof.
  unfold var_matches.
  rewrite andb_true_iff, orb_true_iff, String.eqb_eq, !kind_eqb_eq.
  intuition congruence.
Qed.

Lemma find_variable_from_first kind name :
  forall vars i,
    match find_variable_from vars i kind name with
    | Some k =>
        (i <= k)%nat
        /\ exists v, vars !! (k - i)%nat = Some v
                     /\ var_matches kind name v = true
                     /\ forall j w, (j < k - i)%nat -> vars !! j = Some w ->
                                    var_matches kind name w = false
    | None =>
        forall j w, vars !! j = Some w -> var_matches kind name w = false
    end.
Proof.
  induction vars as [|v vars IH]; intros i; cbn [find_variable_from].
  - intros j w H. rewrite lookup_nil in H. discriminate.
  - fold (var_matches kind name v).
    destruct (var_matches kind name v) eqn:Hm.
    + split; [lia|]. exists v. rewrite Nat.sub_diag.
      split; [reflexivity|]. split; [exact Hm|]. intros j w Hj. lia.
    + specialize (IH (S i)).
      destruct (find_variable_from vars (S i) kind name) as [k|].
      * destruct IH as [Hle [u [Hu [Hmu Hfirst]]]].
        split; [lia|]. exists u.
        replace (k - i)%nat with (S (k - S i)) by lia.
        split; [exact Hu|]. split; [exact Hmu|].
        intros [|j] w Hj Hw.
        -- inversion Hw; subst. exact Hm.
        -- apply (Hfirst j w); [lia | exact Hw].
      * intros [|j] w Hw.
        -- inversion Hw; subst. exact Hm.
        -- apply (IH j w). exact Hw.
Qed.

(** X1.  [find_variable] returns the first variable of the array whose
    name is the looked-up name ("This" standing for ".") and whose kind
    is the looked-up kind, any kind when Unknown is looked up; it returns
    NULL exactly when the array has no such variable. *)
Theorem find_variable_first (rule : ecs_rule_t)
    (kind : ecs_rule_var_kind_t) (name : string) :
  match find_variable rule kind name with
  | Some i =>
      exists v, variables rule !! i = Some v
        /\ var_name v = get_var_name name
        /\ (kind = EcsRuleVarKindUnknown \/ var_kind v = kind)
        /\ forall j w, (j < i)%nat -> variables rule !! j = Some w ->
             ~ (var_name w = get_var_name name
                /\ (kind = EcsRuleVarKindUnknown \/ var_kind w = kind))
  | None =>
      forall j w, variables rule !! j = Some w ->
        ~ (var_name w = get_var_name name
           /\ (kind = EcsRuleVarKindUnknown \/ var_kind w = kind))
  end.
Proof.
  unfold find_variable.
  pose proof (find_variable_from_first kind (get_var_name name)
                (variables rule) 0%nat) as H.
  destruct (find_variable_from (variables rule) 0 kind (get_var_name name))
    as [i|].
  - destruct H as [_ [v [Hv [Hm Hfirst]]]].
    rewrite Nat.sub_0_r in Hv, Hfirst.
    apply var_matches_iff in Hm. destruct Hm as [Hn Hk].
    exists v. repeat split; try assumption.
    intros j w Hj Hw Hc. apply var_matches_iff in Hc.
    rewrite (Hfirst j w Hj Hw) in Hc. discriminate.
  - intros j w Hw Hc. apply var_matches_iff in Hc.
    rewrite (H j w Hw) in Hc. discriminate.
Qed.

Lemma get_var_name_idem name : get_var_name (get_var_name name) = get_var_name name.
Proof.
  unfold get_var_name.
  destruct (String.eqb name "This") eqn:E; [reflexivity|].
  rewrite E. reflexivity.
Qed.

Lemma find_variable_from_some kind name vars i k :
  find_variable_from vars i kind name = Some k ->
  (i <= k)%nat /\ exists v, vars !! (k - i)%nat = Some v
                     /\ var_matches kind name v = true
                     /\ forall j w, (j < k - i)%nat -> vars !! j = Some w ->
                                    var_matches kind name w = false.
Proof.
  intros H. pose proof (find_variable_from_first kind name vars i) as Hf.
  rewrite H in Hf. exact Hf.
Qed.

Lemma find_variable_from_none kind name vars i :
  find_variable_from vars i kind name = None ->
  forall j w, vars !! j = Some w -> var_matches kind name w = false.
Proof.
  intros H. pose proof (find_variable_from_first kind name vars i) as Hf.
  rewrite H in Hf. exact Hf.
Qed.

(** The converse: the first matching position is what the loop returns. *)
Lemma find_variable_from_at kind name vars i k v :
  vars !! k = Some v ->
  var_matches kind name v = true ->
  (forall j w, (j < k)%nat -> vars !! j = Some w ->
               var_matches kind name w = false) ->
  find_variable_from vars i kind name = Some (i + k)%nat.
Proof.
  revert i k. induction vars as [|u vars IH]; intros i k Hk Hm Hfirst.
  - rewrite lookup_nil in Hk. discriminate.
  - cbn [find_variable_from]. fold (var_matches kind name u).
    destruct k as [|k].
    + inversion Hk; subst. rewrite Hm. f_equal. lia.
    + rewrite (Hfirst 0%nat u) by (try lia; reflexivity).
      rewrite (IH (S i) k); [f_equal; lia | exact Hk | exact Hm |].
      intros j w Hj Hw. apply (Hfirst (S j) w); [lia | exact Hw].
Qed.

Lemma set_var_kind_same v : set_var_kind (var_kind v) v = v.
Proof. destruct v; reflexivity. Qed.

Lemma alter_same {A} (f : A -> A) (l : list A) (i : nat) (x : A) :
  l !! i = Some x -> f x = x -> alter f i l = l.
Proof.
  revert i. induction l as [|y l IH]; intros [|i] H Hf; simpl in *;
    try discriminate.
  - inversion H; subst. rewrite Hf. reflexivity.
  - f_equal. apply (IH i); assumption.
Qed.

Lemma set_variables_same rule : set_variables (variables rule) rule = rule.
Proof. destruct rule; reflexivity. Qed.

Lemma kind_eqb_refl k : kind_eqb k k = true.
Proof. apply kind_eqb_eq. reflexivity. Qed.

(** What [ensure_variable] does when the variable is there. *)
Lemma ensure_variable_hit rule kind name i v :
  find_variable rule kind name = Some i ->
  variables rule !! i = Some v ->
  ensure_variable rule kind name
  = (if kind_eqb (var_kind v) EcsRuleVarKindUnknown
     then alter_var (set_var_kind kind) i rule else rule, i).
Proof.
  intros Hf Hv. unfold ensure_variable. rewrite Hf, Hv.
  destruct (kind_eqb (var_kind v) EcsRuleVarKindUnknown); reflexivity.
Qed.

Lemma ensure_variable_fix rule kind name i v :
  find_variable rule kind name = Some i ->
  variables rule !! i = Some v ->
  var_kind v = kind ->
  ensure_variable rule kind name = (rule, i).
Proof.
  intros Hf Hv Hk.
  rewrite (ensure_variable_hit _ _ _ _ _ Hf Hv).
  destruct (kind_eqb (var_kind v) EcsRuleVarKindUnknown) eqn:E;
    [|reflexivity].
  apply kind_eqb_eq in E. f_equal. unfold alter_var.
  rewrite (alter_same _ _ _ _ Hv).
  - apply set_variables_same.
  - rewrite <- Hk. apply set_var_kind_same.
Qed.

Lemma variables_set_variables vs rule :
  variables (set_variables vs rule) = vs.
Proof. destruct rule; reflexivity. Qed.

(** X2.  [ensure_variable] returns a variable that [find_variable] finds
    under the same kind and name, named as asked and of the asked kind
    (of any kind when Unknown is asked); it adds at most one variable,
    keeps the names and ids of the variables that were there, and
    calling it again changes nothing. *)
Theorem ensure_variable_found (rule : ecs_rule_t)
    (kind : ecs_rule_var_kind_t) (name : string) :
  let rule' := fst (ensure_variable rule kind name) in
  let i := snd (ensure_variable rule kind name) in
  find_variable rule' kind name = Some i
  /\ (exists v, variables rule' !! i = Some v
        /\ var_name v = get_var_name name
        /\ (kind = EcsRuleVarKindUnknown \/ var_kind v = kind))
  /\ (length (variables rule) <= length (variables rule')
      <= S (length (variables rule)))%nat
  /\ (forall j w, variables rule !! j = Some w ->
        exists w', variables rule' !! j = Some w'
                   /\ var_name w' = var_name w /\ var_id w' = var_id w)
  /\ ensure_variable rule' kind name = (rule', i).
Proof.
  destruct (find_variable rule kind name) as [i0|] eqn:Hfind.
  - (* the variable exists *)
    pose proof Hfind as Hf. unfold find_variable in Hf.
    apply find_variable_from_some in Hf.
    destruct Hf as [_ [v [Hv [Hm Hfirst]]]].
    rewrite Nat.sub_0_r in Hv, Hfirst.
    rewrite (ensure_variable_hit _ _ _ _ _ Hfind Hv).
    pose proof Hm as Hm'. apply var_matches_iff in Hm'.
    destruct Hm' as [Hname Hkind].
    destruct (kind_eqb (var_kind v) EcsRuleVarKindUnknown) eqn:Eu;
      cbn [fst snd].
    + (* its kind is overwritten *)
      set (f := set_var_kind kind).
      assert (Hv' : variables (alter_var f i0 rule) !! i0 = Some (f v)).
      { unfold alter_var. rewrite variables_set_variables.
        rewrite list_lookup_alter_eq, Hv. reflexivity. }
      assert (Hfind' : find_variable (alter_var f i0 rule) kind name
                       = Some i0).
      { unfold find_variable, alter_var.
        rewrite variables_set_variables.
        apply (find_variable_from_at kind (get_var_name name) _ 0%nat i0
                 (f v)).
        - rewrite list_lookup_alter_eq, Hv. reflexivity.
        - apply var_matches_iff. split; [destruct v; exact Hname|].
          right. destruct v; reflexivity.
        - intros j w Hj Hw.
          rewrite list_lookup_alter_ne in Hw by lia.
          apply (Hfirst j w Hj Hw). }
      split; [exact Hfind'|]. split.
      { exists (f v). split; [exact Hv'|].
        split; [destruct v; exact Hname|]. right. destruct v; reflexivity. }
      split.
      { unfold alter_var. rewrite variables_set_variables, length_alter.
        lia. }
      split.
      { intros j w Hw. unfold alter_var. rewrite variables_set_variables.
        destruct (Nat.eq_dec j i0) as [->|Hne].
        - rewrite Hv in Hw. inversion Hw; subst w.
          exists (f v). rewrite list_lookup_alter_eq, Hv.
          split; [reflexivity|]. destruct v; split; reflexivity.
        - exists w. rewrite list_lookup_alter_ne by congruence.
          split; [exact Hw|]. split; reflexivity. }
      apply (ensure_variable_fix _ _ _ _ _ Hfind' Hv').
      destruct v; reflexivity.
    + (* nothing is changed *)
      split; [exact Hfind|]. split.
      { exists v. split; [exact Hv|]. split; [exact Hname | exact Hkind]. }
      split; [lia|]. split.
      { intros j w Hw. exists w. split; [exact Hw|]. split; reflexivity. }
      rewrite (ensure_variable_hit _ _ _ _ _ Hfind Hv), Eu. reflexivity.
  - (* the variable is created *)
    pose proof Hfind as Hnone. unfold find_variable in Hnone.
    pose proof (find_variable_from_none _ _ _ _ Hnone) as Hno.
    unfold ensure_variable. rewrite Hfind.
    unfold create_variable. cbn [fst snd].
    replace (S (length (variables rule)) - 1)%nat
      with (length (variables rule)) by lia.
    set (var := mk_var kind (get_var_name name)
                  (Z.of_nat (length (variables rule))) 0 UINT8_MAX false).
    set (rule' := set_variables (variables rule ++ [var]) rule).
    assert (Hv' : variables rule' !! length (variables rule) = Some var).
    { unfold rule'. rewrite variables_set_variables.
      rewrite lookup_app_r by lia. rewrite Nat.sub_diag. reflexivity. }
    assert (Hfind' : find_variable rule' kind name
                     = Some (length (variables rule))).
    { unfold find_variable, rule'. rewrite variables_set_variables.
      apply (find_variable_from_at kind (get_var_name name) _ 0%nat
               (length (variables rule)) var).
      - rewrite lookup_app_r by lia. rewrite Nat.sub_diag. reflexivity.
      - apply var_matches_iff. split; [reflexivity | right; reflexivity].
      - intros j w Hj Hw. rewrite lookup_app_l in Hw by lia.
        apply (Hno j w Hw). }
    split; [exact Hfind'|]. split.
    { exists var. split; [exact Hv'|].
      split; [reflexivity | right; reflexivity]. }
    split.
    { unfold rule'. rewrite variables_set_variables, length_app. simpl.
      lia. }
    split.
    { intros j w Hw. exists w. unfold rule'.
      rewrite variables_set_variables.
      rewrite lookup_app_l by (apply lookup_lt_Some in Hw; exact Hw).
      split; [exact Hw|]. split; reflexivity. }
    apply (ensure_variable_fix _ _ _ _ _ Hfind' Hv'). reflexivity.
Qed.

(** ** Registers *)

Section RegisterAccess.
Context {api : flecs_api} (world : ecs_world_t) (rule : ecs_rule_t).

Lemma get_reg_value frame r it reg :
  zlookup (registers it) (reg_index rule frame r) = Some reg ->
  get_reg rule frame r it = Done (reg, it).
Proof.
  intros H. unfold get_reg, emit_bind, get_it, deref, emit_ret.
  cbn [obind]. rewrite H. reflexivity.
Qed.

Lemma set_reg_done frame r v it reg :
  zlookup (registers it) (reg_index rule frame r) = Some reg ->
  set_reg rule frame r v it
  = Done (tt, set_registers
                (<[Z.to_nat (reg_index rule frame r) := v]> (registers it))
                it).
Proof.
  intros H. unfold set_reg, emit_bind, get_it, deref, modify_it, emit_ret.
  cbn [obind].
  assert (Hr : 0 <= reg_index rule frame r
               < Z.of_nat (length (registers it))).
  { unfold zlookup in H.
    destruct (reg_index rule frame r <? 0) eqn:E; [discriminate|].
    apply Z.ltb_ge in E. apply lookup_lt_Some in H. lia. }
  rewrite zinsert_some by exact Hr. reflexivity.
Qed.

Lemma zlookup_insert_eq {A} (l : list A) (i : Z) (a b : A) :
  zlookup l i = Some b -> zlookup (<[Z.to_nat i := a]> l) i = Some a.
Proof.
  unfold zlookup. destruct (i <? 0); [discriminate|].
  intros H. apply list_lookup_insert_eq. apply lookup_lt_Some in H. exact H.
Qed.

Lemma zlookup_insert_ne {A} (l : list A) (i j : Z) (a : A) :
  0 <= i -> i <> j -> zlookup (<[Z.to_nat i := a]> l) j = zlookup l j.
Proof.
  intros Hi Hne. unfold zlookup. destruct (j <? 0) eqn:E; [reflexivity|].
  apply Z.ltb_ge in E. apply list_lookup_insert_ne. lia.
Qed.

Lemma zlookup_nonneg {A} (l : list A) (i : Z) (a : A) :
  zlookup l i = Some a -> 0 <= i < Z.of_nat (length l).
Proof.
  unfold zlookup. destruct (i <? 0) eqn:E; [discriminate|].
  apply Z.ltb_ge in E. intros H. apply lookup_lt_Some in H. lia.
Qed.

Lemma registers_set_registers regs it :
  registers (set_registers regs it) = regs.
Proof. destruct it; reflexivity. Qed.

Lemma entity_reg_set_done frame r e it v reg :
  zlookup (variables rule) r = Some v ->
  var_kind v = EcsRuleVarKindEntity ->
  ecs_is_valid world e = true ->
  zlookup (registers it) (reg_index rule frame r) = Some reg ->
  entity_reg_set world rule frame r e it
  = Done (tt, set_registers
                (<[Z.to_nat (reg_index rule frame r)
                   := mk_reg (reg_table reg) (reg_offset reg)
                             (reg_count reg) e]> (registers it)) it).
Proof.
  intros Hv Hk Hvalid Hreg.
  unfold entity_reg_set. unfold emit_bind at 1.
  rewrite (rule_var_kind_value _ _ _ _ Hv). cbn [obind]. rewrite Hk.
  change (kind_eqb EcsRuleVarKindEntity EcsRuleVarKindEntity) with true.
  unfold emit_assert, emit_bind at 1, emit_ret. cbn [obind].
  rewrite Hvalid. unfold emit_bind.
  rewrite (get_reg_value _ _ _ _ Hreg). cbn [obind].
  apply (set_reg_done _ _ _ _ _ Hreg).
Qed.

(** X3.  Writing a valid, non-zero entity to the register of an Entity
    variable and reading it back gives that entity.  The write changes
    the entity of that one register: its table, offset and count, every
    other register of every frame and everything else in the iterator
    stay as they were. *)
Theorem entity_reg_set_get (frame r e : Z) (it : ecs_iter_t)
    (v : ecs_rule_var_t) (reg : ecs_rule_reg_t) :
  zlookup (variables rule) r = Some v ->
  var_kind v = EcsRuleVarKindEntity ->
  ecs_is_valid world e = true -> e <> 0 ->
  zlookup (registers it) (reg_index rule frame r) = Some reg ->
  exists it',
    entity_reg_set world rule frame r e it = Done (tt, it')
    /\ entity_reg_get world rule frame r it' = Done (e, it')
    /\ zlookup (registers it') (reg_index rule frame r)
       = Some (mk_reg (reg_table reg) (reg_offset reg) (reg_count reg) e)
    /\ (forall i, i <> reg_index rule frame r ->
          zlookup (registers it') i = zlookup (registers it) i)
    /\ it' = set_registers (registers it') it.
Proof.
  intros Hv Hk Hvalid He Hreg.
  eexists. split; [apply (entity_reg_set_done _ _ _ _ _ _ Hv Hk Hvalid Hreg)|].
  pose proof (zlookup_nonneg _ _ _ Hreg) as Hr.
  assert (Hnew : zlookup
            (registers
               (set_registers
                  (<[Z.to_nat (reg_index rule frame r)
                     := mk_reg (reg_table reg) (reg_offset reg)
                               (reg_count reg) e]> (registers it)) it))
            (reg_index rule frame r)
          = Some (mk_reg (reg_table reg) (reg_offset reg) (reg_count reg) e)).
  { rewrite registers_set_registers.
    apply (zlookup_insert_eq _ _ _ _ Hreg). }
  split.
  { rewrite (entity_reg_get_value world rule _ _ _ _ Hnew);
      [reflexivity | exact He | exact Hvalid]. }
  split; [exact Hnew|]. split.
  - intros i Hi. rewrite registers_set_registers.
    apply zlookup_insert_ne; [lia | congruence].
  - rewrite registers_set_registers. destruct it; reflexivity.
Qed.
End RegisterAccess.

(** In the iterator of [LocatedIn(., Y)], [b] is written to the
    register of [Y] and read back. *)
Lemma entity_reg_set_get_witness :
  let rule := Sample.compiled Sample.rule_located_any in
  let it := Sample.iterator rule Sample.heap_zero in
  exists it',
    entity_reg_set Sample.world rule 0 1 Sample.b it
    = Done (tt, it')
    /\ entity_reg_get (api := sample_api) Sample.world rule 0 1 it'
       = Done (Sample.b, it').
Proof.
  intros rule it.
  destruct (entity_reg_set_get (api := sample_api) Sample.world rule
              0 1 Sample.b it
              (mk_var EcsRuleVarKindEntity "Y" 1 0 0 true)
              (mk_reg None 0 0 266))
    as [it' [Hset [Hget _]]].
  - vm_compute. reflexivity.
  - reflexivity.
  - vm_compute. reflexivity.
  - discriminate.
  - vm_compute. reflexivity.
  - exists it'. split; [exact Hset | exact Hget].
Defined.

Section TableRegisters.
Context {api : flecs_api} (world : ecs_world_t) (rule : ecs_rule_t).

Lemma table_reg_get_value frame r it v reg :
  zlookup (variables rule) r = Some v ->
  var_kind v = EcsRuleVarKindTable ->
  zlookup (registers it) (reg_index rule frame r) = Some reg ->
  table_reg_get rule frame r it = Done (reg_table reg, it).
Proof.
  intros Hv Hk Hreg. unfold table_reg_get. unfold emit_bind at 1.
  rewrite (rule_var_kind_value _ _ _ _ Hv). cbn [obind]. rewrite Hk.
  change (kind_eqb EcsRuleVarKindTable EcsRuleVarKindTable) with true.
  unfold emit_assert, emit_bind, emit_ret. cbn [obind].
  rewrite (get_reg_value _ _ _ _ _ Hreg). reflexivity.
Qed.

Lemma reg_set_entity_table frame r e it v reg :
  zlookup (variables rule) r = Some v ->
  var_kind v = EcsRuleVarKindTable ->
  ecs_is_valid world e = true ->
  zlookup (registers it) (reg_index rule frame r) = Some reg ->
  reg_set_entity world rule frame r e it
  = Done (tt, set_registers
                (<[Z.to_nat (reg_index rule frame r)
                   := match ecs_eis_get world e with
                      | Some (Some table, row) => mk_reg (Some table) row 1 0
                      | _ => mk_reg None 0 0 e
                      end]> (registers it)) it).
Proof.
  intros Hv Hk Hvalid Hreg. unfold reg_set_entity. unfold emit_bind at 1.
  rewrite (rule_var_kind_value _ _ _ _ Hv). cbn [obind]. rewrite Hk.
  change (kind_eqb EcsRuleVarKindTable EcsRuleVarKindTable) with true.
  cbv beta iota. rewrite Hvalid.
  destruct (ecs_eis_get world e) as [[[t|] row]|];
    apply (set_reg_done _ _ _ _ _ _ Hreg).
Qed.

(** X4.  [reg_set_entity] on the register of a Table variable stores a
    valid entity as a slice of one row of its table, and [reg_get_entity]
    reads the entity back from that row, in a world whose entity index
    and tables agree.  An entity that has no table is stored in the
    entity field with count 0, and reading that register back fails the
    assertion [regs[r].count == 1]. *)
Theorem reg_set_entity_get (op : ecs_rule_op_t) (frame r e : Z)
    (it : ecs_iter_t) (v : ecs_rule_var_t) (reg : ecs_rule_reg_t) :
  zlookup (variables rule) r = Some v ->
  var_kind v = EcsRuleVarKindTable ->
  r <> UINT8_MAX ->
  ecs_is_valid world e = true ->
  zlookup (registers it) (reg_index rule frame r) = Some reg ->
  exists it',
    reg_set_entity world rule frame r e it = Done (tt, it')
    /\ (forall i, i <> reg_index rule frame r ->
          zlookup (registers it') i = zlookup (registers it) i)
    /\ (forall t row,
          ecs_eis_get world e = Some (Some t, row) ->
          zlookup (table_entities world t) row = Some e ->
          zlookup (registers it') (reg_index rule frame r)
          = Some (mk_reg (Some t) row 1 0)
          /\ reg_get_entity world rule op frame r it' = Done (e, it')
          /\ reg_get_table world rule op frame r it' = Done (Some t, it'))
    /\ (table_from_entity world e = None ->
          zlookup (registers it') (reg_index rule frame r)
          = Some (mk_reg None 0 0 e)
          /\ reg_get_entity world rule op frame r it' = Abort).
Proof.
  intros Hv Hk Hr Hvalid Hreg.
  eexists. split; [apply (reg_set_entity_table _ _ _ _ _ _ Hv Hk Hvalid Hreg)|].
  pose proof (zlookup_nonneg _ _ _ Hreg) as Hidx.
  set (it' := set_registers _ it).
  assert (Hkind : forall s, rule_var_kind rule r s = Done (var_kind v, s))
    by (intros s; apply rule_var_kind_value; exact Hv).
  apply Z.eqb_neq in Hr.
  split.
  { intros i Hi. unfold it'. rewrite registers_set_registers.
    apply zlookup_insert_ne; [lia | congruence]. }
  split.
  - intros t row Hrec Hrow.
    assert (Hnew : zlookup (registers it') (reg_index rule frame r)
                   = Some (mk_reg (Some t) row 1 0)).
    { unfold it'. rewrite registers_set_registers, Hrec.
      apply (zlookup_insert_eq _ _ _ _ Hreg). }
    split; [exact Hnew|].
    pose proof (zlookup_nonneg _ _ _ Hrow) as Hrow'.
    split.
    + unfold reg_get_entity. rewrite Hr. unfold emit_bind at 1.
      rewrite Hkind. cbn [obind]. rewrite Hk. cbv beta iota.
      unfold emit_bind at 1. rewrite (get_reg_value _ _ _ _ _ Hnew).
      cbn [obind reg_count reg_offset].
      change (1 =? 1) with true.
      unfold emit_assert at 1, emit_bind at 1, emit_ret at 1. cbn [obind].
      unfold emit_bind at 1.
      rewrite (table_reg_get_value _ _ _ _ _ Hv Hk Hnew).
      cbn [obind reg_table].
      unfold emit_bind at 1, deref at 1, emit_ret at 1. cbn [obind].
      assert (Hlt : (row <? Z.of_nat (length (table_entities world t)))
                    = true) by (apply Z.ltb_lt; lia).
      rewrite Hlt.
      unfold emit_assert, emit_bind, emit_ret, deref. cbn [obind].
      rewrite Hrow. unfold emit_ret. cbn [obind]. rewrite Hvalid.
      reflexivity.
    + unfold reg_get_table. rewrite Hr. unfold emit_bind at 1.
      rewrite Hkind. cbn [obind]. rewrite Hk. cbv beta iota.
      apply (table_reg_get_value _ _ _ _ _ Hv Hk Hnew).
  - intros Hnone.
    assert (Hnew : zlookup (registers it') (reg_index rule frame r)
                   = Some (mk_reg None 0 0 e)).
    { unfold it'. rewrite registers_set_registers.
      replace (match ecs_eis_get world e with
               | Some (Some table, row) => mk_reg (Some table) row 1 0
               | _ => mk_reg None 0 0 e
               end) with (mk_reg None 0 0 e).
      - apply (zlookup_insert_eq _ _ _ _ Hreg).
      - unfold table_from_entity in Hnone.
        destruct (ecs_eis_get world e) as [[[t|] row]|];
          [discriminate | reflexivity | reflexivity]. }
    split; [exact Hnew|].
    unfold reg_get_entity. rewrite Hr. unfold emit_bind at 1.
    rewrite Hkind. cbn [obind]. rewrite Hk. cbv beta iota.
    unfold emit_bind at 1. rewrite (get_reg_value _ _ _ _ _ Hnew).
    cbn [obind reg_count]. reflexivity.
Qed.
End TableRegisters.

(** In the iterator of [LocatedIn(., Y)], [b] is written to the
    register of [.]: it is stored as row 0 of table 3 and read back. *)
Lemma reg_set_entity_get_witness :
  let rule := Sample.compiled Sample.rule_located_any in
  let it := Sample.iterator rule Sample.heap_zero in
  let op := Sample.operation rule 1 in
  exists it',
    reg_set_entity Sample.world rule 0 0 Sample.b it
    = Done (tt, it')
    /\ zlookup (registers it') (reg_index rule 0 0)
       = Some (mk_reg (Some 3%nat) 0 1 0)
    /\ reg_get_entity (api := sample_api) Sample.world rule op 0 0 it'
       = Done (Sample.b, it').
Proof.
  intros rule it op.
  destruct (reg_set_entity_get (api := sample_api) Sample.world rule op
              0 0 Sample.b it
              (mk_var EcsRuleVarKindTable "." 0 1 0 true)
              (mk_reg None 0 0 0))
    as [it' [Hset [_ [Htable _]]]].
  - vm_compute. reflexivity.
  - reflexivity.
  - discriminate.
  - vm_compute. reflexivity.
  - vm_compute. reflexivity.
  - exists it'. split; [exact Hset|].
    destruct (Htable 3%nat 0) as [Hreg [Hget _]];
      [vm_compute; reflexivity | vm_compute; reflexivity |].
    split; [exact Hreg | exact Hget].
Defined.

(** ** Readers of the iterator *)

Lemma reads_only_ret {S A} (a : A) : reads_only (@emit_ret S A a).
Proof. intros s b s' H. inversion H. reflexivity. Qed.

Lemma reads_only_abort {S A} : reads_only (@emit_abort S A).
Proof. intros s b s' H. discriminate. Qed.

Lemma reads_only_bind {S A B} (m : stm S A) (k : A -> stm S B) :
  reads_only m -> (forall a, reads_only (k a)) -> reads_only (emit_bind m k).
Proof.
  intros Hm Hk s b s' H. unfold emit_bind in H.
  destruct (m s) as [[a s1]|[]| |] eqn:E; simpl in H; try discriminate.
  apply Hm in E. subst s1. apply (Hk a) in H. exact H.
Qed.

Lemma reads_only_assert {S} (b : bool) : reads_only (@emit_assert S b).
Proof.
  destruct b; [apply reads_only_ret | apply reads_only_abort].
Qed.

Lemma reads_only_deref {S A} (p : option A) : reads_only (@deref S A p).
Proof.
  destruct p; [apply reads_only_ret | apply reads_only_abort].
Qed.

Lemma reads_only_get_it : reads_only get_it.
Proof. intros s a s' H. inversion H. reflexivity. Qed.

Lemma reads_only_if {S A} (b : bool) (m1 m2 : stm S A) :
  reads_only m1 -> reads_only m2 -> reads_only (if b then m1 else m2).
Proof. destruct b; auto. Qed.

Ltac reads_step :=
  first
    [ apply reads_only_ret | apply reads_only_abort
    | apply reads_only_assert | apply reads_only_deref
    | apply reads_only_get_it
    | apply reads_only_bind; [|intros ?]
    | apply reads_only_if
    | match goal with
      | |- reads_only (match ?x with _ => _ end) => destruct x
      | |- reads_only (let '(_, _) := ?x in _) => destruct x
      end ].

Section Readers.
Context {api : flecs_api} (world : ecs_world_t) (rule : ecs_rule_t).

Lemma reads_only_rule_var_kind r : reads_only (rule_var_kind rule r).
Proof. unfold rule_var_kind. repeat reads_step. Qed.

Lemma reads_only_get_reg frame r : reads_only (get_reg rule frame r).
Proof. unfold get_reg. repeat reads_step. Qed.

Lemma reads_only_entity_reg_get frame r :
  reads_only (entity_reg_get world rule frame r).
Proof.
  unfold entity_reg_get. apply reads_only_bind;
    [apply reads_only_get_reg|intros reg]. repeat reads_step.
Qed.

Lemma reads_only_table_reg_get frame r :
  reads_only (table_reg_get rule frame r).
Proof.
  unfold table_reg_get.
  apply reads_only_bind; [apply reads_only_rule_var_kind|intros k].
  apply reads_only_bind; [apply reads_only_assert|intros _].
  apply reads_only_bind; [apply reads_only_get_reg|intros reg].
  apply reads_only_ret.
Qed.

Lemma reads_only_reg_get_entity op frame r :
  reads_only (reg_get_entity world rule op frame r).
Proof.
  unfold reg_get_entity. apply reads_only_if.
  - repeat reads_step.
  - apply reads_only_bind; [apply reads_only_rule_var_kind|intros k].
    destruct k.
    + apply reads_only_bind; [apply reads_only_get_reg|intros reg].
      apply reads_only_bind; [apply reads_only_assert|intros _].
      apply reads_only_bind; [apply reads_only_table_reg_get|intros t].
      repeat reads_step.
    + apply reads_only_entity_reg_get.
    + apply reads_only_abort.
Qed.

Lemma reads_only_reg_get_table op frame r :
  reads_only (reg_get_table world rule op frame r).
Proof.
  unfold reg_get_table. apply reads_only_if.
  - repeat reads_step.
  - apply reads_only_bind; [apply reads_only_rule_var_kind|intros k].
    destruct k.
    + apply reads_only_table_reg_get.
    + apply reads_only_bind; [apply reads_only_entity_reg_get|intros e].
      apply reads_only_ret.
    + apply reads_only_ret.
Qed.

Lemma reads_only_pair_to_filter op pair :
  reads_only (pair_to_filter world rule op pair).
Proof.
  unfold pair_to_filter.
  apply reads_only_bind.
  { apply reads_only_if; [|apply reads_only_ret].
    apply reads_only_bind; [apply reads_only_entity_reg_get|intros o].
    repeat reads_step. }
  intros [[obj ow] lo].
  apply reads_only_bind.
  { apply reads_only_if; [|apply reads_only_ret].
    apply reads_only_bind; [apply reads_only_entity_reg_get|intros p].
    repeat reads_step. }
  intros [[[[pred pw] same] hi] lo']. apply reads_only_ret.
Qed.

(** X5.  [pair_to_filter] only reads the iterator.  The filter it builds
    is a wildcard filter exactly when the predicate or the object was
    read from a register that holds the wildcard; a part that is a
    literal is never a wildcard; a filter that is not a wildcard names
    no register to reify; and [same_var] is only set when predicate and
    object are wildcards read from the same register. *)
Theorem pair_to_filter_resolves (op : ecs_rule_op_t)
    (pair : ecs_rule_pair_t) (it it' : ecs_iter_t)
    (f : ecs_rule_filter_t) :
  pair_to_filter world rule op pair it = Done (f, it') ->
  it' = it
  /\ wildcard f = obj_wildcard f || pred_wildcard f
  /\ (obj_wildcard f = true -> has_obj_reg pair = true)
  /\ (pred_wildcard f = true -> has_pred_reg pair = true)
  /\ (wildcard f = false ->
      lo_var f = -1 /\ hi_var f = -1 /\ same_var f = false)
  /\ (same_var f = true ->
      obj_wildcard f = true /\ pred_wildcard f = true
      /\ pair_pred_v pair = pair_obj_v pair).
Proof.
  intros H. split; [apply (reads_only_pair_to_filter _ _ _ _ _ H)|].
  revert H. unfold pair_to_filter, emit_bind, emit_ret.
  destruct (has_obj_reg pair) eqn:Ho;
    [destruct (entity_reg_get world rule (op_frame op - 1)
                 (pair_obj_v pair) it) as [[o it1]|[]| |];
       cbn [obind]; try discriminate;
     destruct (ecs_entity_t_lo o =? EcsWildcard) eqn:Eo; cbn [obind]
    |cbn [obind]];
    (destruct (has_pred_reg pair) eqn:Hp;
     [match goal with
      | |- context [entity_reg_get world rule ?f ?r ?s] =>
          destruct (entity_reg_get world rule f r s) as [[p it2]|[]| |]
      end; cbn [obind]; try discriminate;
      destruct (ecs_entity_t_lo p =? EcsWildcard) eqn:Ep; cbn [obind];
      [match goal with
       | |- context [negb ?b] => destruct (negb b)
       end; cbn [obind] |]
     |cbn [obind]]);
    intros H; inversion H; subst; cbn;
    repeat match goal with |- _ /\ _ => split end;
    intros; try congruence;
    repeat split; try reflexivity;
    apply Z.eqb_eq; assumption.
Qed.
End Readers.

(** The filter of the Select operation of [LocatedIn(., Y)], resolved on
    the fresh iterator: the object is read from a register that holds
    the wildcard. *)
Lemma pair_to_filter_resolves_witness :
  let rule := Sample.compiled Sample.rule_located_any in
  let it := Sample.iterator rule Sample.heap_zero in
  let op := Sample.operation rule 1 in
  let f := Sample.resolved rule op it in
  pair_to_filter (api := sample_api) Sample.world rule op (op_filter op) it
  = Done (f, it)
  /\ wildcard f = true /\ has_obj_reg (op_filter op) = true.
Proof.
  intros rule it op f.
  assert (H : pair_to_filter (api := sample_api) Sample.world rule op
                (op_filter op) it = Done (f, it))
    by (vm_compute; reflexivity).
  split; [exact H|].
  destruct (pair_to_filter_resolves (api := sample_api) Sample.world rule
              op (op_filter op) it it f H) as [_ [Hw [Hobj _]]].
  split; [rewrite Hw; reflexivity|].
  apply Hobj. reflexivity.
Defined.

(** ** Each *)

Lemma emit_bind_done {S A B} (m : stm S A) (k : A -> stm S B) s b s' :
  emit_bind m k s = Done (b, s') ->
  exists a s1, m s = Done (a, s1) /\ k a s1 = Done (b, s').
Proof.
  unfold emit_bind. destruct (m s) as [[a s1]|[]| |]; simpl;
    try discriminate.
  intros H. exists a, s1. split; [reflexivity | exact H].
Qed.

Lemma never_stuck_ret {S A} (a : A) : never_stuck (@emit_ret S A a).
Proof. intros s. discriminate. Qed.

Lemma never_stuck_abort {S A} : never_stuck (@emit_abort S A).
Proof. intros s. discriminate. Qed.

Lemma never_stuck_bind {S A B} (m : stm S A) (k : A -> stm S B) :
  never_stuck m -> (forall a, never_stuck (k a)) ->
  never_stuck (emit_bind m k).
Proof.
  intros Hm Hk s. unfold emit_bind.
  destruct (m s) as [[a s1]|[]| |] eqn:E; simpl; try discriminate.
  - apply Hk.
  - exfalso. apply (Hm s E).
Qed.

Lemma never_stuck_assert {S} (b : bool) : never_stuck (@emit_assert S b).
Proof. destruct b; [apply never_stuck_ret | apply never_stuck_abort]. Qed.

Lemma never_stuck_deref {S A} (p : option A) : never_stuck (@deref S A p).
Proof. destruct p; [apply never_stuck_ret | apply never_stuck_abort]. Qed.

Lemma never_stuck_get_it : never_stuck get_it.
Proof. intros s. discriminate. Qed.

Lemma never_stuck_modify_it f : never_stuck (modify_it f).
Proof. intros s. discriminate. Qed.

Lemma never_stuck_if {S A} (b : bool) (m1 m2 : stm S A) :
  never_stuck m1 -> never_stuck m2 -> never_stuck (if b then m1 else m2).
Proof. destruct b; auto. Qed.

Ltac stuck_step :=
  first
    [ apply never_stuck_ret | apply never_stuck_abort
    | apply never_stuck_assert | apply never_stuck_deref
    | apply never_stuck_get_it | apply never_stuck_modify_it
    | apply never_stuck_bind; [|intros ?]
    | apply never_stuck_if
    | match goal with
      | |- never_stuck (match ?x with _ => _ end) => destruct x
      end ].

Section Each.
Context {api : flecs_api} (world : ecs_world_t) (rule : ecs_rule_t).

Lemma each_skip_result (entities : list Z) (count : Z) :
  forall fuel row e it r it',
    each_skip fuel entities row count e it = Done (Some r, it') ->
    it' = it
    /\ r <> EcsWildcard /\ r <> EcsThis
    /\ exists row', row <= row'
         /\ (row' = row /\ r = e \/ zlookup entities row' = Some r).
Proof.
  induction fuel as [|fuel IH]; intros row e it r it' H;
    cbn [each_skip] in H;
    destruct ((e =? EcsWildcard) || (e =? EcsThis)) eqn:Eb;
    try discriminate.
  - inversion H; subst. apply orb_false_iff in Eb. destruct Eb as [E1 E2].
    apply Z.eqb_neq in E1, E2.
    repeat split; try assumption. exists row. split; [lia|]. left. auto.
  - destruct (row + 1 =? count); [discriminate|].
    apply emit_bind_done in H. destruct H as [e1 [it1 [Hd H]]].
    destruct (zlookup entities (row + 1)) as [x|] eqn:Hx;
      [|discriminate].
    inversion Hd; subst e1 it1.
    destruct (IH _ _ _ _ _ H) as [Hit [Hw [Ht [row' [Hle Hrow]]]]].
    repeat split; try assumption.
    exists row'. split; [lia|]. right.
    destruct Hrow as [[-> ->] | Hrow]; [exact Hx | exact Hrow].
  - inversion H; subst. apply orb_false_iff in Eb. destruct Eb as [E1 E2].
    apply Z.eqb_neq in E1, E2.
    repeat split; try assumption. exists row. split; [lia|]. left. auto.
Qed.

Lemma each_skip_fuel (entities : list Z) (count : Z) :
  forall fuel row e it,
    zlookup entities row = Some e ->
    Z.of_nat (length entities) - row <= Z.of_nat fuel ->
    each_skip fuel entities row count e it <> Stuck.
Proof.
  induction fuel as [|fuel IH]; intros row e it He Hf;
    pose proof (zlookup_nonneg _ _ _ He) as Hr;
    cbn [each_skip];
    destruct ((e =? EcsWildcard) || (e =? EcsThis)); try discriminate.
  - lia.
  - destruct (row + 1 =? count); [discriminate|].
    unfold emit_bind, deref.
    destruct (zlookup entities (row + 1)) as [x|] eqn:Hx;
      [|discriminate].
    unfold emit_ret. cbn [obind]. apply IH; [exact Hx | lia].
Qed.

(** X6.  The loop of [eval_each] that skips builtin entities, started
    on an entity of the table with as much fuel as the table has rows,
    ends; when it returns an entity, the entity is neither [EcsWildcard]
    nor [EcsThis], it is the entity it started on or one of a later row,
    and the iterator is untouched. *)
Theorem each_skips_builtin_entities (entities : list Z) (row count e : Z)
    (it : ecs_iter_t) :
  zlookup entities row = Some e ->
  each_skip (length entities) entities row count e it <> Stuck
  /\ forall r it',
       each_skip (length entities) entities row count e it
       = Done (Some r, it') ->
       it' = it
       /\ r <> EcsWildcard /\ r <> EcsThis
       /\ exists row', row <= row'
            /\ (row' = row /\ r = e \/ zlookup entities row' = Some r).
Proof.
  intros He. split.
  - apply each_skip_fuel; [exact He|].
    pose proof (zlookup_nonneg _ _ _ He). lia.
  - intros r it'. apply each_skip_result.
Qed.
End Each.

(** The table [Wildcard; This; 7]: 7 is returned. *)
Lemma each_skips_builtin_entities_witness :
  each_skip (api := sample_api) 3 [266; 267; 7] 0 3 266
    (Sample.iterator (Sample.compiled Sample.rule_located_any)
       Sample.heap_zero)
  <> Stuck.
Proof.
  apply (proj1 (each_skips_builtin_entities (api := sample_api)
                  [266; 267; 7] 0 3 266 _ eq_refl)).
Defined.

(** ** Column search *)

Section Columns.
Context {api : flecs_api} (world : ecs_world_t).

Lemma same_var_scan_spec :
  forall ids i,
    same_var_scan ids i = -1
    \/ exists k id,
         same_var_scan ids i = i + Z.of_nat k
         /\ ids !! k = Some id
         /\ ECS_HAS_ROLE_PAIR id = true
         /\ ECS_PAIR_RELATION id = ECS_PAIR_OBJECT id
         /\ forall j id', (j < k)%nat -> ids !! j = Some id' ->
              ECS_HAS_ROLE_PAIR id' = true
              /\ ECS_PAIR_RELATION id' <> ECS_PAIR_OBJECT id'.
Proof.
  induction ids as [|id ids IH]; intros i; cbn [same_var_scan].
  - left. reflexivity.
  - destruct (ECS_HAS_ROLE_PAIR id) eqn:Hp; cbn [negb]; [|left; reflexivity].
    destruct (ECS_PAIR_RELATION id =? ECS_PAIR_OBJECT id) eqn:He.
    + right. exists 0%nat, id. apply Z.eqb_eq in He.
      split; [lia|]. split; [reflexivity|]. split; [exact Hp|].
      split; [exact He|]. intros j id' Hj. lia.
    + destruct (IH (i + 1)) as [H|[k [x [Hr [Hx [Hxp [Hxe Hbefore]]]]]]].
      * left. exact H.
      * right. exists (S k), x. split; [rewrite Hr; lia|].
        split; [exact Hx|]. split; [exact Hxp|]. split; [exact Hxe|].
        intros [|j] id' Hj Hid.
        -- inversion Hid; subst. apply Z.eqb_neq in He. auto.
        -- apply (Hbefore j id'); [lia | exact Hid].
Qed.

(** X7.  [find_next_same_var] asserts that the pattern is the pair of two
    wildcards and returns -1 or the first column after [column] whose id
    is a pair with the same relation and object; every column between is
    a pair whose relation and object differ, and the scan gives up at
    the first id that is not a pair. *)
Theorem find_next_same_var_first {S} (type : list Z) (column pattern : Z)
    (s s' : S) (r : Z) :
  find_next_same_var type column pattern s = Done (r, s') ->
  s' = s
  /\ pattern = ecs_pair EcsWildcard EcsWildcard
  /\ (r = -1
      \/ column < r
         /\ (exists id, zlookup type r = Some id
               /\ ECS_HAS_ROLE_PAIR id = true
               /\ ECS_PAIR_RELATION id = ECS_PAIR_OBJECT id)
         /\ forall j id', column < j < r -> zlookup type j = Some id' ->
              ECS_HAS_ROLE_PAIR id' = true
              /\ ECS_PAIR_RELATION id' <> ECS_PAIR_OBJECT id').
Proof.
  unfold find_next_same_var, emit_bind, emit_assert.
  destruct (pattern =? ecs_pair EcsWildcard EcsWildcard) eqn:Hp;
    [|discriminate].
  apply Z.eqb_eq in Hp. unfold emit_ret. cbn [obind].
  destruct (column + 1 <? 0) eqn:Hc; [discriminate|].
  apply Z.ltb_ge in Hc.
  intros H. inversion H; subst. clear H.
  split; [reflexivity|]. split; [reflexivity|].
  destruct (same_var_scan_spec (drop (Z.to_nat (column + 1)) type)
              (column + 1))
    as [Hm|[k [id [Hr [Hid [Hpair [Hsame Hbefore]]]]]]].
  - left. exact Hm.
  - right. rewrite Hr. rewrite lookup_drop in Hid.
    assert (Hidx : Z.to_nat (column + 1 + Z.of_nat k)
                   = (Z.to_nat (column + 1) + k)%nat) by lia.
    split; [lia|]. split.
    + exists id. split; [|split; assumption].
      rewrite zlookup_nat by lia. rewrite Hidx. exact Hid.
    + intros j id' Hj Hj'. rewrite zlookup_nat in Hj' by lia.
      apply (Hbefore (Z.to_nat j - Z.to_nat (column + 1))%nat id'); [lia|].
      rewrite lookup_drop.
      replace (Z.to_nat (column + 1)
               + (Z.to_nat j - Z.to_nat (column + 1)))%nat
        with (Z.to_nat j) by lia.
      exact Hj'.
Qed.

(** X8.  Continuing from a column of the table, [find_next_column]
    (for a filter whose predicate and object are not the same variable)
    always returns, never modifies the state and only looks at the
    column that follows: it returns that column when the table has it
    and its id matches the pattern, and -1 when the table has no such
    column or its id does not match. *)
Theorem find_next_column_adjacent {S} (t : table_t) (column : Z)
    (filter : ecs_rule_filter_t) (s : S) :
  0 <= column -> same_var filter = false ->
  exists r,
    find_next_column world (Some t) column filter s = Done (r, s)
    /\ ((exists id, zlookup (table_type world t) (column + 1) = Some id
           /\ ecs_id_match world id (mask filter) = true)
        -> r = column + 1)
    /\ ((forall id, zlookup (table_type world t) (column + 1) = Some id ->
           ecs_id_match world id (mask filter) = false)
        -> r = -1).
Proof.
  intros Hc Hs.
  assert (Hne : (column =? -1) = false) by (apply Z.eqb_neq; lia).
  unfold find_next_column, emit_bind, deref, emit_ret. cbn [obind].
  rewrite Hne.
  destruct (Z.of_nat (length (table_type world t)) <=? column + 1) eqn:Hlen;
    cbn [obind].
  - apply Z.leb_le in Hlen. exists (-1). split; [reflexivity|]. split.
    + intros [id [Hid _]]. rewrite zlookup_nat in Hid by lia.
      apply lookup_lt_Some in Hid. lia.
    + reflexivity.
  - apply Z.leb_gt in Hlen.
    destruct (zlookup (table_type world t) (column + 1)) as [id|] eqn:Hid;
      cbn [obind].
    + destruct (ecs_id_match world id (mask filter)) eqn:Hm;
        cbn [negb obind]; rewrite ?Hs.
      * exists (column + 1). split; [reflexivity|]. split; [reflexivity|].
        intros H. specialize (H id eq_refl). congruence.
      * exists (-1). split; [reflexivity|]. split; [|reflexivity].
        intros [id' [Hid' Hm']]. congruence.
    + exfalso. rewrite zlookup_nat in Hid by lia.
      apply lookup_ge_None in Hid. lia.
Qed.
End Columns.

(** Table 2 of the sample world, of type [[Foo; (LocatedIn, b)]],
    searched for the pair of [LocatedIn] and the wildcard after column
    0: column 1. *)
Lemma find_next_column_adjacent_witness :
  find_next_column (api := sample_api) Sample.world (Some 2%nat) 0
    (mk_filter (ecs_pair (api := sample_api) 1000 266)
       false false false false (-1) (-1)) tt
  = Done (1, tt).
Proof.
  destruct (find_next_column_adjacent (api := sample_api) Sample.world
              2%nat 0
              (mk_filter (ecs_pair (api := sample_api) 1000 266)
                 false false false false (-1) (-1)) tt)
    as [r [Hr [Hyes _]]].
  - lia.
  - reflexivity.
  - assert (Hfound : r = 0 + 1).
    { apply Hyes. exists (ecs_pair (api := sample_api) 1000 2002).
      split; vm_compute; reflexivity. }
    rewrite Hfound in Hr. exact Hr.
Defined.

(** The type [[(1,2); (3,3)]], scanned after column -1: column 1. *)
Lemma find_next_same_var_first_witness :
  find_next_same_var (api := sample_api) (S := unit)
    [ecs_pair (api := sample_api) 1 2; ecs_pair (api := sample_api) 3 3]
    (-1) (ecs_pair (api := sample_api) 266 266) tt
  = Done (1, tt)
  /\ ECS_PAIR_RELATION (ecs_pair (api := sample_api) 1 2)
     <> ECS_PAIR_OBJECT (ecs_pair (api := sample_api) 1 2).
Proof.
  assert (H : find_next_same_var (api := sample_api) (S := unit)
                [ecs_pair (api := sample_api) 1 2;
                 ecs_pair (api := sample_api) 3 3]
                (-1) (ecs_pair (api := sample_api) 266 266) tt
              = Done (1, tt)) by (vm_compute; reflexivity).
  split; [exact H|].
  destruct (find_next_same_var_first (api := sample_api) _ _ _ _ _ _ H)
    as [_ [_ [Hr|[_ [_ Hbetween]]]]]; [discriminate Hr|].
  apply (Hbetween 0 (ecs_pair (api := sample_api) 1 2));
    [lia | reflexivity].
Defined.

(** ** Variable ids and kinds during scanning *)

Lemma well_numbered_nil : well_numbered [].
Proof. intros i v H. rewrite lookup_nil in H. discriminate. Qed.

Lemma well_numbered_app vars kind nm :
  kind <> EcsRuleVarKindUnknown ->
  well_numbered vars ->
  well_numbered
    (vars ++ [mk_var kind nm (Z.of_nat (length vars)) 0 UINT8_MAX false]).
Proof.
  intros Hk Hw i v Hv.
  apply lookup_app_Some in Hv. destruct Hv as [Hl | [Hlen Hr]].
  - apply (Hw i v Hl).
  - destruct (i - length vars)%nat as [|n] eqn:E; [|discriminate].
    inversion Hr; subst v. cbn. split; [f_equal; lia | exact Hk].
Qed.

Lemma well_numbered_alter vars f i :
  (forall v, var_id (f v) = var_id v
             /\ (var_kind v <> EcsRuleVarKindUnknown ->
                 var_kind (f v) <> EcsRuleVarKindUnknown)) ->
  well_numbered vars -> well_numbered (alter f i vars).
Proof.
  intros Hf Hw j v Hv.
  destruct (Nat.eq_dec j i) as [->|Hne].
  - rewrite list_lookup_alter_eq in Hv.
    destruct (vars !! i) as [u|] eqn:Hu; [|discriminate].
    inversion Hv; subst v. destruct (Hw i u Hu) as [Hid Hk].
    destruct (Hf u) as [Hfid Hfk]. split; [congruence | auto].
  - rewrite list_lookup_alter_ne in Hv by congruence. apply (Hw j v Hv).
Qed.

Lemma well_numbered_renumber vars :
  (forall v, v ∈ vars -> var_kind v <> EcsRuleVarKindUnknown) ->
  well_numbered (renumber vars).
Proof.
  intros Hk i v Hv. unfold renumber in Hv.
  rewrite list_lookup_imap in Hv.
  destruct (vars !! i) as [u|] eqn:Hu; [|discriminate].
  inversion Hv; subst v. split; [reflexivity|].
  apply (Hk u). apply (list_elem_of_lookup_2 _ _ _ Hu).
Qed.

Lemma scanned_create terms rule kind name :
  kind <> EcsRuleVarKindUnknown ->
  scanned terms rule -> scanned terms (fst (create_variable rule kind name)).
Proof.
  intros Hk [Ht Hw]. unfold create_variable. cbn [fst].
  split; [destruct rule; exact Ht|].
  rewrite variables_set_variables.
  replace (S (length (variables rule)) - 1)%nat
    with (length (variables rule)) by lia.
  apply well_numbered_app; assumption.
Qed.

Lemma scanned_alter terms rule f i :
  (forall v, var_id (f v) = var_id v
             /\ (var_kind v <> EcsRuleVarKindUnknown ->
                 var_kind (f v) <> EcsRuleVarKindUnknown)) ->
  scanned terms rule -> scanned terms (alter_var f i rule).
Proof.
  intros Hf [Ht Hw]. unfold alter_var.
  split; [destruct rule; exact Ht|].
  rewrite variables_set_variables. apply well_numbered_alter; assumption.
Qed.

Lemma keeps_id_occurs n v :
  var_id (set_var_occurs n v) = var_id v
  /\ (var_kind v <> EcsRuleVarKindUnknown ->
      var_kind (set_var_occurs n v) <> EcsRuleVarKindUnknown).
Proof. split; [reflexivity | auto]. Qed.

Lemma keeps_id_depth n v :
  var_id (set_var_depth n v) = var_id v
  /\ (var_kind v <> EcsRuleVarKindUnknown ->
      var_kind (set_var_depth n v) <> EcsRuleVarKindUnknown).
Proof. split; [reflexivity | auto]. Qed.

Lemma keeps_id_marked b v :
  var_id (set_var_marked b v) = var_id v
  /\ (var_kind v <> EcsRuleVarKindUnknown ->
      var_kind (set_var_marked b v) <> EcsRuleVarKindUnknown).
Proof. split; [reflexivity | auto]. Qed.

Lemma keeps_id_kind k v :
  k <> EcsRuleVarKindUnknown ->
  var_id (set_var_kind k v) = var_id v
  /\ (var_kind v <> EcsRuleVarKindUnknown ->
      var_kind (set_var_kind k v) <> EcsRuleVarKindUnknown).
Proof. intros Hk. split; [reflexivity | intros _; exact Hk]. Qed.

Lemma scanned_ensure terms rule kind name :
  kind <> EcsRuleVarKindUnknown ->
  scanned terms rule -> scanned terms (fst (ensure_variable rule kind name)).
Proof.
  intros Hk Hs. unfold ensure_variable.
  destruct (find_variable rule kind name) as [i|].
  - destruct (variables rule !! i) as [v|]; [|exact Hs].
    destruct (kind_eqb (var_kind v) EcsRuleVarKindUnknown); [|exact Hs].
    cbn [fst]. apply scanned_alter; [|exact Hs].
    intros u. apply keeps_id_kind. exact Hk.
  - apply scanned_create; assumption.
Qed.

Lemma fold_left_invariant {A B} (P : A -> Prop) (f : A -> B -> A) l :
  (forall a b, P a -> P (f a b)) -> forall a, P a -> P (fold_left f l a).
Proof.
  intros Hf. induction l as [|b l IH]; intros a Ha; simpl; auto.
Qed.

Section ScanInvariant.
Context {api : flecs_api}.

Lemma scanned_ensure_all terms rule :
  scanned terms rule -> scanned terms (ensure_all_variables rule).
Proof.
  intros Hs. unfold ensure_all_variables.
  apply fold_left_invariant; [|exact Hs].
  intros r term Hr.
  destruct (skip_term term); [exact Hr|].
  assert (He : EcsRuleVarKindEntity <> EcsRuleVarKindUnknown)
    by discriminate.
  repeat match goal with
         | |- context [if ?b then _ else _] => destruct b
         end;
    repeat (apply scanned_ensure; [exact He|]); exact Hr.
Qed.

Lemma scanned_seed terms rule :
  scanned terms rule -> scanned terms (seed_literal_depths rule).
Proof.
  intros Hs. unfold seed_literal_depths.
  apply fold_left_invariant; [|exact Hs].
  intros r term Hr.
  destruct (term_id_is_entity (term_subj_id term)); [|exact Hr].
  cbv zeta.
  destruct (term_pred r term), (term_obj r term);
    repeat (apply scanned_alter; [intros v; apply keeps_id_depth|]);
    exact Hr.
Qed.

Lemma scanned_scan_subject terms st term st' :
  scanned terms (sc_rule st) ->
  scan_subject st term = Done st' -> scanned terms (sc_rule st').
Proof.
  intros Hs. unfold scan_subject.
  destruct (term_id_is_variable (term_subj_id term));
    [|intros H; inversion H; subst; exact Hs].
  set (name := term_id_var_name (term_subj_id term)).
  assert (Hstep : forall rule subj,
            scanned terms rule ->
            scanned terms
              (alter_var
                 (set_var_occurs
                    (from_option var_occurs 0 (variables rule !! subj) + 1))
                 subj rule)).
  { intros rule subj Hr. apply scanned_alter; [|exact Hr].
    intros v. apply keeps_id_occurs. }
  destruct (find_variable (sc_rule st) EcsRuleVarKindTable name) as [subj|].
  - cbn [obind].
    match goal with
    | |- context [if ?b then _ else _] => destruct b
    end; intros H; inversion H; subst; cbn [sc_rule];
      apply Hstep; exact Hs.
  - pose proof (scanned_create terms (sc_rule st) EcsRuleVarKindTable
                  (Some name)) as Hc.
    destruct (create_variable (sc_rule st) EcsRuleVarKindTable (Some name))
      as [rule subj].
    cbn [fst] in Hc.
    destruct (sc_subject_count st >=? ECS_RULE_MAX_VARIABLE_COUNT);
      cbn [obind]; [discriminate|].
    match goal with
    | |- context [if ?b then _ else _] => destruct b
    end; intros H; inversion H; subst; cbn [sc_rule];
      apply Hstep; (apply Hc; [discriminate | exact Hs]).
Qed.

Lemma scanned_scan_roots terms rule st :
  scanned terms rule ->
  scan_roots rule = Done st -> scanned terms (sc_rule st).
Proof.
  intros Hs H. unfold scan_roots in H.
  apply (for_each_invariant (fun s => scanned terms (sc_rule s))
           scan_subject) in H; [exact H | | exact Hs].
  intros s a s' Hi Hd. apply (scanned_scan_subject _ _ _ _ Hi Hd).
Qed.
End ScanInvariant.

Lemma obind_done {E A B} (m : outcome E A) (k : A -> outcome E B) b :
  obind m k = Done b -> exists a, m = Done a /\ k a = Done b.
Proof.
  destruct m as [a| | |]; simpl; try discriminate.
  intros H. exists a. split; [reflexivity | exact H].
Qed.

Section DepthInvariant.
Context {api : flecs_api} (terms : list ecs_term_t).
Variable rec : ecs_rule_t -> nat -> nat -> Z -> crash (ecs_rule_t * Z).
Hypothesis rec_scanned :
  forall rule i root recur rule' d,
    scanned terms rule -> rec rule i root recur = Done (rule', d) ->
    scanned terms rule'.

Lemma scanned_crawl_visit rule var root recur p rule' :
  scanned terms rule ->
  crawl_visit rec rule var root recur p = Done rule' ->
  scanned terms rule'.
Proof.
  intros Hs. unfold crawl_visit.
  destruct p as [i|]; [|intros H; inversion H; subst; exact Hs].
  destruct (negb (i =? var)%nat && negb (marked_at rule i));
    [|intros H; inversion H; subst; exact Hs].
  intros H. apply obind_done in H. destruct H as [[r d] [Hr H]].
  inversion H; subst. apply (rec_scanned _ _ _ _ _ _ Hs Hr).
Qed.

Lemma scanned_crawl_variable rule var root recur rule' :
  scanned terms rule ->
  crawl_variable rec rule var root recur = Done rule' ->
  scanned terms rule'.
Proof.
  intros Hs H. unfold crawl_variable in H.
  refine (for_each_invariant (scanned terms) _ _ _ _ _ Hs H).
  intros r term r' Hr. cbv beta.
  destruct (skip_term term); [intros H0; inversion H0; subst; exact Hr|].
  match goal with
  | |- context [if ?b then _ else _] => destruct b
  end; [intros H0; inversion H0; subst; exact Hr|].
  intros H0. apply obind_done in H0. destruct H0 as [r1 [H1 H0]].
  apply obind_done in H0. destruct H0 as [r2 [H2 H0]].
  apply (scanned_crawl_visit _ _ _ _ _ _ Hr) in H1.
  apply (scanned_crawl_visit _ _ _ _ _ _ H1) in H2.
  apply (scanned_crawl_visit _ _ _ _ _ _ H2) in H0. exact H0.
Qed.

Lemma scanned_depth_from_var rule var root recur rule' d :
  scanned terms rule ->
  get_depth_from_var rec rule var root recur = Done (rule', d) ->
  scanned terms rule'.
Proof.
  intros Hs. unfold get_depth_from_var.
  destruct ((var =? root)%nat || negb (depth_at rule var =? UINT8_MAX));
    [intros H; inversion H; subst; exact Hs|].
  destruct (marked_at rule var); [intros H; inversion H; subst; exact Hs|].
  intros H. apply obind_done in H. destruct H as [[r x] [Hr H]].
  apply (rec_scanned _ _ _ _ _ _ Hs) in Hr.
  destruct (x =? UINT8_MAX); inversion H; subst; exact Hr.
Qed.

Lemma scanned_depth_from_term rule cur pred obj root recur rule' d :
  scanned terms rule ->
  get_depth_from_term rec rule cur pred obj root recur = Done (rule', d) ->
  scanned terms rule'.
Proof.
  intros Hs. unfold get_depth_from_term.
  assert (Hobj : forall r1 res r2 x,
            scanned terms r1 ->
            match obj with
            | Some o =>
                if negb (cur =? o)%nat then
                  do (rule2, depth) <-
                    get_depth_from_var rec r1 o root recur;
                  if depth =? UINT8_MAX then Done (rule2, UINT8_MAX)
                  else Done (rule2, if depth <? res then depth else res)
                else Done (r1, res)
            | None => Done (r1, res)
            end = Done (r2, x) -> scanned terms r2).
  { intros r1 res r2 x H1.
    destruct obj as [o|]; [|intros H; inversion H; subst; exact H1].
    destruct (negb (cur =? o)%nat);
      [|intros H; inversion H; subst; exact H1].
    intros H. apply obind_done in H. destruct H as [[r y] [Hr H]].
    apply (scanned_depth_from_var _ _ _ _ _ _ H1) in Hr.
    destruct (y =? UINT8_MAX); inversion H; subst; exact Hr. }
  destruct pred as [p|].
  - destruct (negb (cur =? p)%nat).
    + intros H. apply obind_done in H. destruct H as [[r y] [Hr H]].
      apply (scanned_depth_from_var _ _ _ _ _ _ Hs) in Hr.
      destruct (y =? UINT8_MAX); [inversion H; subst; exact Hr|].
      apply (Hobj _ _ _ _ Hr H).
    + apply (Hobj _ _ _ _ Hs).
  - destruct obj as [o|]; [|intros H; inversion H; subst; exact Hs].
    apply (Hobj _ _ _ _ Hs).
Qed.

Lemma scanned_depth_body rule var root recur rule' d :
  scanned terms rule ->
  get_variable_depth_body rec rule var root recur = Done (rule', d) ->
  scanned terms rule'.
Proof.
  intros Hs. unfold get_variable_depth_body.
  intros H. apply obind_done in H. destruct H as [[r1 res] [H1 H]].
  apply obind_done in H. destruct H as [r2 [H2 H]].
  inversion H; subst; clear H.
  assert (Hm : scanned terms (alter_var (set_var_marked true) var rule)).
  { apply scanned_alter; [intros v; apply keeps_id_marked | exact Hs]. }
  assert (Hr1 : scanned terms r1).
  { change (scanned terms (fst (r1, res))).
    refine (for_each_invariant (fun s => scanned terms (fst s))
              _ _ _ (alter_var (set_var_marked true) var rule, UINT8_MAX)
              (r1, res) Hm H1).
    intros [r x] term [r' x'] Hr. cbn [fst] in *.
    destruct (skip_term term); [intros H0; inversion H0; subst; exact Hr|].
    destruct (negb (ptr_eqb (term_subj r term) (Some var)));
      [intros H0; inversion H0; subst; exact Hr|].
    intros H0. apply obind_done in H0. destruct H0 as [[r0 y] [H0 H3]].
    inversion H3; subst.
    apply (scanned_depth_from_term _ _ _ _ _ _ _ _ Hr H0). }
  refine (for_each_invariant (scanned terms) _ _ _ _ _ _ H2).
  - intros r term r' Hr. cbv beta.
    destruct (skip_term term); [intros H0; inversion H0; subst; exact Hr|].
    destruct (negb (ptr_eqb (term_subj r term) (Some var)));
      [intros H0; inversion H0; subst; exact Hr|].
    intros H0. apply obind_done in H0. destruct H0 as [ra [Ha H0]].
    apply obind_done in H0. destruct H0 as [rb [Hb H0]].
    apply (scanned_crawl_variable _ _ _ _ _ Hr) in Ha.
    assert (Hrb : scanned terms rb).
    { destruct (term_pred r term) as [p|];
        [|inversion Hb; subst; exact Ha].
      destruct (negb (p =? var)%nat); [|inversion Hb; subst; exact Ha].
      apply (scanned_crawl_variable _ _ _ _ _ Ha Hb). }
    destruct (term_obj r term) as [o|]; [|inversion H0; subst; exact Hrb].
    destruct (negb (o =? var)%nat); [|inversion H0; subst; exact Hrb].
    apply (scanned_crawl_variable _ _ _ _ _ Hrb H0).
  - apply scanned_alter; [intros v; apply keeps_id_depth | exact Hr1].
Qed.
End DepthInvariant.

Section ScanResult.
Context {api : flecs_api}.

Lemma scanned_get_variable_depth terms :
  forall fuel rule var root recur rule' d,
    scanned terms rule ->
    get_variable_depth fuel rule var root recur = Done (rule', d) ->
    scanned terms rule'.
Proof.
  induction fuel as [|fuel IH]; intros rule var root recur rule' d Hs H;
    cbn [get_variable_depth] in H; [discriminate|].
  apply (scanned_depth_body terms (get_variable_depth fuel) IH
           _ _ _ _ _ _ Hs H).
Qed.

Lemma scanned_rule_of_terms terms : scanned terms (rule_of_terms terms).
Proof. split; [reflexivity | apply well_numbered_nil]. Qed.

Lemma scanned_set_subject_count terms n rule :
  scanned terms rule -> scanned terms (set_subject_variable_count n rule).
Proof. intros [Ht Hw]. split; [exact Ht | exact Hw]. Qed.

Lemma scanned_scan_variables_order terms rule rule' root :
  scanned terms rule ->
  scan_variables_order rule = Done (rule', root) ->
  scanned terms rule'.
Proof.
  intros Hs H. unfold scan_variables_order in H.
  apply obind_done in H. destruct H as [st [Hst H]].
  apply (scanned_scan_roots _ _ _ Hs) in Hst.
  assert (H0 : scanned terms
            (seed_literal_depths
               (ensure_all_variables
                  (set_subject_variable_count
                     (variable_count (sc_rule st)) (sc_rule st))))).
  { apply scanned_seed, scanned_ensure_all, scanned_set_subject_count.
    exact Hst. }
  destruct (elect_root (sc_this_var st) (sc_max_occur_var st)) as [rv|];
    [|inversion H; subst; exact H0].
  apply obind_done in H. destruct H as [[r d] [Hd H]].
  apply lift_done in Hd.
  apply (scanned_get_variable_depth _ _ _ _ _ _ _ _ H0) in Hd.
  apply obind_done in H. destruct H as [u1 [_ H]].
  apply obind_done in H. destruct H as [u2 [_ H]].
  inversion H; subst.
  apply scanned_alter; [intros v; apply keeps_id_depth | exact Hd].
Qed.

Lemma scanned_scan_variables terms rule rule' :
  qsort_keeps_elements ->
  scanned terms rule ->
  scan_variables rule = Done rule' ->
  scanned terms rule'.
Proof.
  intros Hq Hs H. unfold scan_variables in H.
  apply obind_done in H. destruct H as [[r root] [Ho H]].
  apply (scanned_scan_variables_order _ _ _ _ Hs) in Ho.
  destruct root as [root|]; inversion H; subst; [|exact Ho].
  destruct Ho as [Ht Hw].
  split; [destruct r; exact Ht|].
  rewrite variables_set_variables. apply well_numbered_renumber.
  intros v Hv. apply Hq in Hv.
  apply list_elem_of_lookup_1 in Hv. destruct Hv as [i Hi].
  apply (Hw i v Hi).
Qed.
End ScanResult.

Lemma sort_insert_elements {A} (cmp : A -> A -> Z) (x y : A) (l : list A) :
  y ∈ sort_insert cmp x l -> y = x \/ y ∈ l.
Proof.
  induction l as [|z l IH]; simpl.
  - intros H. apply list_elem_of_singleton in H. left. exact H.
  - destruct (cmp x z <? 0).
    + intros H. apply elem_of_cons in H. exact H.
    + intros H. apply elem_of_cons in H. destruct H as [->|H].
      * right. apply elem_of_cons. left. reflexivity.
      * destruct (IH H) as [->|H']; [left; reflexivity|].
        right. apply elem_of_cons. right. exact H'.
Qed.

Lemma sample_qsort_keeps_elements : @qsort_keeps_elements sample_api.
Proof.
  intros cmp l. cbn [ecs_qsort sample_api]. unfold insertion_sort.
  induction l as [|a l IH]; intros x; simpl; [auto|].
  intros H. apply sort_insert_elements in H. apply elem_of_cons.
  destruct H as [->|H]; [left; reflexivity | right; apply IH, H].
Qed.

(** ** What the emitter keeps *)

Section Keeps.
Context {api : flecs_api} (world : ecs_world_t).
Variable P : ecs_rule_t -> Prop.
Hypothesis HP : emitter_invariant P.

Lemma keeps_ret {A} (a : A) : keeps P (emit_ret a).
Proof. intros st b st' Hs H. inversion H; subst. exact Hs. Qed.

Lemma keeps_abort {A} : keeps P (@emit_abort _ A).
Proof. intros st b st' Hs H. discriminate. Qed.

Lemma keeps_bind {A B} (m : emit A) (k : A -> emit B) :
  keeps P m -> (forall a, keeps P (k a)) -> keeps P (emit_bind m k).
Proof.
  intros Hm Hk st b st' Hs H.
  apply emit_bind_done in H. destruct H as [a [s1 [H1 H2]]].
  apply (Hk a s1 b st'); [|exact H2]. apply (Hm st a s1 Hs H1).
Qed.

Lemma keeps_assert b : keeps P (emit_assert b).
Proof. destruct b; [apply keeps_ret | apply keeps_abort]. Qed.

Lemma keeps_deref {A} (p : option A) : keeps P (deref p).
Proof. destruct p; [apply keeps_ret | apply keeps_abort]. Qed.

Lemma keeps_if {A} (b : bool) (m1 m2 : emit A) :
  keeps P m1 -> keeps P m2 -> keeps P (if b then m1 else m2).
Proof. destruct b; auto. Qed.

Lemma keeps_get_rule : keeps P get_rule.
Proof. intros st b st' Hs H. inversion H; subst. exact Hs. Qed.

Lemma keeps_is_written id : keeps P (is_written id).
Proof.
  intros st b st' Hs H. unfold is_written in H.
  destruct (written_get (snd st) id); simpl in H; try discriminate.
  inversion H; subst. exact Hs.
Qed.

Lemma keeps_mark_written id : keeps P (mark_written id).
Proof.
  intros st b st' Hs H. unfold mark_written in H.
  destruct (written_set (snd st) id); simpl in H; try discriminate.
  inversion H; subst. exact Hs.
Qed.

Lemma keeps_var_id_of v : keeps P (var_id_of v).
Proof.
  unfold var_id_of. apply keeps_bind; [apply keeps_get_rule|].
  intros r. apply keeps_ret.
Qed.

Lemma keeps_update_op op f : keeps P (update_op op f).
Proof.
  intros st b st' Hs H. unfold update_op, modify_rule in H.
  inversion H; subst. cbn [fst]. apply (inv_update_op P HP). exact Hs.
Qed.

Lemma keeps_get_op op : keeps P (get_op op).
Proof.
  unfold get_op. apply keeps_bind; [apply keeps_get_rule|].
  intros r. apply keeps_deref.
Qed.

Lemma keeps_create_operation : keeps P create_operation.
Proof.
  intros st b st' Hs H. unfold create_operation in H.
  unfold emit_bind, get_rule, modify_rule, emit_ret in H. cbn in H.
  inversion H; subst. cbn [fst]. apply (inv_create_operation P HP). exact Hs.
Qed.

Lemma keeps_push_frame : keeps P push_frame.
Proof.
  intros st b st' Hs H. unfold push_frame in H.
  unfold emit_bind, get_rule, modify_rule, emit_ret in H. cbn in H.
  inversion H; subst. cbn [fst]. apply (inv_push_frame P HP). exact Hs.
Qed.

Lemma keeps_create_variable kind name :
  kind <> EcsRuleVarKindUnknown -> keeps P (emit_create_variable kind name).
Proof.
  intros Hk st b st' Hs H. unfold emit_create_variable in H.
  pose proof (inv_create_variable P HP (fst st) kind name Hk Hs) as Hc.
  destruct (create_variable (fst st) kind name) as [r v].
  inversion H; subst. exact Hc.
Qed.

Lemma keeps_fold {A B} (g : emit B -> A -> emit B) (l : list A) :
  (forall acc a, keeps P acc -> keeps P (g acc a)) ->
  forall m, keeps P m -> keeps P (fold_left g l m).
Proof.
  intros Hg. induction l as [|a l IH]; intros m Hm; simpl; auto.
Qed.

Lemma keeps_for_variables bound body :
  (forall v, keeps P (body v)) ->
  forall fuel v, keeps P (for_variables fuel v bound body).
Proof.
  intros Hb. induction fuel as [|fuel IH]; intros v; cbn [for_variables].
  - intros st b st' Hs H. discriminate.
  - apply keeps_bind; [apply keeps_get_rule|]. intros r.
    apply keeps_if; [|apply keeps_ret].
    apply keeps_bind; [apply Hb|]. intros _. apply IH.
Qed.

Create HintDb keeps.

Ltac keeps_step :=
  first
    [ apply keeps_ret | apply keeps_abort | apply keeps_assert
    | apply keeps_deref | apply keeps_get_rule | apply keeps_is_written
    | apply keeps_mark_written | apply keeps_var_id_of
    | apply keeps_update_op | apply keeps_get_op
    | apply keeps_create_operation | apply keeps_push_frame
    | apply keeps_create_variable; discriminate
    | solve [auto with keeps nocore]
    | apply keeps_bind; [|intros ?]
    | apply keeps_if
    | match goal with
      | |- keeps _ (match ?x with _ => _ end) => destruct x
      | |- keeps _ (let '(_, _) := ?x in _) => destruct x
      end
    | progress cbv zeta ].

Ltac keeps_tac := repeat keeps_step.

Lemma keeps_is_known var : keeps P (is_known var).
Proof. unfold is_known. keeps_tac. Qed.
#[local] Hint Resolve keeps_is_known : keeps.

Lemma keeps_is_pair_known pair : keeps P (is_pair_known pair).
Proof. unfold is_pair_known. keeps_tac. Qed.
#[local] Hint Resolve keeps_is_pair_known : keeps.

Lemma keeps_insert_each_for t e : keeps P (insert_each_for t e).
Proof. unfold insert_each_for. keeps_tac. Qed.
#[local] Hint Resolve keeps_insert_each_for : keeps.

Lemma keeps_most_specific_var var create :
  keeps P (most_specific_var var create).
Proof. unfold most_specific_var. keeps_tac. Qed.
#[local] Hint Resolve keeps_most_specific_var : keeps.

Lemma keeps_ensure_entity_written var :
  keeps P (ensure_entity_written var).
Proof.
  unfold ensure_entity_written, ensure_most_specific_var. keeps_tac.
Qed.
#[local] Hint Resolve keeps_ensure_entity_written : keeps.

Lemma keeps_term_to_pair term : keeps P (term_to_pair world term).
Proof. unfold term_to_pair. keeps_tac. Qed.
#[local] Hint Resolve keeps_term_to_pair : keeps.

Lemma keeps_specialize_reg reg : keeps P (specialize_reg reg).
Proof. unfold specialize_reg, get_most_specific_var. keeps_tac. Qed.
#[local] Hint Resolve keeps_specialize_reg : keeps.

Lemma keeps_insert_operation c : keeps P (insert_operation world c).
Proof. unfold insert_operation. keeps_tac. Qed.
#[local] Hint Resolve keeps_insert_operation : keeps.

Lemma keeps_insert_input : keeps P insert_input.
Proof. unfold insert_input. keeps_tac. Qed.

Lemma keeps_insert_yield : keeps P insert_yield.
Proof. unfold insert_yield. keeps_tac. Qed.

Lemma keeps_insert_inclusive_set k out pair c incl :
  keeps P (insert_inclusive_set world k out pair c incl).
Proof. unfold insert_inclusive_set. keeps_tac. Qed.
#[local] Hint Resolve keeps_insert_inclusive_set : keeps.

Lemma keeps_store_inclusive_set k pair incl :
  keeps P (store_inclusive_set world k pair incl).
Proof.
  unfold store_inclusive_set. destruct (is_superset k); keeps_tac.
Qed.
#[local] Hint Resolve keeps_store_inclusive_set : keeps.

Lemma keeps_set_input_to_subj op term var :
  keeps P (set_input_to_subj world op term var).
Proof. unfold set_input_to_subj. keeps_tac. Qed.
#[local] Hint Resolve keeps_set_input_to_subj : keeps.

Lemma keeps_set_output_to_subj op term var :
  keeps P (set_output_to_subj world op term var).
Proof. unfold set_output_to_subj. keeps_tac. Qed.
#[local] Hint Resolve keeps_set_output_to_subj : keeps.

Lemma keeps_known_var var : keeps P (known_var var).
Proof. unfold known_var. keeps_tac. Qed.
#[local] Hint Resolve keeps_known_var : keeps.

Lemma keeps_insert_select_or_with c term subj pair :
  keeps P (insert_select_or_with world c term subj pair).
Proof. unfold insert_select_or_with. keeps_tac. Qed.
#[local] Hint Resolve keeps_insert_select_or_with : keeps.

Lemma keeps_prepare_predicate pair : keeps P (prepare_predicate world pair).
Proof. unfold prepare_predicate. keeps_tac. Qed.
#[local] Hint Resolve keeps_prepare_predicate : keeps.

Lemma keeps_insert_term_2 term filter c :
  keeps P (insert_term_2 world term filter c).
Proof. unfold insert_term_2, get_most_specific_var. keeps_tac. Qed.
#[local] Hint Resolve keeps_insert_term_2 : keeps.

Lemma keeps_insert_term_1 term filter c :
  keeps P (insert_term_1 world term filter c).
Proof. unfold insert_term_1, get_most_specific_var. keeps_tac. Qed.
#[local] Hint Resolve keeps_insert_term_1 : keeps.

Lemma keeps_insert_term term c : keeps P (insert_term world term c).
Proof. unfold insert_term, ensure_most_specific_var. keeps_tac. Qed.
#[local] Hint Resolve keeps_insert_term : keeps.

Lemma keeps_insert_terms_where pick :
  keeps P (insert_terms_where world pick).
Proof.
  unfold insert_terms_where. apply keeps_bind; [apply keeps_get_rule|].
  intros r. apply keeps_fold; [|apply keeps_ret].
  intros acc [c term] Hacc. keeps_tac.
Qed.
#[local] Hint Resolve keeps_insert_terms_where : keeps.

Lemma keeps_check_subject_written v : keeps P (check_subject_written v).
Proof. unfold check_subject_written. keeps_tac. Qed.

Lemma keeps_ensure_entity_each v : keeps P (ensure_entity_each world v).
Proof. unfold ensure_entity_each. keeps_tac. Qed.

Lemma keeps_compile_program : keeps P (compile_program world).
Proof.
  unfold compile_program.
  repeat first
    [ apply keeps_insert_input | apply keeps_insert_yield
    | apply keeps_insert_terms_where
    | apply keeps_for_variables; intros ?
    | apply keeps_check_subject_written
    | apply keeps_ensure_entity_each
    | apply keeps_get_rule | apply keeps_assert
    | apply keeps_bind; [|intros ?] ].
Qed.
End Keeps.

(** ** Compiled rules *)

Lemma emitter_invariant_scanned terms : emitter_invariant (scanned terms).
Proof.
  split.
  - intros rule i f [Ht Hw]. split; [exact Ht | exact Hw].
  - intros rule [Ht Hw]. split; [exact Ht | exact Hw].
  - intros rule [Ht Hw]. split; [exact Ht | exact Hw].
  - intros rule kind name Hk Hs. apply scanned_create; assumption.
Qed.

Lemma emitter_invariant_operations n :
  emitter_invariant (fun rule => (n <= length (operations rule))%nat).
Proof.
  split.
  - intros rule i f H. cbn. rewrite length_alter. exact H.
  - intros rule H. cbn. rewrite length_app. simpl. lia.
  - intros rule H. exact H.
  - intros rule kind name _ H. exact H.
Qed.

Section Compiled.
Context {api : flecs_api} (world : ecs_world_t).

(** [ecs_rule_init] up to the name arrays. *)
Lemma ecs_rule_init_done terms rule :
  ecs_rule_init world terms = Done rule ->
  exists scanned_rule st,
    scan_variables (rule_of_terms terms) = Done scanned_rule
    /\ compile_program world (scanned_rule, replicate 256 false)
       = Done (tt, st)
    /\ rule = set_name_arrays (create_variable_name_array (fst st))
                (create_subject_variables (fst st)) (fst st).
Proof.
  unfold ecs_rule_init.
  destruct (term_count (rule_of_terms terms) =? 0); [discriminate|].
  destruct (forallb (fun term => is_not (term_oper term)) terms);
    [discriminate|].
  intros H. apply obind_done in H. destruct H as [r [Hr H]].
  apply obind_done in H. destruct H as [[[] st] [Hc H]].
  apply lift_done in Hc. inversion H; subst.
  exists r, st. repeat split; assumption.
Qed.

Lemma ecs_rule_init_scanned terms rule :
  qsort_keeps_elements ->
  ecs_rule_init world terms = Done rule -> scanned terms rule.
Proof.
  intros Hq H. apply ecs_rule_init_done in H.
  destruct H as [r [st [Hscan [Hc ->]]]].
  apply (scanned_scan_variables terms _ _ Hq (scanned_rule_of_terms terms))
    in Hscan.
  exact (keeps_compile_program world _ (emitter_invariant_scanned terms)
           (r, replicate 256 false) tt st Hscan Hc).
Qed.

(** X9.  In a rule that [ecs_rule_init] returns, the filter is the one
    that was given, the id of every variable is its position in the
    variable array, and every variable is of kind Table or Entity;
    this holds for any sort that returns elements of its input. *)
Theorem ecs_rule_init_variables (terms : list ecs_term_t)
    (rule : ecs_rule_t) :
  qsort_keeps_elements ->
  ecs_rule_init world terms = Done rule ->
  filter_terms rule = terms
  /\ forall i v, variables rule !! i = Some v ->
       var_id v = Z.of_nat i
       /\ (var_kind v = EcsRuleVarKindTable
           \/ var_kind v = EcsRuleVarKindEntity).
Proof.
  intros Hq H. destruct (ecs_rule_init_scanned _ _ Hq H) as [Ht Hw].
  split; [exact Ht|].
  intros i v Hv. destruct (Hw i v Hv) as [Hid Hk].
  split; [exact Hid|]. destruct (var_kind v); auto. congruence.
Qed.
End Compiled.

Section Program.
Context {api : flecs_api} (world : ecs_world_t).

(** [compile_program] starts with [insert_input] and ends with
    [insert_yield]; what lies between keeps what the emitter keeps. *)
Lemma compile_program_parts st0 st :
  compile_program world st0 = Done (tt, st) ->
  exists s1 s2,
    insert_input st0 = Done (tt, s1)
    /\ insert_yield s2 = Done (tt, st)
    /\ forall P, emitter_invariant P -> P (fst s1) -> P (fst s2).
Proof.
  unfold compile_program. intros H.
  apply emit_bind_done in H. destruct H as [[] [s1 [Hin H]]].
  exists s1.
  apply emit_bind_done in H. destruct H as [[] [a1 [H1 H]]].
  apply emit_bind_done in H. destruct H as [r1 [a2 [H2 H]]].
  apply emit_bind_done in H. destruct H as [[] [a3 [H3 H]]].
  apply emit_bind_done in H. destruct H as [[] [a4 [H4 H]]].
  apply emit_bind_done in H. destruct H as [[] [a5 [H5 H]]].
  apply emit_bind_done in H. destruct H as [[] [a6 [H6 H]]].
  apply emit_bind_done in H. destruct H as [r2 [a7 [H7 H]]].
  apply emit_bind_done in H. destruct H as [[] [a8 [H8 H]]].
  apply emit_bind_done in H. destruct H as [r3 [a9 [H9 H]]].
  apply emit_bind_done in H. destruct H as [[] [a10 [H10 H]]].
  exists a10. split; [exact Hin|]. split; [exact H|].
  intros P HP Hs1.
  apply (keeps_insert_terms_where world P HP _ _ _ _ Hs1) in H1.
  apply (keeps_get_rule P _ _ _ H1) in H2.
  assert (Hbody : forall v,
            keeps P
              (let* rule := get_rule in
               emit_assert (kind_eqb (kind_at rule v) EcsRuleVarKindTable) ;;;
               insert_terms_where world (fun rule term =>
                 negb (skip_term term) && negb (is_optional (term_oper term))
                 && ptr_eqb (term_subj rule term) (Some v)))).
  { intros v. apply keeps_bind; [apply keeps_get_rule|]. intros r.
    apply keeps_bind; [apply keeps_assert|]. intros _.
    apply (keeps_insert_terms_where world P HP). }
  apply (keeps_for_variables P _ _ Hbody _ _ _ _ _ H2) in H3.
  apply (keeps_insert_terms_where world P HP _ _ _ _ H3) in H4.
  apply (keeps_insert_terms_where world P HP _ _ _ _ H4) in H5.
  apply (keeps_insert_terms_where world P HP _ _ _ _ H5) in H6.
  apply (keeps_get_rule P _ _ _ H6) in H7.
  apply (keeps_for_variables P _ _ (keeps_check_subject_written P)
           _ _ _ _ _ H7) in H8.
  apply (keeps_get_rule P _ _ _ H8) in H9.
  apply (keeps_for_variables P _ _ (keeps_ensure_entity_each world P HP)
           _ _ _ _ _ H9) in H10.
  exact H10.
Qed.

Lemma alter_last {A} (f : A -> A) (l : list A) (x : A) :
  alter f (length l) (l ++ [x])%list = (l ++ [f x])%list.
Proof. induction l as [|y l IH]; simpl; [reflexivity | f_equal; exact IH]. Qed.

Lemma insert_input_length st s1 :
  insert_input st = Done (tt, s1) ->
  (1 <= length (operations (fst s1)))%nat.
Proof.
  destruct st as [[terms vars ops sc fc names subjects] w].
  unfold insert_input, emit_bind, create_operation, get_rule, modify_rule,
    emit_ret, update_op, push_frame. cbn.
  intros H. inversion H; subst. cbn.
  rewrite length_alter, length_app. simpl. lia.
Qed.

Lemma insert_yield_done st :
  let rule := fst st in
  insert_yield st
  = Done (tt,
      (set_operations
         (operations rule
          ++ [set_op_frame (frame_count rule)
                (set_r_in (yield_input rule)
                   (set_on_fail (Z.of_nat (length (operations rule)) - 1)
                      (set_has_in true
                         (set_op_kind EcsRuleYield op_zero))))])%list
         (set_frame_count (frame_count rule + 1) rule), snd st)).
Proof.
  destruct st as [[terms vars ops sc fc names subjects] w].
  unfold insert_yield, emit_bind, create_operation, get_rule, modify_rule,
    emit_ret, update_op, push_frame. cbn.
  unfold set_operations, set_frame_count, yield_input, find_variable,
    operation_count, id_at. cbn.
  rewrite !alter_last. unfold modify_rule. cbn. rewrite alter_last.
  rewrite length_app. cbn [length].
  replace (Z.of_nat (length ops + 1) - 2) with (Z.of_nat (length ops) - 1)
    by lia.
  destruct (find_variable_from vars 0 EcsRuleVarKindEntity ".");
    [reflexivity|].
  destruct (find_variable_from vars 0 EcsRuleVarKindTable ".");
    reflexivity.
Qed.
End Program.

(** The variables of [LocatedIn(., Y)]. *)
Lemma ecs_rule_init_variables_witness :
  let rule := Sample.compiled Sample.rule_located_any in
  ecs_rule_init (api := sample_api) Sample.world Sample.rule_located_any
  = Done rule
  /\ filter_terms rule = Sample.rule_located_any
  /\ forall i v, variables rule !! i = Some v -> var_id v = Z.of_nat i.
Proof.
  intros rule.
  assert (H : ecs_rule_init (api := sample_api) Sample.world
                Sample.rule_located_any = Done rule)
    by (vm_compute; reflexivity).
  split; [exact H|].
  destruct (ecs_rule_init_variables (api := sample_api) Sample.world
              Sample.rule_located_any rule sample_qsort_keeps_elements H)
    as [Hterms Hvars].
  split; [exact Hterms|].
  intros i v Hv. exact (proj1 (Hvars i v Hv)).
Defined.

Section CompiledProgram.
Context {api : flecs_api} (world : ecs_world_t).

Lemma yield_input_variables r r' :
  variables r = variables r' -> yield_input r = yield_input r'.
Proof.
  intros H. unfold yield_input, find_variable, id_at. rewrite H.
  reflexivity.
Qed.

Lemma ecs_rule_init_operations terms rule :
  ecs_rule_init world terms = Done rule ->
  (2 <= length (operations rule))%nat.
Proof.
  intros H. apply ecs_rule_init_done in H.
  destruct H as [r [st [_ [Hc ->]]]].
  apply compile_program_parts in Hc.
  destruct Hc as [s1 [s2 [Hin [Hy Hkeep]]]].
  apply insert_input_length in Hin.
  apply (Hkeep _ (emitter_invariant_operations 1)) in Hin.
  rewrite insert_yield_done in Hy. inversion Hy; subst st; clear Hy.
  cbn. rewrite length_app. cbn. lia.
Qed.

(** X10.  The program of a rule that [ecs_rule_init] returns has at
    least two operations and ends with Yield: the last operation is a
    Yield that fails back to the operation before it, sits in the last
    frame, and reads the entity register of [.] if the rule has one,
    else the table register of [.], else no register. *)
Theorem ecs_rule_init_program (terms : list ecs_term_t)
    (rule : ecs_rule_t) :
  ecs_rule_init world terms = Done rule ->
  exists ops yield,
    operations rule = (ops ++ [yield])%list
    /\ ops <> []
    /\ op_kind yield = EcsRuleYield
    /\ has_in yield = true
    /\ on_fail yield = operation_count rule - 2
    /\ op_frame yield = frame_count rule - 1
    /\ r_in yield = yield_input rule.
Proof.
  intros H. apply ecs_rule_init_done in H.
  destruct H as [r [st [_ [Hc ->]]]].
  apply compile_program_parts in Hc.
  destruct Hc as [s1 [s2 [Hin [Hy Hkeep]]]].
  apply insert_input_length in Hin.
  apply (Hkeep _ (emitter_invariant_operations 1)) in Hin.
  rewrite insert_yield_done in Hy. inversion Hy; subst st; clear Hy.
  cbn [fst]. destruct s2 as [r2 w2]. cbn [fst snd] in *.
  exists (operations r2),
    (set_op_frame (frame_count r2)
       (set_r_in (yield_input r2)
          (set_on_fail (Z.of_nat (length (operations r2)) - 1)
             (set_has_in true (set_op_kind EcsRuleYield op_zero))))).
  split; [reflexivity|].
  split; [destruct (operations r2); [simpl in Hin; lia|discriminate]|].
  split; [reflexivity|]. split; [reflexivity|].
  split.
  { unfold operation_count. cbn. rewrite length_app. cbn. lia. }
  split; [cbn; lia|].
  cbn. apply yield_input_variables. reflexivity.
Qed.

(** X11.  On a rule that [ecs_rule_init] returns, whenever
    [ecs_rule_find_var] finds a name, the id it returns is a valid
    variable id, [ecs_rule_var_name] gives the name back ("." for
    "This") and [ecs_rule_var_is_entity] is true for it. *)
Theorem ecs_rule_find_var_coherent (terms : list ecs_term_t)
    (rule : ecs_rule_t) (name : string) (id : Z) :
  qsort_keeps_elements ->
  ecs_rule_init world terms = Done rule ->
  ecs_rule_find_var rule name = id -> id <> -1 ->
  0 <= id < ecs_rule_var_count rule
  /\ ecs_rule_var_name rule id = Done (get_var_name name)
  /\ ecs_rule_var_is_entity rule id = Done true.
Proof.
  intros Hq Hinit Hfind Hid.
  destruct (ecs_rule_init_scanned world terms rule Hq Hinit) as [_ Hw].
  unfold ecs_rule_find_var in Hfind.
  destruct (find_variable rule EcsRuleVarKindEntity name) as [i|] eqn:Hf;
    [|congruence].
  unfold find_variable in Hf. apply find_variable_from_some in Hf.
  destruct Hf as [_ [v [Hv [Hm _]]]].
  rewrite Nat.sub_0_r in Hv. apply var_matches_iff in Hm.
  destruct Hm as [Hname Hkind].
  rewrite Hv in Hfind. destruct (Hw i v Hv) as [Hi _].
  subst id. rewrite Hi in *.
  destruct Hkind as [Hk|Hk]; [discriminate|].
  assert (Hz : zlookup (variables rule) (Z.of_nat i) = Some v).
  { rewrite zlookup_nat by lia. rewrite Nat2Z.id. exact Hv. }
  split.
  { unfold ecs_rule_var_count, variable_count.
    apply lookup_lt_Some in Hv. lia. }
  split; [unfold ecs_rule_var_name; rewrite Hz, Hname; reflexivity|].
  unfold ecs_rule_var_is_entity. rewrite Hz, Hk. reflexivity.
Qed.
End CompiledProgram.

(** The program of [LocatedIn(., Y)] ends with a Yield. *)
Lemma ecs_rule_init_program_witness :
  let rule := Sample.compiled Sample.rule_located_any in
  exists ops yield,
    operations rule = (ops ++ [yield])%list
    /\ op_kind yield = EcsRuleYield
    /\ r_in yield = 0.
Proof.
  intros rule.
  destruct (ecs_rule_init_program (api := sample_api) Sample.world
              Sample.rule_located_any rule)
    as [ops [yield [Hops [_ [Hk [_ [_ [_ Hin]]]]]]]].
  - vm_compute. reflexivity.
  - exists ops, yield. split; [exact Hops|]. split; [exact Hk|].
    rewrite Hin. reflexivity.
Defined.

(** [Y] in [LocatedIn(., Y)]. *)
Lemma ecs_rule_find_var_coherent_witness :
  let rule := Sample.compiled Sample.rule_located_any in
  ecs_rule_find_var rule "Y" = 1
  /\ ecs_rule_var_name rule 1 = Done "Y"
  /\ ecs_rule_var_is_entity rule 1 = Done true.
Proof.
  intros rule. split; [vm_compute; reflexivity|].
  apply (ecs_rule_find_var_coherent (api := sample_api) Sample.world
           Sample.rule_located_any rule "Y" 1
           sample_qsort_keeps_elements).
  - vm_compute. reflexivity.
  - vm_compute. reflexivity.
  - discriminate.
Defined.

(** ** The iterator of a compiled rule *)

Lemma set_columns_twice c c' it :
  set_columns c (set_columns c' it) = set_columns c it.
Proof. destruct it; reflexivity. Qed.

Lemma set_registers_twice r r' it :
  set_registers r (set_registers r' it) = set_registers r it.
Proof. destruct it; reflexivity. Qed.

Lemma columns_set_columns c it : columns (set_columns c it) = c.
Proof. destruct it; reflexivity. Qed.

Section FreshIterator.
Context {api : flecs_api} (world : ecs_world_t) (rule : ecs_rule_t).

Lemma table_reg_set_done frame r t it v reg :
  zlookup (variables rule) r = Some v ->
  var_kind v = EcsRuleVarKindTable ->
  zlookup (registers it) (reg_index rule frame r) = Some reg ->
  table_reg_set rule frame r t it
  = Done (tt, set_registers
                (<[Z.to_nat (reg_index rule frame r) := mk_reg t 0 0 0]>
                   (registers it)) it).
Proof.
  intros Hv Hk Hreg. unfold table_reg_set. unfold emit_bind at 1.
  rewrite (rule_var_kind_value _ _ _ _ Hv). cbn [obind]. rewrite Hk.
  change (kind_eqb EcsRuleVarKindTable EcsRuleVarKindTable) with true.
  unfold emit_assert, emit_bind, emit_ret. cbn [obind].
  apply (set_reg_done _ _ _ _ _ _ Hreg).
Qed.

(** The iterator that [ecs_rule_iter] returns differs from the freshly
    allocated one in its frame 0 only. *)
Lemma ecs_rule_iter_fresh (heap : malloc_t) :
  ecs_is_valid world EcsWildcard = true ->
  0 < operation_count rule ->
  (forall i v, variables rule !! i = Some v ->
               var_kind v <> EcsRuleVarKindUnknown) ->
  exists it,
    ecs_rule_iter world rule heap = Done it
    /\ it_op it = 0 /\ it_redo it = false /\ it_subjects it = None
    /\ op_ctx it = replicate (length (operations rule)) op_ctx_zero
    /\ Z.of_nat (length (registers it))
       = operation_count rule * variable_count rule
    /\ Z.of_nat (length (columns it))
       = operation_count rule * term_count rule
    /\ forall t, 0 <= t < term_count rule ->
         zlookup (columns it) (col_index rule 0 t) = Some (-1).
Proof.
  intros Hvalid Hops Hkinds.
  unfold ecs_rule_iter.
  destruct (operation_count rule =? 0) eqn:E;
    [apply Z.eqb_eq in E; lia|].
  set (nreg := Z.to_nat (operation_count rule * variable_count rule)).
  set (ncol := Z.to_nat (operation_count rule * term_count rule)).
  set (it0 := mk_iter _ _ _ _ _ _ _ _ _ _ _ _).
  assert (Hnreg : (length (variables rule) <= nreg)%nat).
  { unfold nreg, variable_count. nia. }
  assert (Hncol : (length (filter_terms rule) <= ncol)%nat).
  { unfold ncol, term_count. nia. }
  destruct (fold_steps_invariant
              (fun acc i => acc ;;; set_col rule 0 (Z.of_nat i) (-1))
              (fun i => set_col rule 0 (Z.of_nat i) (-1))
              (fun k it =>
                 exists cols, it = set_columns cols it0
                   /\ length cols = ncol
                   /\ forall j, (j < k)%nat -> cols !! j = Some (-1))
              (seq 0 (length (filter_terms rule)))
              (emit_ret tt) it0 it0)
    as [it1 [Hcols [cols [Hit1 [Hlen Hminus]]]]].
  { reflexivity. }
  { intros k i it Hk [cols [-> [Hl Hprev]]].
    apply lookup_seq in Hk. destruct Hk as [-> Hk]. simpl.
    assert (Hidx : col_index rule 0 (Z.of_nat k) = Z.of_nat k)
      by (unfold col_index; lia).
    rewrite set_col_done
      by (rewrite Hidx, columns_set_columns; lia).
    eexists. split; [reflexivity|].
    rewrite Hidx, Nat2Z.id, columns_set_columns, set_columns_twice.
    eexists. split; [reflexivity|].
    split; [rewrite length_insert; exact Hl|].
    intros j Hj. destruct (Nat.eq_dec j k) as [->|Hne].
    - apply list_lookup_insert_eq. lia.
    - rewrite list_lookup_insert_ne by congruence. apply Hprev. lia. }
  { reflexivity. }
  { exists (columns it0). split; [destruct it0; reflexivity|].
    split; [|intros j Hj; lia].
    unfold it0. simpl. rewrite length_map, length_seq. reflexivity. }
  rewrite length_seq in Hminus.
  destruct (fold_steps_invariant
              (fun acc '(i, var) =>
                 acc ;;;
                 if kind_eqb (var_kind var) EcsRuleVarKindEntity
                 then entity_reg_set world rule 0 (Z.of_nat i) EcsWildcard
                 else table_reg_set rule 0 (Z.of_nat i) None)
              (fun p : nat * ecs_rule_var_t =>
                 if kind_eqb (var_kind p.2) EcsRuleVarKindEntity
                 then entity_reg_set world rule 0 (Z.of_nat p.1) EcsWildcard
                 else table_reg_set rule 0 (Z.of_nat p.1) None)
              (fun _ it =>
                 exists regs, it = set_registers regs it1
                   /\ length regs = nreg)
              (imap (fun i var => (i, var)) (variables rule))
              (emit_ret tt) it1 it1) as [it2 [Hinit [regs [Hit2 Hregs]]]].
  { intros acc [i v]. reflexivity. }
  { intros k [i v] it Hk [regs [-> Hl]].
    rewrite list_lookup_imap in Hk.
    destruct (variables rule !! k) as [v'|] eqn:Hv; [|discriminate].
    simpl in Hk. inversion Hk; subst i v'; clear Hk. cbn [fst snd].
    assert (Hidx : reg_index rule 0 (Z.of_nat k) = Z.of_nat k)
      by (unfold reg_index; lia).
    assert (Hz : zlookup (variables rule) (Z.of_nat k) = Some v).
    { rewrite zlookup_nat by lia. rewrite Nat2Z.id. exact Hv. }
    pose proof (lookup_lt_Some _ _ _ Hv) as Hlt.
    destruct (regs !! k) as [reg|] eqn:Hreg;
      [|apply lookup_ge_None in Hreg; lia].
    assert (Hzr : zlookup (registers (set_registers regs it1))
                    (reg_index rule 0 (Z.of_nat k)) = Some reg).
    { rewrite registers_set_registers, Hidx, zlookup_nat by lia.
      rewrite Nat2Z.id. exact Hreg. }
    destruct (var_kind v) eqn:Ek.
    - change (kind_eqb EcsRuleVarKindTable EcsRuleVarKindEntity)
        with false. cbv iota.
      rewrite (table_reg_set_done _ _ _ _ _ _ Hz Ek Hzr).
      eexists. split; [reflexivity|].
      rewrite registers_set_registers, set_registers_twice.
      eexists. split; [reflexivity|]. rewrite length_insert. exact Hl.
    - change (kind_eqb EcsRuleVarKindEntity EcsRuleVarKindEntity)
        with true. cbv iota.
      rewrite (entity_reg_set_done _ _ _ _ _ _ _ _ Hz Ek Hvalid Hzr).
      eexists. split; [reflexivity|].
      rewrite registers_set_registers, set_registers_twice.
      eexists. split; [reflexivity|]. rewrite length_insert. exact Hl.
    - exfalso. exact (Hkinds k v Hv Ek). }
  { reflexivity. }
  { exists (registers it1). split; [destruct it1; reflexivity|].
    rewrite Hit1. unfold it0. simpl.
    rewrite length_map, length_seq. reflexivity. }
  exists it2. split.
  { unfold emit_bind at 1. rewrite Hcols. simpl. rewrite Hinit.
    reflexivity. }
  rewrite Hit2, Hit1. unfold it0. cbn.
  repeat split; try reflexivity.
  - rewrite Hregs. unfold nreg.
    unfold operation_count, variable_count. lia.
  - rewrite Hlen. unfold ncol. unfold operation_count, term_count. lia.
  - intros t Ht. unfold col_index. rewrite zlookup_nat by lia.
    apply Hminus. unfold term_count in Ht. lia.
Qed.
End FreshIterator.

(** X12.  On a rule that [ecs_rule_init] returns, [ecs_rule_iter]
    succeeds whatever the allocator left in the arrays.  The iterator
    starts at operation 0 without redo and without a subjects array, it
    has one context per operation and one frame of registers and of
    columns per operation, and every column of the first frame is -1. *)
Theorem ecs_rule_iter_compiled {api : flecs_api} (world : ecs_world_t)
    (terms : list ecs_term_t) (rule : ecs_rule_t) (heap : malloc_t) :
  qsort_keeps_elements ->
  ecs_is_valid world EcsWildcard = true ->
  ecs_rule_init world terms = Done rule ->
  exists it,
    ecs_rule_iter world rule heap = Done it
    /\ it_op it = 0 /\ it_redo it = false /\ it_subjects it = None
    /\ op_ctx it = replicate (length (operations rule)) op_ctx_zero
    /\ Z.of_nat (length (registers it))
       = operation_count rule * variable_count rule
    /\ Z.of_nat (length (columns it))
       = operation_count rule * term_count rule
    /\ forall t, 0 <= t < term_count rule ->
         zlookup (columns it) (col_index rule 0 t) = Some (-1).
Proof.
  intros Hq Hvalid Hinit.
  apply ecs_rule_iter_fresh; [exact Hvalid| |].
  - apply ecs_rule_init_operations in Hinit. unfold operation_count. lia.
  - destruct (ecs_rule_init_scanned world terms rule Hq Hinit) as [_ Hw].
    intros i v Hv. exact (proj2 (Hw i v Hv)).
Qed.

(** The iterator of [LocatedIn(., Y)] on memory that is not zeroed. *)
Lemma ecs_rule_iter_compiled_witness :
  let rule := Sample.compiled Sample.rule_located_any in
  exists it,
    ecs_rule_iter (api := sample_api) Sample.world rule Sample.heap_junk
    = Done it
    /\ it_op it = 0
    /\ zlookup (columns it) (col_index rule 0 0) = Some (-1).
Proof.
  intros rule.
  destruct (ecs_rule_iter_compiled (api := sample_api) Sample.world
              Sample.rule_located_any rule Sample.heap_junk
              sample_qsort_keeps_elements)
    as [it [Hit [Hop [_ [_ [_ [_ [_ Hcols]]]]]]]].
  - reflexivity.
  - vm_compute. reflexivity.
  - exists it. split; [exact Hit|]. split; [exact Hop|].
    apply Hcols. vm_compute. split; [discriminate | reflexivity].
Defined.

(** ** The end of an iteration *)

Section NextResult.
Context {api : flecs_api} (world : ecs_world_t) (rule : ecs_rule_t).

Lemma rule_step_yielded fuel redo last_frame it it' :
  rule_step world rule fuel redo last_frame it = Done (Yielded, it') ->
  it_redo it' = true.
Proof.
  unfold rule_step. intros H.
  apply emit_bind_done in H. destruct H as [it0 [s0 [_ H]]].
  apply emit_bind_done in H. destruct H as [op [s1 [_ H]]].
  apply emit_bind_done in H. destruct H as [[] [s2 [_ H]]].
  apply emit_bind_done in H. destruct H as [result [s3 [_ H]]].
  apply emit_bind_done in H. destruct H as [[] [s4 [_ H]]].
  destruct (op_kind op);
    try (apply emit_bind_done in H; destruct H as [[] [s5 [_ H]]];
         apply emit_bind_done in H; destruct H as [it5 [s6 [_ H]]];
         discriminate H).
  apply emit_bind_done in H. destruct H as [[] [s5 [_ H]]].
  apply emit_bind_done in H. destruct H as [[] [s6 [H6 H]]].
  inversion H; subst. inversion H6; subst. destruct s5; reflexivity.
Qed.

Lemma rule_loop_result fuel steps :
  forall redo last_frame it b it',
    rule_loop world rule fuel steps redo last_frame it = Done (b, it') ->
    if b then it_redo it' = true
    else it_op it' = -1 /\ registers it' = [] /\ columns it' = []
         /\ op_ctx it' = [] /\ it_variables it' = [].
Proof.
  induction steps as [|steps IH]; intros redo last_frame it b it' H;
    [discriminate|].
  cbn [rule_loop] in H.
  apply emit_bind_done in H. destruct H as [s [it1 [Hs H]]].
  destruct s as [|redo' last_frame'].
  - inversion H; subst. apply (rule_step_yielded _ _ _ _ _ Hs).
  - apply emit_bind_done in H. destruct H as [it2 [s2 [Hg H]]].
    inversion Hg; subst it2 s2; clear Hg.
    destruct (it_op it1 =? -1) eqn:E; cbn [negb] in H.
    + inversion H; subst. apply Z.eqb_eq in E.
      destruct it1; cbn in *. repeat split; try reflexivity. exact E.
    + apply (IH _ _ _ _ _ H).
Qed.

(** X13.  When [ecs_rule_next] returns true the iterator is marked for
    redo, so that the next call resumes after the yield.  When it
    returns false the iterator is depleted: its operation is -1, it was
    either depleted already and is left untouched or its arrays have
    just been freed, and every later call returns false again and
    changes nothing. *)
Theorem ecs_rule_next_result (fuel : nat) (it it' : ecs_iter_t)
    (b : bool) :
  ecs_rule_next world rule fuel it = Done (b, it') ->
  if b then it_op it <> -1 /\ it_redo it' = true
  else it_op it' = -1
       /\ (it' = it
           \/ (it_op it <> -1 /\ registers it' = [] /\ columns it' = []
               /\ op_ctx it' = [] /\ it_variables it' = []))
       /\ forall fuel', ecs_rule_next world rule fuel' it' = Done (false, it').
Proof.
  unfold ecs_rule_next. intros H.
  apply emit_bind_done in H. destruct H as [it0 [s0 [Hg H]]].
  inversion Hg; subst it0 s0; clear Hg.
  assert (Hdepleted : forall x, it_op x = -1 ->
            forall fuel', (let* it := get_it in
               if it_op it =? -1 then emit_ret false else
               modify_it (init_subjects rule) ;;;
               rule_loop world rule fuel' fuel' (it_redo it) (-1)) x
            = Done (false, x)).
  { intros x Hx fuel'. unfold emit_bind at 1, get_it. cbn [obind].
    rewrite Hx. reflexivity. }
  destruct (it_op it =? -1) eqn:E.
  - inversion H; subst. apply Z.eqb_eq in E.
    split; [exact E|]. split; [left; reflexivity|].
    apply Hdepleted. exact E.
  - apply Z.eqb_neq in E.
    apply emit_bind_done in H. destruct H as [[] [s1 [_ H]]].
    apply rule_loop_result in H. destruct b.
    + split; [exact E | exact H].
    + destruct H as [Hop Hfree]. split; [exact Hop|].
      split; [right; split; [exact E | exact Hfree]|].
      apply Hdepleted. exact Hop.
Qed.
End NextResult.

(** The first call of [ecs_rule_next] for [LocatedIn(., Y)]. *)
Lemma ecs_rule_next_result_witness :
  let rule := Sample.compiled Sample.rule_located_any in
  let it := Sample.iterator rule Sample.heap_zero in
  exists it',
    ecs_rule_next (api := sample_api) Sample.world rule 100 it
    = Done (true, it')
    /\ it_redo it' = true.
Proof.
  intros rule it.
  pose (it' := match ecs_rule_next (api := sample_api) Sample.world rule
                       100 it with
               | Done (_, it') => it'
               | _ => it
               end).
  assert (H : ecs_rule_next (api := sample_api) Sample.world rule 100 it
              = Done (true, it')) by (vm_compute; reflexivity).
  exists it'. split; [exact H|].
  exact (proj2 (ecs_rule_next_result (api := sample_api) Sample.world rule
                  100 it it' true H)).
Defined.

(** ** Setting a variable before iterating *)

Section SetVariable.
Context {api : flecs_api} (world : ecs_world_t) (rule : ecs_rule_t).

(** X14.  Whenever [ecs_rule_set_var] returns, either the iterator is
    as it was, or every check passed: the iterator is not being
    iterated, the value is a valid entity other than 0, the id is that
    of an Entity variable; then the one change is the entity of the
    register of that variable in the first frame, which reads back as
    the value. *)
Theorem ecs_rule_set_var_checked (is_valid : bool) (var_id value : Z)
    (it it' : ecs_iter_t) :
  ecs_rule_set_var world rule is_valid var_id value it = Done (tt, it') ->
  it' = it
  \/ (is_valid = false /\ value <> 0
      /\ ecs_is_valid world value = true
      /\ 0 <= var_id < ecs_rule_var_count rule
      /\ ecs_rule_var_is_entity rule var_id = Done true
      /\ entity_reg_get world rule 0 var_id it' = Done (value, it')
      /\ (forall i, i <> reg_index rule 0 var_id ->
            zlookup (registers it') i = zlookup (registers it) i)
      /\ (forall reg reg',
            zlookup (registers it) (reg_index rule 0 var_id) = Some reg ->
            zlookup (registers it') (reg_index rule 0 var_id) = Some reg' ->
            reg_table reg' = reg_table reg
            /\ reg_offset reg' = reg_offset reg
            /\ reg_count reg' = reg_count reg)
      /\ it' = set_registers (registers it') it).
Proof.
  unfold ecs_rule_set_var. intros H.
  destruct (var_id =? -1) eqn:E1; [inversion H; auto|].
  destruct (value =? 0) eqn:E2; [inversion H; auto|].
  destruct is_valid; [inversion H; auto|].
  destruct (var_id <? variable_count rule) eqn:E3; cbn [negb] in H;
    [|inversion H; auto].
  apply Z.eqb_neq in E2. apply Z.ltb_lt in E3.
  unfold entity_reg_set in H.
  apply emit_bind_done in H. destruct H as [k [s1 [Hk H]]].
  unfold rule_var_kind in Hk.
  apply emit_bind_done in Hk. destruct Hk as [v [s2 [Hv Hk]]].
  destruct (zlookup (variables rule) var_id) as [v'|] eqn:Hz;
    [|discriminate].
  inversion Hv; subst v' s2; clear Hv. inversion Hk; subst k s1; clear Hk.
  apply emit_bind_done in H. destruct H as [[] [s1 [Ha H]]].
  destruct (kind_eqb (var_kind v) EcsRuleVarKindEntity) eqn:Ek;
    [|discriminate].
  inversion Ha; subst s1; clear Ha.
  destruct (ecs_is_valid world value) eqn:Hvalid; [|inversion H; auto].
  apply emit_bind_done in H. destruct H as [reg [s1 [Hreg H]]].
  unfold get_reg in Hreg.
  apply emit_bind_done in Hreg. destruct Hreg as [it0 [s2 [Hg Hreg]]].
  inversion Hg; subst it0 s2; clear Hg.
  destruct (zlookup (registers it) (reg_index rule 0 var_id))
    as [reg0|] eqn:Hr; [|discriminate].
  inversion Hreg; subst reg0 s1; clear Hreg.
  rewrite (set_reg_done _ _ _ _ _ _ Hr) in H.
  inversion H; subst it'; clear H.
  right.
  pose proof (zlookup_nonneg _ _ _ Hz) as Hb.
  pose proof (zlookup_nonneg _ _ _ Hr) as Hrb.
  assert (Hnew : zlookup
            (registers
               (set_registers
                  (<[Z.to_nat (reg_index rule 0 var_id)
                     := mk_reg (reg_table reg) (reg_offset reg)
                               (reg_count reg) value]> (registers it)) it))
            (reg_index rule 0 var_id)
          = Some (mk_reg (reg_table reg) (reg_offset reg) (reg_count reg)
                         value)).
  { rewrite registers_set_registers.
    apply (zlookup_insert_eq _ _ _ _ Hr). }
  split; [reflexivity|]. split; [exact E2|]. split; [reflexivity|].
  split; [exact Hb|].
  split; [unfold ecs_rule_var_is_entity; rewrite Hz, Ek; reflexivity|].
  split.
  { rewrite (entity_reg_get_value world rule _ _ _ _ Hnew);
      [reflexivity | exact E2 | first [exact Hvalid | reflexivity]]. }
  rewrite registers_set_registers.
  split.
  { intros i Hi. apply zlookup_insert_ne; [lia | congruence]. }
  split.
  { intros r1 r2 H1 H2. rewrite registers_set_registers in Hnew.
    rewrite Hnew in H2. inversion H1; inversion H2; subst.
    repeat split; reflexivity. }
  destruct it; reflexivity.
Qed.
End SetVariable.

(** [Y] of [LocatedIn(., Y)] is set to [b] before iterating. *)
Lemma ecs_rule_set_var_checked_witness :
  let rule := Sample.compiled Sample.rule_located_any in
  let it := Sample.iterator rule Sample.heap_zero in
  exists it',
    ecs_rule_set_var Sample.world rule false 1
      Sample.b it = Done (tt, it')
    /\ entity_reg_get (api := sample_api) Sample.world rule 0 1 it'
       = Done (Sample.b, it').
Proof.
  intros rule it.
  pose (it' := match ecs_rule_set_var Sample.world
                       rule false 1 Sample.b it with
               | Done (_, it') => it'
               | _ => it
               end).
  assert (H : ecs_rule_set_var Sample.world rule false
                1 Sample.b it = Done (tt, it')) by (vm_compute; reflexivity).
  exists it'. split; [exact H|].
  destruct (ecs_rule_set_var_checked (api := sample_api) Sample.world rule
              false 1 Sample.b it it' H)
    as [Hsame|[_ [_ [_ [_ [_ [Hget _]]]]]]].
  - vm_compute in Hsame. discriminate Hsame.
  - exact Hget.
Defined.

(** ** What a yield exposes *)

Lemma preserves_reads {S A} (P : S -> Prop) (m : stm S A) :
  reads_only m -> preserves P m.
Proof. intros Hm s a s' HP H. apply Hm in H. subst. exact HP. Qed.

Lemma preserves_bind {S A B} (P : S -> Prop) (m : stm S A)
    (k : A -> stm S B) :
  preserves P m -> (forall a, preserves P (k a)) ->
  preserves P (emit_bind m k).
Proof.
  intros Hm Hk s b s' HP H.
  apply emit_bind_done in H. destruct H as [a [s1 [H1 H2]]].
  exact (Hk a _ _ _ (Hm _ _ _ HP H1) H2).
Qed.

Lemma preserves_if {S A} (P : S -> Prop) (b : bool) (m1 m2 : stm S A) :
  preserves P m1 -> preserves P m2 -> preserves P (if b then m1 else m2).
Proof. destruct b; auto. Qed.

Lemma preserves_modify (P : ecs_iter_t -> Prop) f :
  (forall s, P s -> P (f s)) -> preserves P (modify_it f).
Proof. intros Hf s a s' HP H. inversion H; subst. apply Hf, HP. Qed.

Lemma preserves_fold {S A} (P : S -> Prop) (f : A -> stm S unit)
    (g : stm S unit -> A -> stm S unit) (l : list A) (m : stm S unit) :
  (forall acc a, g acc a = emit_bind acc (fun _ => f a)) ->
  (forall a, preserves P (f a)) -> preserves P m ->
  preserves P (fold_left g l m).
Proof.
  intros Hg Hf. revert m.
  induction l as [|a l IH]; intros m Hm; simpl; [exact Hm|].
  apply IH. rewrite Hg. apply preserves_bind; [exact Hm|].
  intros _. apply Hf.
Qed.

(** A loop that returned went through every step. *)
Lemma fold_steps_done {S A} (g : stm S unit -> A -> stm S unit)
    (f : A -> stm S unit) (I : nat -> S -> Prop) (l : list A)
    (m : stm S unit) (s0 s' : S) :
  (forall acc a, g acc a = emit_bind acc (fun _ => f a)) ->
  (forall k a s s1, l !! k = Some a -> I k s -> f a s = Done (tt, s1) ->
                    I (Datatypes.S k) s1) ->
  (forall s1, m s0 = Done (tt, s1) -> I 0%nat s1) ->
  fold_left g l m s0 = Done (tt, s') -> I (length l) s'.
Proof.
  intros Hg. revert s'.
  induction l as [|a l IH] using rev_ind; intros s' Hf Hm H.
  - apply Hm. exact H.
  - rewrite fold_left_app in H. simpl in H. rewrite Hg in H.
    apply emit_bind_done in H. destruct H as [[] [s1 [H1 H2]]].
    rewrite length_app. simpl. rewrite Nat.add_1_r.
    apply (Hf (length l) a s1 s').
    + rewrite lookup_app_r by lia. rewrite Nat.sub_diag. reflexivity.
    + apply IH; [|exact Hm|exact H1].
      intros k x s s2 Hk. apply Hf.
      rewrite lookup_app_l; [exact Hk|].
      apply lookup_lt_Some in Hk. exact Hk.
    + exact H2.
Qed.

Lemma zinsert_inv {A} (i : Z) (a : A) (l l' : list A) :
  zinsert i a l = Some l' ->
  0 <= i < Z.of_nat (length l) /\ l' = <[Z.to_nat i := a]> l.
Proof.
  unfold zinsert. destruct (0 <=? i) eqn:E1; [|discriminate].
  destruct (i <? Z.of_nat (length l)) eqn:E2; [|discriminate].
  cbn. intros H. inversion H. apply Z.leb_le in E1. apply Z.ltb_lt in E2.
  split; [lia | reflexivity].
Qed.

Section Yield.
Context {api : flecs_api} (world : ecs_world_t) (rule : ecs_rule_t).

Lemma get_reg_inv frame r it reg it' :
  get_reg rule frame r it = Done (reg, it') ->
  it' = it /\ zlookup (registers it) (reg_index rule frame r) = Some reg.
Proof.
  unfold get_reg. intros H.
  apply emit_bind_done in H. destruct H as [it0 [s [Hg H]]].
  inversion Hg; subst it0 s; clear Hg.
  destruct (zlookup (registers it) (reg_index rule frame r));
    [|discriminate].
  inversion H; subst. split; reflexivity.
Qed.

Lemma preserves_set_subject it0 t v :
  preserves (yield_keeps it0) (set_subject t v).
Proof.
  unfold set_subject.
  apply preserves_bind; [apply preserves_reads, reads_only_get_it|].
  intros it. apply preserves_bind; [apply preserves_reads, reads_only_deref|].
  intros s. apply preserves_bind; [apply preserves_reads, reads_only_deref|].
  intros s'. apply preserves_modify. intros x H. exact H.
Qed.

Lemma preserves_set_col (P : ecs_iter_t -> Prop) frame t v :
  (forall c s, P s -> P (set_columns c s)) ->
  preserves P (set_col rule frame t v).
Proof.
  intros HP. unfold set_col.
  apply preserves_bind; [apply preserves_reads, reads_only_get_it|].
  intros it. apply preserves_bind; [apply preserves_reads, reads_only_deref|].
  intros c. apply preserves_modify. intros s. apply HP.
Qed.

Lemma preserves_populate_subjects it0 frame :
  preserves (yield_keeps it0) (populate_subjects rule frame).
Proof.
  unfold populate_subjects.
  apply (preserves_fold _
    (fun p : nat * Z =>
       if negb (p.2 =? -1) then
         let* var := deref (zlookup (variables rule) p.2) in
         if kind_eqb (var_kind var) EcsRuleVarKindEntity then
           let* reg := get_reg rule frame (var_id var) in
           set_subject (Z.of_nat p.1) (reg_entity reg)
         else emit_ret tt
       else emit_ret tt)).
  - intros acc [i v]. reflexivity.
  - intros [i v]. cbn [fst snd]. apply preserves_if.
    + apply preserves_bind; [apply preserves_reads, reads_only_deref|].
      intros var. apply preserves_if.
      * apply preserves_bind;
          [apply preserves_reads, reads_only_get_reg|].
        intros reg. apply preserves_set_subject.
      * apply preserves_reads, reads_only_ret.
    + apply preserves_reads, reads_only_ret.
  - apply preserves_reads, reads_only_ret.
Qed.

Lemma preserves_populate_columns (P : ecs_iter_t -> Prop) frame :
  (forall c s, P s -> P (set_columns c s)) ->
  preserves P (populate_columns rule frame).
Proof.
  intros HP. unfold populate_columns.
  apply (preserves_fold _
    (fun p : nat * ecs_term_t =>
       let* it := get_it in
       let* subjects := deref (it_subjects it) in
       let* subj := deref (subjects !! p.1) in
       let* c0 := get_col rule frame (Z.of_nat p.1) in
       let c := c0 + 1 in
       set_col rule frame (Z.of_nat p.1) c ;;;
       if subj =? 0 then
         if negb (tid_entity (term_subj_id p.2) =? EcsThis)
         then set_col rule frame (Z.of_nat p.1) 0
         else emit_ret tt
       else if negb (c =? 0) then set_col rule frame (Z.of_nat p.1) (-1)
       else emit_ret tt)).
  - intros acc [i t]. reflexivity.
  - intros [i t]. cbn [fst snd].
    apply preserves_bind; [apply preserves_reads, reads_only_get_it|].
    intros it. apply preserves_bind; [apply preserves_reads, reads_only_deref|].
    intros subjects.
    apply preserves_bind; [apply preserves_reads, reads_only_deref|].
    intros subj. apply preserves_bind.
    { apply preserves_reads. unfold get_col. repeat reads_step. }
    intros c0. cbv zeta.
    apply preserves_bind; [apply preserves_set_col, HP|].
    intros _. repeat apply preserves_if;
      first [apply preserves_set_col, HP
            | apply preserves_reads, reads_only_ret].
  - apply preserves_reads, reads_only_ret.
Qed.

Lemma populate_variables_exposed frame it it' :
  populate_variables rule frame it = Done (tt, it') ->
  registers it' = registers it /\ op_ctx it' = op_ctx it
  /\ it_op it' = it_op it /\ it_redo it' = it_redo it
  /\ it_ids it' = it_ids it
  /\ length (it_variables it') = length (it_variables it)
  /\ forall i v, variables rule !! i = Some v ->
       exists x, it_variables it' !! i = Some x
                 /\ exposed rule frame it i v x.
Proof.
  intros H. unfold populate_variables in H.
  pose (I := fun (k : nat) (s : ecs_iter_t) =>
    registers s = registers it /\ op_ctx s = op_ctx it
    /\ it_op s = it_op it /\ it_redo s = it_redo it
    /\ it_ids s = it_ids it
    /\ length (it_variables s) = length (it_variables it)
    /\ forall i v, (i < k)%nat -> variables rule !! i = Some v ->
         exists x, it_variables s !! i = Some x
                   /\ exposed rule frame it i v x).
  assert (HI : I (length (imap (fun i var => (i, var)) (variables rule)))
                 it').
  { refine (fold_steps_done _
      (fun p : nat * ecs_rule_var_t =>
         let* v :=
           if kind_eqb (var_kind p.2) EcsRuleVarKindEntity then
             let* reg := get_reg rule frame (Z.of_nat p.1) in
             emit_ret (reg_entity reg)
           else emit_ret 0 in
         let* it := get_it in
         let* vars := deref (zinsert (Z.of_nat p.1) v (it_variables it)) in
         modify_it (set_it_variables vars))
      I _ _ it it' _ _ _ H).
    - intros acc [i v]. reflexivity.
    - intros k [i v] s s1 Hk HIk Hstep.
      rewrite list_lookup_imap in Hk.
      destruct (variables rule !! k) as [v'|] eqn:Hv; [|discriminate].
      simpl in Hk. inversion Hk; subst i v'; clear Hk. cbn [fst snd] in Hstep.
      destruct HIk as [Hr [Hc [Ho [Hd [Hi [Hl Hprev]]]]]].
      apply emit_bind_done in Hstep. destruct Hstep as [x [s2 [Hx Hstep]]].
      assert (Hx' : s2 = s /\ exposed rule frame it k v x).
      { unfold exposed.
        destruct (kind_eqb (var_kind v) EcsRuleVarKindEntity).
        - apply emit_bind_done in Hx. destruct Hx as [reg [s3 [Hg Hx]]].
          apply get_reg_inv in Hg. destruct Hg as [-> Hg].
          inversion Hx; subst. split; [reflexivity|].
          exists reg. rewrite <- Hr. split; [exact Hg | reflexivity].
        - inversion Hx; subst. split; reflexivity. }
      destruct Hx' as [-> Hexp].
      apply emit_bind_done in Hstep. destruct Hstep as [s3 [s4 [Hg Hstep]]].
      inversion Hg; subst s3 s4; clear Hg.
      apply emit_bind_done in Hstep.
      destruct Hstep as [vars [s4 [Hins Hstep]]].
      destruct (zinsert (Z.of_nat k) x (it_variables s)) as [vars'|] eqn:Hz;
        [|discriminate].
      inversion Hins; subst vars' s4; clear Hins.
      apply zinsert_inv in Hz. destruct Hz as [Hb ->].
      inversion Hstep; subst s1; clear Hstep.
      rewrite Nat2Z.id.
      destruct s as [r0 c0 oc0 v0 o0 rd0 id0 sj0 ic0 tb0 of0 ct0].
      cbn [registers op_ctx it_op it_redo it_ids it_variables
           set_it_variables] in *.
      split; [exact Hr|]. split; [exact Hc|]. split; [exact Ho|].
      split; [exact Hd|]. split; [exact Hi|]. split.
      + simpl. rewrite length_insert. exact Hl.
      + simpl. intros i w Hlt Hw. destruct (Nat.eq_dec i k) as [->|Hne].
        * exists x. split; [apply list_lookup_insert_eq; lia|].
          rewrite Hv in Hw. inversion Hw; subst. exact Hexp.
        * rewrite list_lookup_insert_ne by congruence.
          apply Hprev; [lia | exact Hw].
    - intros s1 Hs1. inversion Hs1; subst.
      unfold I. repeat split; try reflexivity. intros i v Hlt. lia. }
  destruct HI as [Hr [Hc [Ho [Hd [Hi [Hl Hall]]]]]].
  repeat split; try assumption.
  intros i v Hv. apply Hall; [|exact Hv].
  rewrite length_imap. apply lookup_lt_Some in Hv. exact Hv.
Qed.

(** X15.  When [populate_iterator] returns, [it->variables] holds for
    every Entity variable the entity of its register in the frame of
    the yield, and 0 for every Table variable; the iterator points to
    the columns of that frame; the registers, the operation contexts,
    the position in the program and the ids are as they were.  For a
    yield in the last frame, [ecs_rule_get_var] then returns for a
    Table variable 0, and for an Entity variable the value in
    [it->variables], except that it gives the wildcard for 0 and 0 for
    an entity that is not valid. *)
Theorem populate_iterator_variables (op : ecs_rule_op_t)
    (it it' : ecs_iter_t) :
  populate_iterator world rule op it = Done (tt, it') ->
  registers it' = registers it /\ op_ctx it' = op_ctx it
  /\ it_op it' = it_op it /\ it_redo it' = it_redo it
  /\ it_ids it' = it_ids it
  /\ it_columns it' = op_frame op
  /\ length (it_variables it') = length (it_variables it)
  /\ (forall i v, variables rule !! i = Some v ->
        exists x, it_variables it' !! i = Some x
                  /\ exposed rule (op_frame op) it i v x)
  /\ (op_frame op = frame_count rule - 1 ->
      forall i v x, variables rule !! i = Some v ->
        it_variables it' !! i = Some x ->
        ecs_rule_get_var world rule (Z.of_nat i) it'
        = Done (if kind_eqb (var_kind v) EcsRuleVarKindEntity
                then if x =? 0 then EcsWildcard
                     else if ecs_is_valid world x then x else 0
                else 0, it')).
Proof.
  unfold populate_iterator. intros H.
  apply emit_bind_done in H. destruct H as [data [s0 [Hdata H]]].
  assert (Hs0 : s0 = it).
  { revert Hdata. apply reads_only_if; [|apply reads_only_ret].
    apply reads_only_bind; [apply reads_only_rule_var_kind|]. intros k.
    apply reads_only_bind; [apply reads_only_get_reg|]. intros reg.
    repeat reads_step. }
  subst s0. clear Hdata. destruct data as [[table offset] count].
  apply emit_bind_done in H. destruct H as [[] [s1 [Hvars H]]].
  apply populate_variables_exposed in Hvars.
  destruct Hvars as [Hr [Hc [Ho [Hd [Hi [Hl Hall]]]]]].
  apply emit_bind_done in H. destruct H as [[] [s2 [Hsubj H]]].
  apply emit_bind_done in H. destruct H as [[] [s3 [Hcols H]]].
  inversion Hcols; subst s3; clear Hcols.
  apply emit_bind_done in H. destruct H as [[] [s4 [Hpc H]]].
  unfold flecs_iter_populate_data in H.
  assert (Hit' : registers it' = registers s4
                 /\ it_variables it' = it_variables s4
                 /\ op_ctx it' = op_ctx s4 /\ it_op it' = it_op s4
                 /\ it_redo it' = it_redo s4 /\ it_ids it' = it_ids s4
                 /\ it_columns it' = it_columns s4).
  { inversion H; subst it'. destruct s4. repeat split; reflexivity. }
  clear H. destruct Hit' as [E1 [E2 [E3 [E4 [E5 [E6 E7]]]]]].
  assert (K2 : yield_keeps s1 s2).
  { apply (preserves_populate_subjects s1 _ _ _ _
             ltac:(repeat split; reflexivity) Hsubj). }
  assert (K4 : yield_keeps s1 s4 /\ it_columns s4 = op_frame op).
  { refine (preserves_populate_columns
              (fun s => yield_keeps s1 s /\ it_columns s = op_frame op)
              _ _ _ _ _ _ Hpc).
    - intros c s [K E]. destruct s; split; [exact K | exact E].
    - destruct s2; split; [exact K2 | reflexivity]. }
  destruct K4 as [[K1 [K3 [K5 [K6 [K7 K8]]]]] Kc].
  rewrite E1, E2, E3, E4, E5, E6, E7, K1, K3, K5, K6, K7, K8, Kc.
  split; [exact Hr|]. split; [exact Hc|]. split; [exact Ho|].
  split; [exact Hd|]. split; [exact Hi|]. split; [reflexivity|].
  split; [exact Hl|]. split; [exact Hall|].
  intros Hframe i v x Hv Hx.
  destruct (Hall i v Hv) as [x' [Hx' Hexp]].
  rewrite Hx in Hx'. inversion Hx'; subst x'; clear Hx'.
  assert (Hz : zlookup (variables rule) (Z.of_nat i) = Some v).
  { rewrite zlookup_nat by lia. rewrite Nat2Z.id. exact Hv. }
  unfold ecs_rule_get_var. unfold emit_bind at 1.
  rewrite (rule_var_kind_value rule _ _ _ Hz). cbn [obind].
  unfold exposed in Hexp.
  destruct (kind_eqb (var_kind v) EcsRuleVarKindEntity); [|reflexivity].
  destruct Hexp as [reg [Hreg ->]].
  unfold entity_reg_get. unfold emit_bind at 1.
  rewrite (get_reg_value rule _ _ _ reg)
    by (rewrite <- Hframe, E1, K1, Hr; exact Hreg).
  cbn [obind].
  destruct (reg_entity reg =? 0); [reflexivity|].
  destruct (ecs_is_valid world (reg_entity reg)); reflexivity.
Qed.
End Yield.

(** The first yield of [LocatedIn(., Y)]: [a] is located in [b]. *)
Lemma populate_iterator_variables_witness :
  let rule := Sample.compiled Sample.rule_located_any in
  let it := Sample.dispatched rule 4 in
  let op := Sample.operation rule 6 in
  exists it',
    populate_iterator (api := sample_api) Sample.world rule op it
    = Done (tt, it')
    /\ registers it' = registers it
    /\ it_columns it' = 3
    /\ it_variables it' !! 1%nat = Some Sample.b
    /\ ecs_rule_get_var (api := sample_api) Sample.world rule 1 it'
       = Done (Sample.b, it').
Proof.
  intros rule it op.
  pose (it' := match populate_iterator (api := sample_api) Sample.world
                       rule op it with
               | Done (_, it') => it'
               | _ => it
               end).
  assert (H : populate_iterator (api := sample_api) Sample.world rule op it
              = Done (tt, it')) by (vm_compute; reflexivity).
  assert (Hx : it_variables it' !! 1%nat = Some Sample.b)
    by (vm_compute; reflexivity).
  exists it'. split; [exact H|].
  destruct (populate_iterator_variables (api := sample_api) Sample.world
              rule op it it' H)
    as [Hregs [_ [_ [_ [_ [Hcols [_ [_ Hget]]]]]]]].
  split; [exact Hregs|]. split; [exact Hcols|]. split; [exact Hx|].
  apply (Hget eq_refl 1%nat (mk_var EcsRuleVarKindEntity "Y" 1 0 0 true)
           Sample.b); [vm_compute; reflexivity | exact Hx].
Defined.

(** ** The footprint of an operation *)

Lemma same_except_refl {A} (l : list A) i : same_except l l i.
Proof. split; reflexivity. Qed.

Lemma same_except_trans {A} (l1 l2 l3 : list A) i :
  same_except l1 l2 i -> same_except l2 l3 i -> same_except l1 l3 i.
Proof.
  intros [L1 H1] [L2 H2]. split; [congruence|].
  intros j Hj. rewrite H2, H1 by exact Hj. reflexivity.
Qed.

Lemma same_except_zinsert {A} (l l' : list A) i a :
  zinsert i a l = Some l' -> same_except l l' i.
Proof.
  intros H. apply zinsert_inv in H. destruct H as [Hb ->].
  split; [apply length_insert|].
  intros j Hj. apply zlookup_insert_ne; [lia | congruence].
Qed.

Section Footprint.
Context {api : flecs_api} (world : ecs_world_t) (rule : ecs_rule_t).
Variable op : ecs_rule_op_t.
Variable op_index : Z.

Abbreviation fp := (footprint rule op op_index).
Abbreviation within := (within_footprint rule op op_index).

Lemma footprint_refl it : fp it it.
Proof.
  split; try apply same_except_refl.
  - split; reflexivity.
  - destruct (it_subjects it); [apply same_except_refl | exact I].
  - repeat split; reflexivity.
Qed.

Lemma footprint_trans it1 it2 it3 : fp it1 it2 -> fp it2 it3 -> fp it1 it3.
Proof.
  intros [[L1 R1] C1 O1 I1 S1 E1] [[L2 R2] C2 O2 I2 S2 E2].
  split.
  - split; [congruence|]. intros i Hi. rewrite R2, R1 by exact Hi.
    reflexivity.
  - exact (same_except_trans _ _ _ _ C1 C2).
  - exact (same_except_trans _ _ _ _ O1 O2).
  - exact (same_except_trans _ _ _ _ I1 I2).
  - destruct (it_subjects it1), (it_subjects it2), (it_subjects it3);
      try contradiction; try exact I.
    exact (same_except_trans _ _ _ _ S1 S2).
  - destruct E1 as [? [? [? [? [? [? ?]]]]]].
    destruct E2 as [? [? [? [? [? [? ?]]]]]].
    repeat split; congruence.
Qed.

Lemma within_reads {A} (m : vm A) : reads_only m -> within m.
Proof. intros Hm s a s' H. apply Hm in H. subst. apply footprint_refl. Qed.

Lemma within_bind {A B} (m : vm A) (k : A -> vm B) :
  within m -> (forall a, within (k a)) -> within (emit_bind m k).
Proof.
  intros Hm Hk s b s' H.
  apply emit_bind_done in H. destruct H as [a [s1 [H1 H2]]].
  exact (footprint_trans _ _ _ (Hm _ _ _ H1) (Hk a _ _ _ H2)).
Qed.

Lemma within_if {A} (b : bool) (m1 m2 : vm A) :
  within m1 -> within m2 -> within (if b then m1 else m2).
Proof. destruct b; auto. Qed.

Lemma within_stuck {A} :
  within (fun _ : ecs_iter_t => @Stuck Empty_set (A * ecs_iter_t)).
Proof. intros s a s' H. discriminate. Qed.

(** *** The writes *)

Lemma within_set_ctx c : within (set_ctx op_index c).
Proof.
  intros s a s' H. unfold set_ctx in H.
  apply emit_bind_done in H. destruct H as [it [s1 [Hg H]]].
  inversion Hg; subst it s1; clear Hg.
  apply emit_bind_done in H. destruct H as [ctxs [s1 [Hz H]]].
  destruct (zinsert op_index c (op_ctx s)) as [l|] eqn:E; [|discriminate].
  inversion Hz; subst l s1; clear Hz. inversion H; subst; clear H.
  apply same_except_zinsert in E.
  pose proof (footprint_refl s) as [R C O I0 S E0].
  destruct s; split; assumption.
Qed.

Lemma within_set_col v :
  within (set_col rule (op_frame op) (op_term op) v).
Proof.
  intros s a s' H. unfold set_col in H.
  apply emit_bind_done in H. destruct H as [it [s1 [Hg H]]].
  inversion Hg; subst it s1; clear Hg.
  apply emit_bind_done in H. destruct H as [cols [s1 [Hz H]]].
  destruct (zinsert (col_index rule (op_frame op) (op_term op)) v
              (columns s)) as [l|] eqn:E; [|discriminate].
  inversion Hz; subst l s1; clear Hz. inversion H; subst; clear H.
  apply same_except_zinsert in E.
  pose proof (footprint_refl s) as [R C O I0 S E0].
  destruct s; split; assumption.
Qed.

Lemma within_set_id v : within (set_id (op_term op) v).
Proof.
  intros s a s' H. unfold set_id in H.
  apply emit_bind_done in H. destruct H as [it [s1 [Hg H]]].
  inversion Hg; subst it s1; clear Hg.
  apply emit_bind_done in H. destruct H as [ids [s1 [Hz H]]].
  destruct (zinsert (op_term op) v (it_ids s)) as [l|] eqn:E;
    [|discriminate].
  inversion Hz; subst l s1; clear Hz. inversion H; subst; clear H.
  apply same_except_zinsert in E.
  pose proof (footprint_refl s) as [R C O I0 S E0].
  destruct s; split; assumption.
Qed.

Lemma within_set_subject v : within (set_subject (op_term op) v).
Proof.
  intros s a s' H. unfold set_subject in H.
  apply emit_bind_done in H. destruct H as [it [s1 [Hg H]]].
  inversion Hg; subst it s1; clear Hg.
  apply emit_bind_done in H. destruct H as [subjects [s1 [Hs H]]].
  destruct (it_subjects s) as [subj|] eqn:Es; [|discriminate].
  inversion Hs; subst subjects s1; clear Hs.
  apply emit_bind_done in H. destruct H as [subjects [s1 [Hz H]]].
  destruct (zinsert (op_term op) v subj) as [l|] eqn:E; [|discriminate].
  inversion Hz; subst l s1; clear Hz. inversion H; subst; clear H.
  apply same_except_zinsert in E.
  pose proof (footprint_refl s) as [R C O I0 S E0].
  destruct s; split; try assumption.
  simpl in Es |- *. rewrite Es. exact E.
Qed.

Lemma within_set_reg r v :
  0 <= r < variable_count rule ->
  within (set_reg rule (op_frame op) r v).
Proof.
  intros Hr s a s' H. unfold set_reg in H.
  apply emit_bind_done in H. destruct H as [it [s1 [Hg H]]].
  inversion Hg; subst it s1; clear Hg.
  apply emit_bind_done in H. destruct H as [regs [s1 [Hz H]]].
  destruct (zinsert (reg_index rule (op_frame op) r) v (registers s))
    as [l|] eqn:E; [|discriminate].
  inversion Hz; subst l s1; clear Hz. inversion H; subst; clear H.
  apply same_except_zinsert in E. destruct E as [L E].
  pose proof (footprint_refl s) as [R C O I0 S E0].
  destruct s; split; try assumption.
  split; [exact L|]. intros i Hi. apply E.
  intros ->. apply Hi. unfold in_frame, reg_index. lia.
Qed.

Lemma within_checked_reg {A} (r : Z) (k : ecs_rule_var_kind_t -> vm A) :
  (0 <= r < variable_count rule -> forall kind, within (k kind)) ->
  within (emit_bind (rule_var_kind rule r) k).
Proof.
  intros Hk s a s' H.
  apply emit_bind_done in H. destruct H as [kind [s1 [H1 H2]]].
  unfold rule_var_kind in H1.
  apply emit_bind_done in H1. destruct H1 as [v [s2 [Hv H1]]].
  destruct (zlookup (variables rule) r) as [v'|] eqn:Hz; [|discriminate].
  inversion Hv; subst v' s2; clear Hv. inversion H1; subst; clear H1.
  apply zlookup_nonneg in Hz.
  exact (Hk Hz _ _ _ _ H2).
Qed.

Lemma within_entity_reg_set r e :
  within (entity_reg_set world rule (op_frame op) r e).
Proof.
  unfold entity_reg_set. apply within_checked_reg. intros Hr kind.
  apply within_bind; [apply within_reads, reads_only_assert|]. intros _.
  apply within_if; [|apply within_reads, reads_only_ret].
  apply within_bind; [apply within_reads, reads_only_get_reg|]. intros reg.
  apply within_set_reg. exact Hr.
Qed.

Lemma within_table_reg_set r t :
  within (table_reg_set rule (op_frame op) r t).
Proof.
  unfold table_reg_set. apply within_checked_reg. intros Hr kind.
  apply within_bind; [apply within_reads, reads_only_assert|]. intros _.
  apply within_set_reg. exact Hr.
Qed.

Lemma within_reg_set_entity r e :
  within (reg_set_entity world rule (op_frame op) r e).
Proof.
  unfold reg_set_entity. apply within_checked_reg. intros Hr kind.
  apply within_if; [|apply within_entity_reg_set].
  apply within_if; [|apply within_reads, reads_only_ret].
  destruct (ecs_eis_get world e) as [[[t|] row]|];
    apply within_set_reg; exact Hr.
Qed.

(** *** The reads *)

Lemma reads_only_get_ctx i : reads_only (get_ctx i).
Proof. unfold get_ctx. repeat reads_step. Qed.

Lemma reads_only_get_col frame t : reads_only (get_col rule frame t).
Proof. unfold get_col. repeat reads_step. Qed.

Lemma reads_only_rule_get_column type column :
  reads_only (S := ecs_iter_t) (rule_get_column type column).
Proof. unfold rule_get_column. repeat reads_step. Qed.

Lemma reads_only_find_next_same_var {S} type column pattern :
  reads_only (S := S) (find_next_same_var type column pattern).
Proof. unfold find_next_same_var. repeat reads_step. Qed.

Lemma reads_only_find_next_column {S} table column filter :
  reads_only (S := S) (find_next_column world table column filter).
Proof.
  unfold find_next_column. cbv zeta.
  apply reads_only_bind; [apply reads_only_deref|]. intros t.
  apply reads_only_bind.
  { repeat reads_step. }
  intros [c|]; [|apply reads_only_ret].
  apply reads_only_if;
    [apply reads_only_find_next_same_var | apply reads_only_ret].
Qed.

Lemma reads_only_next_table_scan {S} filter tables :
  forall i, reads_only (S := S) (next_table_scan world filter tables i).
Proof.
  induction tables as [|tr rest IH]; intros i; cbn [next_table_scan].
  - apply reads_only_ret.
  - apply reads_only_bind.
    { apply reads_only_if; [|apply reads_only_ret].
      apply reads_only_bind; [apply reads_only_deref|]. intros t.
      apply reads_only_find_next_same_var. }
    intros c. apply reads_only_if; [apply IH | apply reads_only_ret].
Qed.

Lemma reads_only_find_next_table {S} filter ctx :
  reads_only (S := S) (find_next_table world filter ctx).
Proof.
  unfold find_next_table. cbv zeta.
  apply reads_only_if; [apply reads_only_abort|].
  apply reads_only_bind; [apply reads_only_next_table_scan|].
  intros [[t c] i]. apply reads_only_ret.
Qed.

Lemma reads_only_each_skip fuel entities :
  forall row count e, reads_only (each_skip fuel entities row count e).
Proof.
  induction fuel as [|fuel IH]; intros row count e; cbn [each_skip].
  - apply reads_only_if; [|apply reads_only_ret].
    intros s a s' H. discriminate.
  - apply reads_only_if; [|apply reads_only_ret].
    cbv zeta. apply reads_only_if; [apply reads_only_ret|].
    apply reads_only_bind; [apply reads_only_deref|]. intros x. apply IH.
Qed.

Lemma reads_only_with_reflexive filter :
  reads_only (with_reflexive world rule op filter).
Proof.
  unfold with_reflexive. cbv zeta.
  apply reads_only_if; [|apply reads_only_ret].
  apply reads_only_bind.
  { apply reads_only_if; [apply reads_only_ret|].
    apply reads_only_bind; [apply reads_only_rule_var_kind|]. intros k.
    apply reads_only_if; [|apply reads_only_ret].
    apply reads_only_bind; [apply reads_only_entity_reg_get|]. intros e.
    repeat reads_step. }
  intros subj. repeat reads_step.
Qed.

Lemma reads_only_get_subset_frame i sp :
  reads_only (get_subset_frame i sp).
Proof.
  unfold get_subset_frame.
  apply reads_only_bind; [apply reads_only_get_ctx|]. intros c.
  apply reads_only_deref.
Qed.

(** *** The operations *)

Ltac within_leaf :=
  first
    [ apply within_set_ctx | apply within_set_col | apply within_set_id
    | apply within_set_subject | apply within_entity_reg_set
    | apply within_table_reg_set | apply within_reg_set_entity
    | apply within_stuck
    | apply within_reads;
      first
        [ apply reads_only_ret | apply reads_only_abort
        | apply reads_only_assert | apply reads_only_deref
        | apply reads_only_get_it | apply reads_only_get_ctx
        | apply reads_only_get_col | apply reads_only_rule_get_column
        | apply reads_only_rule_var_kind | apply reads_only_get_reg
        | apply reads_only_entity_reg_get | apply reads_only_table_reg_get
        | apply reads_only_reg_get_entity | apply reads_only_reg_get_table
        | apply reads_only_pair_to_filter
        | apply reads_only_find_next_column
        | apply reads_only_find_next_table
        | apply reads_only_each_skip | apply reads_only_with_reflexive
        | apply reads_only_get_subset_frame ] ].

Ltac within_step :=
  first
    [ within_leaf
    | assumption
    | apply within_bind; [|intros ?]
    | apply within_if
    | match goal with
      | |- within_footprint _ _ _ (match ?x with _ => _ end) => destruct x
      | |- within_footprint _ _ _ (let '(_, _) := ?x in _) => destruct x
      end
    | progress cbv zeta ].

Ltac within_tac := repeat within_step.

Lemma within_set_column type column : within (set_column op type column).
Proof. unfold set_column. within_tac. Qed.

Lemma within_set_source r : within (set_source world rule op r).
Proof. unfold set_source. within_tac. Qed.

Lemma within_reify_variables filter type column :
  within (reify_variables world rule op filter type column).
Proof. unfold reify_variables. within_tac. Qed.

Lemma within_superset_unwind filter stack n :
  within (superset_unwind world rule op op_index filter stack n).
Proof.
  revert stack. induction n as [|n IH]; intros stack;
    cbn [superset_unwind]; [within_tac|].
  pose proof within_set_column as Hc.
  within_tac; first [apply Hc | apply IH].
Qed.

Lemma within_eval_superset redo :
  within (eval_superset world rule op op_index redo).
Proof.
  unfold eval_superset.
  pose proof within_set_column as Hc.
  pose proof within_superset_unwind as Hu.
  within_tac; first [apply Hc | apply Hu].
Qed.

Lemma within_eval_setjmp redo : within (eval_setjmp op op_index redo).
Proof. unfold eval_setjmp. within_tac. Qed.

Lemma within_eval_store redo :
  within (eval_store world rule op op_index redo).
Proof. unfold eval_store. within_tac. Qed.

Lemma within_eval_each redo :
  within (eval_each world rule op op_index redo).
Proof. unfold eval_each. within_tac. Qed.

Lemma within_eval_select redo :
  within (eval_select world rule op op_index redo).
Proof.
  unfold eval_select.
  pose proof within_set_column as Hc.
  pose proof within_reify_variables as Hr.
  within_tac; first [apply Hc | apply Hr].
Qed.

Lemma within_eval_with redo :
  within (eval_with world rule op op_index redo).
Proof.
  unfold eval_with.
  pose proof within_set_column as Hc.
  pose proof within_reify_variables as Hr.
  pose proof within_set_source as Hs.
  within_tac; first [apply Hc | apply Hr | apply Hs].
Qed.

Lemma within_set_subset_frame sp f :
  within (set_subset_frame op_index sp f).
Proof. unfold set_subset_frame. within_tac. Qed.

Lemma within_set_subset_sp sp : within (set_subset_sp op_index sp).
Proof. unfold set_subset_sp. within_tac. Qed.

Lemma within_subset_next_frame fuel filter :
  forall sp table row,
    within (subset_next_frame world rule fuel op op_index filter sp
              table row).
Proof.
  pose proof within_set_column as Hc.
  pose proof within_set_subset_frame as Hf.
  pose proof within_set_subset_sp as Hs.
  induction fuel as [|fuel IH]; intros sp table row;
    cbn [subset_next_frame]; [within_tac|].
  within_tac; first [apply Hc | apply Hf | apply Hs | apply IH].
Qed.

Lemma within_subset_try_rows fuel entities :
  forall pair sp row row_count,
    within (subset_try_rows world rule fuel op op_index pair sp row
              row_count entities).
Proof.
  pose proof within_set_subset_frame as Hf.
  pose proof within_set_subset_sp as Hs.
  induction fuel as [|fuel IH]; intros pair sp row row_count;
    cbn [subset_try_rows]; [within_tac|].
  within_tac; first [apply Hf | apply Hs | apply IH].
Qed.

Lemma within_subset_redo fuel :
  forall pair filter,
    within (subset_redo world rule fuel op op_index pair filter).
Proof.
  pose proof within_set_column as Hc.
  pose proof within_subset_next_frame as Hn.
  pose proof within_subset_try_rows as Ht.
  induction fuel as [|fuel IH]; intros pair filter;
    cbn [subset_redo]; [within_tac|].
  within_tac; first [apply Hc | apply Hn | apply Ht | apply IH].
Qed.

Lemma within_eval_subset fuel redo :
  within (eval_subset world rule fuel op op_index redo).
Proof.
  unfold eval_subset.
  pose proof within_set_column as Hc.
  pose proof within_set_subset_frame as Hf.
  pose proof within_set_subset_sp as Hs.
  pose proof within_subset_redo as Hr.
  within_tac; first [apply Hc | apply Hf | apply Hs | apply Hr].
Qed.

(** X16.  Evaluating an operation writes, of the registers, only those
    of the frame of the operation; of the columns, only the slot of its
    term in that frame, [columns[op->term]]; of the ids and of the
    subjects, only the entry of its term; of the operation contexts,
    only its own.  No array changes its length, and the variables, the
    position in the program, the redo flag and the table slice of the
    iterator are not written. *)
Theorem eval_op_footprint (fuel : nat) (redo : bool)
    (it it' : ecs_iter_t) (result : bool) :
  eval_op world rule fuel op op_index redo it = Done (result, it') ->
  footprint rule op op_index it it'.
Proof.
  revert it result it'.
  change (within (eval_op world rule fuel op op_index redo)).
  unfold eval_op.
  destruct (op_kind op);
    first [ apply within_eval_select | apply within_eval_with
          | apply within_eval_subset | apply within_eval_superset
          | apply within_eval_each | apply within_eval_store
          | apply within_eval_setjmp
          | apply within_reads, reads_only_ret ].
Qed.
End Footprint.

(** The Select of [LocatedIn(., Y)] that finds all subjects and objects
    is not attached to a term: it sits in frame 1 with [op->term] -1,
    and the column it records lands in slot 0, the column of frame 0. *)
Lemma eval_op_footprint_witness :
  let rule := Sample.compiled Sample.rule_located_any in
  let op := Sample.operation rule 1 in
  let it := Sample.dispatched rule 1 in
  exists it',
    eval_op (api := sample_api) Sample.world rule 100 op 1 false it
    = Done (true, it')
    /\ footprint rule op 1 it it'
    /\ op_kind op = EcsRuleSelect /\ op_frame op = 1 /\ op_term op = -1
    /\ col_index rule (op_frame op) (op_term op) = 0
    /\ zlookup (columns it) 0 = Some (-1)
    /\ zlookup (columns it') 0 = Some 1.
Proof.
  intros rule op it.
  pose (it' := match eval_op (api := sample_api) Sample.world rule 100 op
                       1 false it with
               | Done (_, it') => it'
               | _ => it
               end).
  assert (H : eval_op (api := sample_api) Sample.world rule 100 op 1 false
                it = Done (true, it')) by (vm_compute; reflexivity).
  exists it'. split; [exact H|].
  split; [exact (eval_op_footprint (api := sample_api) Sample.world rule
                   op 1 100 false it it' true H)|].
  repeat split; vm_compute; reflexivity.
Defined.

(** ** A frame that no operation has written *)

Section UnwrittenFrame.
#[local] Existing Instance sample_api.

(** C9.  The rule [Rel(., X), !LocatedIn(., X)], with [LocatedIn]
    transitive, on a world where [a] has the pair [(Rel, This)].  The
    first call of [ecs_rule_next] binds [X] to [This]; [Store] puts it in
    a table register, [Each] skips the builtin entity and fails at once,
    so the [With] of the Not term, the first operation of frame 3, is
    never dispatched: the operations dispatched are 0, 1, 2, 3, 4, 7, 6,
    4, 3, 5, 2 and 10.  The Not term passes, and the [Yield], in frame 4,
    is given a copy of frame 3: memory that nothing has written since
    [ecs_os_malloc_n].  The anonymous Entity variable of index 3, which
    no operation has bound and which reads as the wildcard in frames 0
    to 2, reads in the frame of the yield as what the allocator left in
    word 15 of the register array: the wildcard only if that was 0 or
    the wildcard, 0 if it is not a valid entity.  The values reported in
    [it->variables] are the entity fields of words 13 and 15. *)
Theorem unbound_register_reads_heap (heap : malloc_t) :
  exists rule it it',
    ecs_rule_init (api := sample_api) Sample.world_this
      Sample.rule_rel_not_located = Done rule
    /\ ecs_rule_iter Sample.world_this rule heap = Done it
    /\ ecs_rule_next Sample.world_this rule 100 it = Done (true, it')
    /\ map var_kind (variables rule)
       = [EcsRuleVarKindTable; EcsRuleVarKindEntity;
          EcsRuleVarKindTable; EcsRuleVarKindEntity]
    /\ map op_frame (operations rule) = [0; 1; 2; 2; 2; 2; 2; 2; 3; 3; 4]
    /\ dispatched_ops Sample.world_this rule 100 false (-1)
         (init_subjects rule it)
       = [0; 1; 2; 3; 4; 7; 6; 4; 3; 5; 2; 10]
    /\ (forall frame, In frame [0; 1; 2] ->
          entity_reg_get Sample.world_this rule frame 3 it'
          = Done (EcsWildcard, it'))
    /\ get_reg rule 4 3 it' = Done (junk_reg heap 15, it')
    /\ entity_reg_get Sample.world_this rule 4 3 it'
       = Done (let e := reg_entity (junk_reg heap 15) in
               if e =? 0 then EcsWildcard
               else if ecs_is_valid Sample.world_this e then e else 0, it')
    /\ it_variables it'
       = [0; reg_entity (junk_reg heap 13); 0; reg_entity (junk_reg heap 15)].
Proof.
  eexists. eexists. eexists.
  split; [vm_compute; reflexivity|].
  split; [vm_compute; reflexivity|].
  split; [vm_compute; reflexivity|].
  split; [vm_compute; reflexivity|].
  split; [vm_compute; reflexivity|].
  split; [vm_compute; reflexivity|].
  split.
  { intros frame [H|[H|[H|[]]]]; subst frame; vm_compute; reflexivity. }
  split; [vm_compute; reflexivity|].
  split.
  { unfold entity_reg_get, emit_bind.
    match goal with |- context [get_reg ?r 4 3 ?i] =>
      replace (get_reg r 4 3 i) with (Done (junk_reg heap 15, i) : crash _)
        by (vm_compute; reflexivity)
    end.
    cbv beta iota zeta delta [obind]. unfold emit_ret.
    destruct (reg_entity (junk_reg heap 15) =? 0); [reflexivity|].
    destruct (ecs_is_valid Sample.world_this
                (reg_entity (junk_reg heap 15))); reflexivity. }
  vm_compute; reflexivity.
Qed.

(** C8.  A full iteration of the compiled rule
    [Rel(., X), !LocatedIn(., X)] over the same world returns one yield,
    and the table, the offset, the columns and the variables of that
    yield are the contents that [ecs_os_malloc_n] left in word 12 of the
    register array, words 6 and 7 of the column array and words 13 and
    15 of the register array: two iterations over the same world and the
    same compiled rule return different yields when the allocator hands
    out memory with different contents. *)
Theorem iteration_reads_heap :
  exists rule,
    ecs_rule_init (api := sample_api) Sample.world_this
      Sample.rule_rel_not_located = Done rule
    /\ (forall heap, exists it y,
          ecs_rule_iter Sample.world_this rule heap = Done it
          /\ iterate Sample.world_this rule 100 100 it = Done [y]
          /\ y_table y = reg_table (junk_reg heap 12)
          /\ y_offset y = reg_offset (junk_reg heap 12)
          /\ y_columns y = [junk_col heap 6 + 1; junk_col heap 7 + 1]
          /\ y_variables y
             = [0; reg_entity (junk_reg heap 13); 0;
                reg_entity (junk_reg heap 15)])
    /\ run_rule Sample.world_this Sample.rule_rel_not_located
         Sample.heap_zero 100
       <> run_rule Sample.world_this Sample.rule_rel_not_located
            Sample.heap_junk 100.
Proof.
  eexists. split; [vm_compute; reflexivity|]. split.
  - intros heap. eexists. eexists.
    split; [vm_compute; reflexivity|].
    split; [vm_compute; reflexivity|].
    split; [vm_compute; reflexivity|].
    split; [vm_compute; reflexivity|].
    split; [vm_compute; reflexivity|].
    vm_compute; reflexivity.
  - vm_compute. discriminate.
Qed.
End UnwrittenFrame.
